(** * A sequence CRDT for collaborative text editing

    Shallow embedding of the [DocumentCRDT] class (position allocator,
    position comparator, character store, merge, serialization) and the
    properties of it that the design document states.

    Conventions of the embedding.
    - JavaScript numbers that the class uses as digits, clocks and
      comparator results are integers here ([Z]); the one place where the
      class computes with [undefined] (the leading digit of an empty digit
      array) is an explicit [NotANumber] outcome.
    - A metadata flag is a boolean or [undefined]: a field of a
      [Partial<CharacterMetadata>] argument may be present with the value
      [undefined], and [updateMetadata] stores what it is given.
    - A JavaScript [Map] iterates in insertion order, and [getText] and
      [toJSON] observe that order, so the store is an association list
      with the [Map] operations [get], [has] and [set] written out.
    - Characters are values; the stores compared by a statement hold their
      own copies, as they do after a round trip through [toJSON]. *)

From Stdlib Require Import String Ascii.
From Stdlib Require Import ZArith List Bool Lia Permutation Sorted.
Import ListNotations.
Local Open Scope Z_scope.
Set Warnings "-register-all".

(** ** Runtime functions the class calls *)

(** Modelled from the spec: [String.prototype.localeCompare] belongs to the
    JavaScript runtime, not to the repository; the design document describes
    the step that uses it as "compare site identifiers lexically", so it is
    the lexicographic three-way comparison of the two strings. *)
Definition localeCompare (a b : string) : Z :=
  match String.compare a b with
  | Lt => -1
  | Eq => 0
  | Gt => 1
  end.

(** [Array.prototype.sort(compareFn)]: the language requires a stable sort,
    and for a consistent comparator every stable sort returns the same
    array.  [x], which precedes every element of [l] in the input, goes in
    front of the first element it does not compare greater than. *)
Fixpoint sort_insert {A : Type} (compareFn : A -> A -> Z) (x : A) (l : list A)
  : list A :=
  match l with
  | [] => [x]
  | y :: l' =>
      if compareFn x y <=? 0 then x :: l else y :: sort_insert compareFn x l'
  end.

Fixpoint array_sort {A : Type} (compareFn : A -> A -> Z) (l : list A)
  : list A :=
  match l with
  | [] => []
  | x :: l' => sort_insert compareFn x (array_sort compareFn l')
  end.

(** The value tree that [JSON.stringify] writes and [JSON.parse] reads back;
    the two are inverse on these trees, and the wire text stands for its
    tree. *)
Inductive json : Type :=
| JNull
| JBool (b : bool)
| JNumber (n : Z)
| JString (s : string)
| JArray (items : list json)
| JObject (fields : list (string * json)).

Fixpoint json_field (name : string) (fields : list (string * json))
  : option json :=
  match fields with
  | [] => None
  | (k, v) :: rest => if String.eqb k name then Some v else json_field name rest
  end.

(** ** Data model *)

Module Position.
Record Position : Type := mk
  { index : list Z;
    site : string;
    clock : Z }.
End Position.
Abbreviation Position := Position.Position.

(** What reading a metadata flag gives: a boolean, or [undefined].  The
    class declares the flags boolean, but the spread of [updateMetadata]
    copies a field that is present with the value [undefined] into the
    stored metadata, so a stored flag can be [undefined] too.  A flag whose
    property is missing from the stored object (as after a round trip
    through [toJSON], which leaves [undefined] fields out) reads as
    [undefined] as well, and nothing in the class tells the two apart. *)
Inductive Flag : Type :=
| Undefined
| Boolean (b : bool).

(** The flag as a condition: [!flag] is [negb (truthy flag)]. *)
Definition truthy (flag : Flag) : bool :=
  match flag with
  | Boolean b => b
  | Undefined => false
  end.

Module CharacterMetadata.
Record CharacterMetadata : Type := mk
  { bold : Flag;
    italic : Flag;
    deleted : Flag }.
End CharacterMetadata.
Abbreviation CharacterMetadata := CharacterMetadata.CharacterMetadata.

(** [Partial<CharacterMetadata>]: every field may be missing ([None]), and a
    field that is there holds a boolean or [undefined]
    ([Some Undefined] is [{ deleted: undefined }]). *)
Module PartialMetadata.
Record PartialMetadata : Type := mk
  { bold : option Flag;
    italic : option Flag;
    deleted : option Flag }.
End PartialMetadata.
Abbreviation PartialMetadata := PartialMetadata.PartialMetadata.

Module Character.
Record Character : Type := mk
  { id : string;
    value : string;
    position : Position;
    metadata : CharacterMetadata }.
End Character.
Abbreviation Character := Character.Character.

(** ** [Map<string, Character>] in insertion order *)

Definition CharacterMap : Type := list (string * Character).

Fixpoint map_get (m : CharacterMap) (key : string) : option Character :=
  match m with
  | [] => None
  | (k, v) :: m' => if String.eqb k key then Some v else map_get m' key
  end.

Definition map_has (m : CharacterMap) (key : string) : bool :=
  match map_get m key with
  | Some _ => true
  | None => false
  end.

(** [set] overwrites the value of a key the map has, where the key stands,
    and appends a key it does not have. *)
Fixpoint map_set (m : CharacterMap) (key : string) (v : Character)
  : CharacterMap :=
  match m with
  | [] => [(key, v)]
  | (k, v') :: m' =>
      if String.eqb k key then (k, v) :: m' else (k, v') :: map_set m' key v
  end.

Definition map_keys (m : CharacterMap) : list string := map fst m.
Definition map_values (m : CharacterMap) : list Character := map snd m.

(** [new Map(entries)] sets the entries one after the other. *)
Definition map_of_entries (entries : list (string * Character))
  : CharacterMap :=
  fold_left (fun m e => map_set m (fst e) (snd e)) entries [].

(** Every [Map] has each key once. *)
Definition map_wf (m : CharacterMap) : Prop := NoDup (map_keys m).

(** ** The class *)

Record DocumentCRDT : Type := mkDocument
  { characters : CharacterMap;
    siteId : string;
    clock : Z }.

Definition BASE : Z := 32.
Definition BOUNDARY : Z := 10.

(** [new DocumentCRDT(siteId)] *)
Definition newDocument (siteId : string) : DocumentCRDT :=
  {| characters := []; siteId := siteId; clock := 0 |}.

(** What a call of the allocator comes to.  [NotANumber]: the call read the
    leading digit of an empty digit array and computed with [undefined].
    [OutOfFuel]: the bound on the recursion depth of the embedding was
    reached ([generatePositionBetween_fuel_enough] shows the bound the
    class is run with is never reached). *)
Inductive outcome (A : Type) : Type :=
| Returned (a : A)
| NotANumber
| OutOfFuel.
Arguments Returned {A} a.
Arguments NotANumber {A}.
Arguments OutOfFuel {A}.

(** [++this.clock] *)
Definition incrementClock (doc : DocumentCRDT) : Z * DocumentCRDT :=
  let c := clock doc + 1 in
  (c, {| characters := characters doc; siteId := siteId doc; clock := c |}).

Definition generatePositionBefore (index : list Z) : outcome (list Z) :=
  match index with
  | [] => NotANumber
  | d :: _ =>
      if d <=? BOUNDARY then Returned [d - 1] else Returned [d - BOUNDARY]
  end.

Definition generatePositionAfter (index : list Z) : list Z :=
  index ++ [BASE].

(** The position stamped with the site and a fresh clock tick. *)
Definition stamp (doc : DocumentCRDT) (index : list Z)
  : Position * DocumentCRDT :=
  let (c, doc') := incrementClock doc in
  ({| Position.index := index; Position.site := siteId doc;
      Position.clock := c |}, doc').

(** The [while] loop of [generatePositionBetween]: [steps] bounds the number
    of iterations; started with more steps than [prevIndex] has digits, the
    loop leaves through its own condition or its [break]. *)
Fixpoint shared_prefix_loop (steps : nat) (prevIndex nextIndex head : list Z)
  (i : nat) : list Z * nat :=
  match steps with
  | O => (head, i)
  | S steps' =>
      if (Nat.ltb i (length prevIndex) && Nat.ltb i (length nextIndex))%bool
      then
        if negb (nth i prevIndex 0 =? nth i nextIndex 0)
        then (head, i)
        else shared_prefix_loop steps' prevIndex nextIndex
               (head ++ [nth i prevIndex 0]) (S i)
      else (head, i)
  end.

Definition with_index (p : Position) (index : list Z) : Position :=
  {| Position.index := index; Position.site := Position.site p;
     Position.clock := Position.clock p |}.

(** [generatePositionBetween(prev, next, newPos)], [fuel] bounding the depth
    of the recursion. *)
Fixpoint generatePositionBetween_rec (fuel : nat) (doc : DocumentCRDT)
  (prev next : option Position) (newPos : list Z)
  : outcome (Position * DocumentCRDT) :=
  match fuel with
  | O => OutOfFuel
  | S fuel' =>
      match prev, next with
      | None, None => Returned (stamp doc [BASE])
      | None, Some next =>
          match generatePositionBefore (Position.index next) with
          | Returned index => Returned (stamp doc index)
          | NotANumber => NotANumber
          | OutOfFuel => OutOfFuel
          end
      | Some prev, None =>
          Returned (stamp doc (generatePositionAfter (Position.index prev)))
      | Some prev, Some next =>
          let prevIndex := Position.index prev in
          let nextIndex := Position.index next in
          let (head, i) :=
            shared_prefix_loop (S (length prevIndex)) prevIndex nextIndex
              newPos 0 in
          let prevDigit :=
            if Nat.ltb i (length prevIndex) then nth i prevIndex 0 else 0 in
          let nextDigit :=
            if Nat.ltb i (length nextIndex) then nth i nextIndex 0 else BASE in
          let difference := nextDigit - prevDigit in
          if difference >? 1
          then Returned (stamp doc (head ++ [prevDigit + difference / 2]))
          else
            generatePositionBetween_rec fuel' doc
              (Some (with_index prev (skipn (i + 1) prevIndex)))
              (Some (with_index next (skipn (i + 1) nextIndex)))
              (head ++ [prevDigit])
      end
  end.

Definition option_index_length (p : option Position) : nat :=
  match p with
  | Some p => length (Position.index p)
  | None => O
  end.

(** The call the class makes: [newPos] defaults to a fresh empty array, and
    the recursion is as deep as the longer digit sequence at most. *)
Definition generatePositionBetween (doc : DocumentCRDT)
  (prev next : option Position) : outcome (Position * DocumentCRDT) :=
  generatePositionBetween_rec
    (S (Nat.max (option_index_length prev) (option_index_length next)))
    doc prev next [].

(** The [for] loop of [comparePositions] from [i] on, [len - i] iterations
    left: the difference of the first pair of digits that differ. *)
Fixpoint compare_digits_loop (left : nat) (index1 index2 : list Z) (i : nat)
  : option Z :=
  match left with
  | O => None
  | S left' =>
      if negb (nth i index1 0 =? nth i index2 0)
      then Some (nth i index1 0 - nth i index2 0)
      else compare_digits_loop left' index1 index2 (S i)
  end.

Definition comparePositions (pos1 pos2 : Position) : Z :=
  let len :=
    Nat.min (length (Position.index pos1)) (length (Position.index pos2)) in
  match compare_digits_loop len (Position.index pos1) (Position.index pos2) 0
  with
  | Some d => d
  | None =>
      if negb (Nat.eqb (length (Position.index pos1))
                 (length (Position.index pos2)))
      then Z.of_nat (length (Position.index pos1))
           - Z.of_nat (length (Position.index pos2))
      else if negb (String.eqb (Position.site pos1) (Position.site pos2))
      then localeCompare (Position.site pos1) (Position.site pos2)
      else Position.clock pos1 - Position.clock pos2
  end.

(** [prevId ? this.characters.get(prevId) : null] followed by
    [prev?.position || null]: a missing argument, the empty string and an id
    the store does not have all come to [null]. *)
Definition resolve_neighbor (doc : DocumentCRDT) (neighborId : option string)
  : option Position :=
  match neighborId with
  | None => None
  | Some key =>
      if String.eqb key EmptyString then None
      else option_map Character.position (map_get (characters doc) key)
  end.

(** [metadata.flag || false]: reading a missing field gives [undefined]. *)
Definition or_false (flag : option Flag) : Flag :=
  let read :=
    match flag with
    | Some f => f
    | None => Undefined
    end in
  if truthy read then read else Boolean false.

(** [insert(value, prevId, nextId, metadata)]; [uuid] is what the call of
    [uuidv4()] returns. *)
Definition insert (doc : DocumentCRDT) (uuid : string) (value : string)
  (prevId nextId : option string) (metadata : PartialMetadata)
  : outcome (Character * DocumentCRDT) :=
  let prev := resolve_neighbor doc prevId in
  let next := resolve_neighbor doc nextId in
  match generatePositionBetween doc prev next with
  | Returned (position, doc') =>
      let char :=
        {| Character.id := uuid;
           Character.value := value;
           Character.position := position;
           Character.metadata :=
             {| CharacterMetadata.bold :=
                  or_false (PartialMetadata.bold metadata);
                CharacterMetadata.italic :=
                  or_false (PartialMetadata.italic metadata);
                CharacterMetadata.deleted :=
                  or_false (PartialMetadata.deleted metadata) |} |} in
      Returned
        (char,
         {| characters := map_set (characters doc') (Character.id char) char;
            siteId := siteId doc';
            clock := clock doc' |})
  | NotANumber => NotANumber
  | OutOfFuel => OutOfFuel
  end.

Definition with_characters (doc : DocumentCRDT) (m : CharacterMap)
  : DocumentCRDT :=
  {| characters := m; siteId := siteId doc; clock := clock doc |}.

Definition with_metadata (char : Character) (metadata : CharacterMetadata)
  : Character :=
  {| Character.id := Character.id char;
     Character.value := Character.value char;
     Character.position := Character.position char;
     Character.metadata := metadata |}.

(** [delete(charId)]: the assignment [char.metadata.deleted = true] changes
    the character where it stands in the map. *)
Definition delete (doc : DocumentCRDT) (charId : string) : DocumentCRDT :=
  match map_get (characters doc) charId with
  | Some char =>
      with_characters doc
        (map_set (characters doc) charId
           (with_metadata char
              {| CharacterMetadata.bold :=
                   CharacterMetadata.bold (Character.metadata char);
                 CharacterMetadata.italic :=
                   CharacterMetadata.italic (Character.metadata char);
                 CharacterMetadata.deleted := Boolean true |}))
  | None => doc
  end.

(** [{ ...old, ...partial }]: every field that [partial] has, whatever its
    value, replaces the field of [old]. *)
Definition spread_metadata (old : CharacterMetadata)
  (partial : PartialMetadata) : CharacterMetadata :=
  {| CharacterMetadata.bold :=
       match PartialMetadata.bold partial with
       | Some flag => flag
       | None => CharacterMetadata.bold old
       end;
     CharacterMetadata.italic :=
       match PartialMetadata.italic partial with
       | Some flag => flag
       | None => CharacterMetadata.italic old
       end;
     CharacterMetadata.deleted :=
       match PartialMetadata.deleted partial with
       | Some flag => flag
       | None => CharacterMetadata.deleted old
       end |}.

Definition updateMetadata (doc : DocumentCRDT) (charId : string)
  (metadata : PartialMetadata) : DocumentCRDT :=
  match map_get (characters doc) charId with
  | Some char =>
      with_characters doc
        (map_set (characters doc) charId
           (with_metadata char
              (spread_metadata (Character.metadata char) metadata)))
  | None => doc
  end.

(** The body of the loop of [merge] for one entry of the other store. *)
Definition merge_entry (this : CharacterMap) (entry : string * Character)
  : CharacterMap :=
  let (id, char) := entry in
  if negb (map_has this id) then map_set this id char
  else
    match map_get this id with
    | Some existing =>
        if comparePositions (Character.position char)
             (Character.position existing) >? 0
        then map_set this id char
        else this
    | None => this
    end.

(** [this.merge(other)]: the receiver afterwards. *)
Definition merge (this other : DocumentCRDT) : DocumentCRDT :=
  with_characters this
    (fold_left merge_entry (characters other) (characters this)).

Definition compareCharacters (a b : Character) : Z :=
  comparePositions (Character.position a) (Character.position b).

Definition getText (doc : DocumentCRDT) : list Character :=
  array_sort compareCharacters
    (filter (fun char => negb (truthy (CharacterMetadata.deleted
                                         (Character.metadata char))))
       (map_values (characters doc))).

(** What [JSON.stringify] writes for a position, a character and an entry of
    the map. *)
Definition json_of_Position (p : Position) : json :=
  JObject
    [("index"%string, JArray (map JNumber (Position.index p)));
     ("site"%string, JString (Position.site p));
     ("clock"%string, JNumber (Position.clock p))].

(** [JSON.stringify] leaves out a property whose value is [undefined]. *)
Definition json_of_Flag (name : string) (flag : Flag)
  : list (string * json) :=
  match flag with
  | Boolean b => [(name, JBool b)]
  | Undefined => []
  end.

Definition json_of_Metadata (m : CharacterMetadata) : json :=
  JObject
    (json_of_Flag "bold" (CharacterMetadata.bold m) ++
     json_of_Flag "italic" (CharacterMetadata.italic m) ++
     json_of_Flag "deleted" (CharacterMetadata.deleted m)).

Definition json_of_Character (c : Character) : json :=
  JObject
    [("id"%string, JString (Character.id c));
     ("value"%string, JString (Character.value c));
     ("position"%string, json_of_Position (Character.position c));
     ("metadata"%string, json_of_Metadata (Character.metadata c))].

Definition json_of_entry (e : string * Character) : json :=
  JArray [JString (fst e); json_of_Character (snd e)].

(** [toJSON()]: [Array.from(this.characters.entries())], stringified. *)
Definition toJSON (doc : DocumentCRDT) : json :=
  JArray (map json_of_entry (characters doc)).

(** Reading a parsed tree at the types the class declares; [None] where the
    tree is not of the declared shape. *)
Definition number_of_json (j : json) : option Z :=
  match j with JNumber n => Some n | _ => None end.

Fixpoint all_some {A : Type} (l : list (option A)) : option (list A) :=
  match l with
  | [] => Some []
  | Some a :: l' => option_map (cons a) (all_some l')
  | None :: _ => None
  end.

Definition Position_of_json (j : json) : option Position :=
  match j with
  | JObject fields =>
      match json_field "index" fields, json_field "site" fields,
            json_field "clock" fields with
      | Some (JArray digits), Some (JString site), Some (JNumber clock) =>
          match all_some (map number_of_json digits) with
          | Some index =>
              Some {| Position.index := index; Position.site := site;
                      Position.clock := clock |}
          | None => None
          end
      | _, _, _ => None
      end
  | _ => None
  end.

(** A flag of the parsed metadata: a property that is not there reads as
    [undefined]. *)
Definition Flag_of_json (field : option json) : option Flag :=
  match field with
  | None => Some Undefined
  | Some (JBool b) => Some (Boolean b)
  | Some _ => None
  end.

Definition Metadata_of_json (j : json) : option CharacterMetadata :=
  match j with
  | JObject fields =>
      match Flag_of_json (json_field "bold" fields),
            Flag_of_json (json_field "italic" fields),
            Flag_of_json (json_field "deleted" fields) with
      | Some bold, Some italic, Some deleted =>
          Some {| CharacterMetadata.bold := bold;
                  CharacterMetadata.italic := italic;
                  CharacterMetadata.deleted := deleted |}
      | _, _, _ => None
      end
  | _ => None
  end.

Definition Character_of_json (j : json) : option Character :=
  match j with
  | JObject fields =>
      match json_field "id" fields, json_field "value" fields,
            json_field "position" fields, json_field "metadata" fields with
      | Some (JString id), Some (JString value), Some position, Some metadata =>
          match Position_of_json position, Metadata_of_json metadata with
          | Some position, Some metadata =>
              Some {| Character.id := id; Character.value := value;
                      Character.position := position;
                      Character.metadata := metadata |}
          | _, _ => None
          end
      | _, _, _, _ => None
      end
  | _ => None
  end.

Definition entry_of_json (j : json) : option (string * Character) :=
  match j with
  | JArray [JString key; char] =>
      option_map (pair key) (Character_of_json char)
  | _ => None
  end.

(** [DocumentCRDT.fromJSON(json, siteId)]: a new document of that site, its
    map built by [new Map] from the parsed entries. *)
Definition fromJSON (j : json) (siteId : string) : option DocumentCRDT :=
  match j with
  | JArray items =>
      option_map
        (fun entries =>
           with_characters (newDocument siteId) (map_of_entries entries))
        (all_some (map entry_of_json items))
  | _ => None
  end.

(** ** The order of the design document and the digits the allocator yields *)

(** A three-way comparison that is decided by [c1] unless [c1] is a tie. *)
Definition lex (c1 c2 : comparison) : comparison :=
  match c1 with
  | Eq => c2
  | _ => c1
  end.

(** Steps 1 and 2 of the comparator as the design document words them: the
    first digit that differs decides, and a strict prefix sorts first. *)
Fixpoint order_digits (a b : list Z) : comparison :=
  match a, b with
  | [], [] => Eq
  | [], _ :: _ => Lt
  | _ :: _, [] => Gt
  | x :: a', y :: b' => lex (x ?= y) (order_digits a' b')
  end.

(** The four steps: digits, then sites lexically, then clocks numerically. *)
Definition position_order (p q : Position) : comparison :=
  lex (order_digits (Position.index p) (Position.index q))
    (lex (String.compare (Position.site p) (Position.site q))
       (Position.clock p ?= Position.clock q)).

(** [p] sorts before [q] under [comparePositions]. *)
Definition position_lt (p q : Position) : Prop := comparePositions p q < 0.

(** The laws of a three-way comparison of a strict total order. *)
Class StrictCompare {A : Type} (cmp : A -> A -> comparison) : Prop :=
  { cmp_refl : forall a, cmp a a = Eq;
    cmp_eq : forall a b, cmp a b = Eq -> a = b;
    cmp_opp : forall a b, cmp b a = CompOpp (cmp a b);
    cmp_trans : forall a b c, cmp a b = Lt -> cmp b c = Lt -> cmp a c = Lt }.

(** The digits two sequences share at their front, and the first difference
    the comparator's loop finds. *)
Fixpoint common_prefix (a b : list Z) : list Z :=
  match a, b with
  | x :: a', y :: b' => if x =? y then x :: common_prefix a' b' else []
  | _, _ => []
  end.

Fixpoint first_difference (a b : list Z) : option Z :=
  match a, b with
  | x :: a', y :: b' =>
      if negb (x =? y) then Some (x - y) else first_difference a' b'
  | _, _ => None
  end.

(** The digits [generatePositionBetween] appends once the digits of [prev]
    are used up: its [prevDigit] is 0 from there on. *)
Fixpoint digits_above_prefix (next : list Z) : list Z :=
  match next with
  | [] => [0 + (BASE - 0) / 2]
  | q :: next' =>
      if q - 0 >? 1 then [0 + (q - 0) / 2]
      else 0 :: digits_above_prefix next'
  end.

(** The digits of the position [generatePositionBetween] returns for two
    positions, by recursion on the digits instead of the loop, the slices
    and the accumulator. *)
Fixpoint between_digits (prev next : list Z) : list Z :=
  match prev with
  | [] => digits_above_prefix next
  | p :: prev' =>
      match next with
      | [] =>
          if BASE - p >? 1 then [p + (BASE - p) / 2]
          else p :: between_digits prev' []
      | q :: next' =>
          if p =? q then p :: between_digits prev' next'
          else if q - p >? 1 then [p + (q - p) / 2]
          else p :: between_digits prev' next'
      end
  end.

(** The first digit that is not 0 exists and is positive: a digit sequence
    that extends another by such digits leaves room below itself. *)
Fixpoint headroom (digits : list Z) : bool :=
  match digits with
  | [] => false
  | d :: digits' =>
      if d =? 0 then headroom digits' else 0 <? d
  end.

(** [next] leaves room above [prev]: where the digits of [prev] are a prefix
    of the digits of [next], the rest of [next] has headroom. *)
Definition room_between (prev next : Position) : Prop :=
  forall rest,
    Position.index next = Position.index prev ++ rest -> headroom rest = true.



(** ** Values written out *)

(** A position written out. *)
Definition position_of (index : list Z) (site : string) (clock : Z)
  : Position :=
  {| Position.index := index; Position.site := site; Position.clock := clock |}.

(** A character with boolean flags and a document written out. *)
Definition character_of (id value : string) (position : Position)
  (bold italic deleted : bool) : Character :=
  {| Character.id := id; Character.value := value;
     Character.position := position;
     Character.metadata :=
       {| CharacterMetadata.bold := Boolean bold;
          CharacterMetadata.italic := Boolean italic;
          CharacterMetadata.deleted := Boolean deleted |} |}.

Definition document_of (entries : list (string * Character))
  (siteId : string) (clock : Z) : DocumentCRDT :=
  {| characters := entries; siteId := siteId; clock := clock |}.

(** ** Merge, sorting and the stores the class builds *)

(** What [merge] leaves under one id, from what the receiver and the other
    store have under it: the other store's copy where the receiver has none
    or where its position compares greater, the receiver's copy otherwise. *)
Definition merged_copy (local remote : option Character) : option Character :=
  match local, remote with
  | Some a, Some b =>
      if comparePositions (Character.position b) (Character.position a) >? 0
      then Some b
      else Some a
  | Some a, None => Some a
  | None, _ => remote
  end.

(** The store has the id, and the character under it is a tombstone. *)
Definition deleted_in (doc : DocumentCRDT) (id : string) : Prop :=
  exists char,
    map_get (characters doc) id = Some char /\
    CharacterMetadata.deleted (Character.metadata char) = Boolean true.

(** The characters of the two stores that share a position are one and the
    same character. *)
Definition positions_identify (a b : DocumentCRDT) : Prop :=
  forall c d,
    In c (map_values (characters a) ++ map_values (characters b)) ->
    In d (map_values (characters a) ++ map_values (characters b)) ->
    Character.position c = Character.position d -> c = d.

(** The test of [merge]: the position of [b] compares greater than the
    position of [a]. *)
Definition sorts_after (b a : Character) : bool :=
  comparePositions (Character.position b) (Character.position a) >? 0.

(** [a] does not sort after [b] under a comparator: what [sort] asks of a
    pair it leaves in this order. *)
Definition not_after {A : Type} (compareFn : A -> A -> Z) (a b : A) : Prop :=
  compareFn a b <= 0.

Definition sorts_not_after (a b : Character) : Prop :=
  not_after compareCharacters a b.

(** The digit sequences the allocator builds: at least one digit, no digit
    after the first is negative, and the last digit of a sequence of two or
    more is positive. *)
Definition minted_tail (rest : list Z) : Prop :=
  Forall (fun d => 0 <= d) rest /\ (rest <> [] -> 0 < last rest 0).

Definition minted_digits (index : list Z) : Prop :=
  match index with
  | [] => False
  | _ :: rest => minted_tail rest
  end.

(** Every position stored has digits of the allocator's making. *)
Definition minted_store (doc : DocumentCRDT) : Prop :=
  forall key char,
    map_get (characters doc) key = Some char ->
    minted_digits (Position.index (Character.position char)).

(** The documents the class builds: new ones, and what [insert], [delete],
    [updateMetadata], [merge] and a round trip through [toJSON] and
    [fromJSON] make of documents it has built. *)
Inductive reachable : DocumentCRDT -> Prop :=
| reachable_new (site : string) : reachable (newDocument site)
| reachable_insert (doc doc' : DocumentCRDT) (uuid value : string)
    (prevId nextId : option string) (metadata : PartialMetadata)
    (char : Character) :
    reachable doc ->
    insert doc uuid value prevId nextId metadata = Returned (char, doc') ->
    reachable doc'
| reachable_delete (doc : DocumentCRDT) (charId : string) :
    reachable doc -> reachable (delete doc charId)
| reachable_updateMetadata (doc : DocumentCRDT) (charId : string)
    (metadata : PartialMetadata) :
    reachable doc -> reachable (updateMetadata doc charId metadata)
| reachable_merge (this other : DocumentCRDT) :
    reachable this -> reachable other -> reachable (merge this other)
| reachable_fromJSON (doc doc' : DocumentCRDT) (site : string) :
    reachable doc -> fromJSON (toJSON doc) site = Some doc' ->
    reachable doc'.

(** ** Further values written out *)

(** [{}] as the metadata argument. *)
Definition no_metadata : PartialMetadata :=
  {| PartialMetadata.bold := None; PartialMetadata.italic := None;
     PartialMetadata.deleted := None |}.

(** The character is shown by [getText]. *)
Definition visible (char : Character) : bool :=
  negb (truthy (CharacterMetadata.deleted (Character.metadata char))).

(** Where a stable sort puts an element that came last: behind every element
    of the sorted list that does not compare greater than it, in front of the
    first that does. *)
Fixpoint sort_place {A : Type} (compareFn : A -> A -> Z) (x : A) (l : list A)
  : list A :=
  match l with
  | [] => [x]
  | z :: l' =>
      if compareFn z x <=? 0 then z :: sort_place compareFn x l' else x :: l
  end.

(** The map without the entry of a key. *)
Definition map_without (m : CharacterMap) (key : string) : CharacterMap :=
  filter (fun entry => negb (String.eqb (fst entry) key)) m.

(** [{ deleted: true }] as the metadata argument. *)
Definition only_deleted : PartialMetadata :=
  {| PartialMetadata.bold := None; PartialMetadata.italic := None;
     PartialMetadata.deleted := Some (Boolean true) |}.

(** The argument that does to the metadata what [first] and then [second]
    do: [{ ...first, ...second }]. *)
Definition spread_partial (first second : PartialMetadata) : PartialMetadata :=
  {| PartialMetadata.bold :=
       match PartialMetadata.bold second with
       | Some flag => Some flag
       | None => PartialMetadata.bold first
       end;
     PartialMetadata.italic :=
       match PartialMetadata.italic second with
       | Some flag => Some flag
       | None => PartialMetadata.italic first
       end;
     PartialMetadata.deleted :=
       match PartialMetadata.deleted second with
       | Some flag => Some flag
       | None => PartialMetadata.deleted first
       end |}.

(** Two characters that differ in [bold] and [italic] at most. *)
Definition same_but_format (a b : Character) : Prop :=
  Character.id a = Character.id b /\
  Character.value a = Character.value b /\
  Character.position a = Character.position b /\
  CharacterMetadata.deleted (Character.metadata a) =
  CharacterMetadata.deleted (Character.metadata b).

(** [insert(value)] called for each value in turn, with the ids [uuidv4()]
    returns for them: no neighbours, no metadata. *)
Fixpoint insert_each (doc : DocumentCRDT) (items : list (string * string))
  : outcome DocumentCRDT :=
  match items with
  | [] => Returned doc
  | (uuid, value) :: rest =>
      match insert doc uuid value None None no_metadata with
      | Returned (_, doc') => insert_each doc' rest
      | NotANumber => NotANumber
      | OutOfFuel => OutOfFuel
      end
  end.

(** The position [insert] mints when it is given no neighbours. *)
Definition next_default_position (doc : DocumentCRDT) : Position :=
  position_of [BASE] (siteId doc) (clock doc + 1).

(** * The editing surface

    The handlers of the [CollaborativeEditor] component as functions of the
    state the component holds when an event arrives: each returns the state
    its [set...] calls leave and the messages it sends.  [Date.now()], the
    parsed content of an incoming message and whether the socket is open
    are given with the event. *)

Module Editor.

Record Character : Type := mkCharacter
  { id : Z;
    value : string;
    bold : bool;
    italic : bool;
    author : string }.

(** The [useState] cells of the component. *)
Record State : Type := mkState
  { text : list Character;
    selectedId : option Z;
    cursorPosition : Z;
    activeUsers : Z;
    isFocused : bool }.

(** The first render: [useState([])], [null], [-1], [1], [false]. *)
Definition initial : State :=
  {| text := []; selectedId := None; cursorPosition := -1; activeUsers := 1;
     isFocused := false |}.

(** The message [broadcastChanges] sends: type ['doc-update'], the text as
    content, the room. *)
Record Message : Type := mkMessage
  { content : list Character;
    roomId : string }.

(** [Array.prototype.slice(start, end)]: a negative index counts from the end
    of the array, and both are clamped to it. *)
Definition relative_index (len : nat) (i : Z) : nat :=
  if i <? 0 then Z.to_nat (Z.max (Z.of_nat len + i) 0)
  else Nat.min (Z.to_nat i) len.

Definition slice {A : Type} (l : list A) (start finish : Z) : list A :=
  let k := relative_index (length l) start in
  let final := relative_index (length l) finish in
  firstn (final - k) (skipn k l).

(** [Array.prototype.filter] with a callback that reads the index. *)
Fixpoint filter_index {A : Type} (keep : A -> Z -> bool) (l : list A) (i : Z)
  : list A :=
  match l with
  | [] => []
  | x :: l' =>
      if keep x i then x :: filter_index keep l' (i + 1)
      else filter_index keep l' (i + 1)
  end.

(** [broadcastChanges(newText)]: sent only when the socket is open. *)
Definition broadcastChanges (wsOpen : bool) (room : string)
  (newText : list Character) : list Message :=
  if wsOpen then [{| content := newText; roomId := room |}] else [].

Record KeyboardEvent : Type := mkKey
  { key : string;
    ctrlKey : bool;
    metaKey : bool }.

Definition with_cursor (st : State) (cursor : Z) : State :=
  {| text := text st; selectedId := selectedId st; cursorPosition := cursor;
     activeUsers := activeUsers st; isFocused := isFocused st |}.

Definition handleKeyDown (username room : string) (wsOpen : bool) (now : Z)
  (st : State) (e : KeyboardEvent) : State * list Message :=
  if String.eqb (key e) "Backspace" then
    if (cursorPosition st >? 0)
       || match selectedId st with Some _ => true | None => false end
    then
      let newText :=
        match selectedId st with
        | Some selected =>
            filter (fun char => negb (id char =? selected)) (text st)
        | None =>
            filter_index
              (fun _ index => negb (index =? cursorPosition st - 1))
              (text st) 0
        end in
      ({| text := newText; selectedId := None;
          cursorPosition := Z.max 0 (cursorPosition st - 1);
          activeUsers := activeUsers st; isFocused := isFocused st |},
       broadcastChanges wsOpen room newText)
    else (st, [])
  else if String.eqb (key e) "ArrowLeft" then
    (with_cursor st (Z.max 0 (cursorPosition st - 1)), [])
  else if String.eqb (key e) "ArrowRight" then
    (with_cursor st
       (Z.min (Z.of_nat (length (text st))) (cursorPosition st + 1)), [])
  else if Nat.eqb (String.length (key e)) 1
          && negb (ctrlKey e) && negb (metaKey e) then
    let newChar :=
      {| id := now; value := key e; bold := false; italic := false;
         author := username |} in
    let insertPosition :=
      if cursorPosition st =? -1 then Z.of_nat (length (text st))
      else cursorPosition st in
    let newText :=
      slice (text st) 0 insertPosition ++ [newChar]
      ++ slice (text st) insertPosition (Z.of_nat (length (text st))) in
    ({| text := newText; selectedId := selectedId st;
        cursorPosition := insertPosition + 1;
        activeUsers := activeUsers st; isFocused := isFocused st |},
     broadcastChanges wsOpen room newText)
  else (st, []).

Inductive Style : Type := Bold | Italic.

(** [{ ...char, [style]: !char[style] }] *)
Definition toggle (style : Style) (char : Character) : Character :=
  match style with
  | Bold =>
      {| id := id char; value := value char; bold := negb (bold char);
         italic := italic char; author := author char |}
  | Italic =>
      {| id := id char; value := value char; bold := bold char;
         italic := negb (italic char); author := author char |}
  end.

Definition handleFormat (room : string) (wsOpen : bool) (st : State)
  (style : Style) : State * list Message :=
  match selectedId st with
  | None => (st, [])
  | Some selected =>
      let newText :=
        map (fun char =>
               if id char =? selected then toggle style char else char)
          (text st) in
      ({| text := newText; selectedId := selectedId st;
          cursorPosition := cursorPosition st;
          activeUsers := activeUsers st; isFocused := isFocused st |},
       broadcastChanges wsOpen room newText)
  end.

Definition handleClick (st : State) (index : Z) : State :=
  {| text := text st; selectedId := None; cursorPosition := index;
     activeUsers := activeUsers st; isFocused := isFocused st |}.

(** What [websocket.onmessage] finds in the parsed data: a user count (the
    result of [parseInt]), a text, or something it ignores (another type,
    or data that does not parse). *)
Inductive Incoming : Type :=
| UserJoined (count : Z)
| DocUpdate (newText : list Character)
| Ignored.

Definition onmessage (st : State) (data : Incoming) : State :=
  match data with
  | UserJoined count =>
      {| text := text st; selectedId := selectedId st;
         cursorPosition := cursorPosition st; activeUsers := count;
         isFocused := isFocused st |}
  | DocUpdate newText =>
      {| text := newText; selectedId := selectedId st;
         cursorPosition := cursorPosition st; activeUsers := activeUsers st;
         isFocused := isFocused st |}
  | Ignored => st
  end.

Definition setIsFocused (st : State) (focused : bool) : State :=
  {| text := text st; selectedId := selectedId st;
     cursorPosition := cursorPosition st; activeUsers := activeUsers st;
     isFocused := focused |}.

(** The events the component reacts to. *)
Inductive Event : Type :=
| KeyDown (e : KeyboardEvent) (now : Z) (wsOpen : bool)
| Format (style : Style) (wsOpen : bool)
| Click (index : Z)
| Receive (data : Incoming)
| Focus
| Blur.

Definition step (username room : string) (st : State) (ev : Event)
  : State * list Message :=
  match ev with
  | KeyDown e now wsOpen => handleKeyDown username room wsOpen now st e
  | Format style wsOpen => handleFormat room wsOpen st style
  | Click index => (handleClick st index, [])
  | Receive data => (onmessage st data, [])
  | Focus => (setIsFocused st true, [])
  | Blur => (setIsFocused st false, [])
  end.

(** The state after the events, and everything sent on the way. *)
Fixpoint run (username room : string) (st : State) (events : list Event)
  : State * list Message :=
  match events with
  | [] => (st, [])
  | ev :: rest =>
      let (st', sent) := step username room st ev in
      let (final, sent') := run username room st' rest in
      (final, sent ++ sent')
  end.

(** The cursor is unset or stands at a gap of the text. *)
Definition cursor_in_text (st : State) : Prop :=
  cursorPosition st = -1 \/
  0 <= cursorPosition st <= Z.of_nat (length (text st)).

(** An event of the component's own user: a key, a format button, focus, or
    a click on one of the characters rendered. *)
Definition local_event (st : State) (ev : Event) : Prop :=
  match ev with
  | Click index => 0 <= index < Z.of_nat (length (text st))
  | Receive _ => False
  | _ => True
  end.

End Editor.

(** * The relay

    The WebSocket server: the [rooms] map and the handlers the [connection]
    callback registers for a socket, as functions of the map.  Sockets are
    numbered; which sockets are [OPEN] and what [JSON.parse] makes of an
    incoming message are given with the event. *)

Module Relay.

Definition Socket : Type := nat.

(** [Map<string, Set<WebSocket>>], both in insertion order. *)
Definition Rooms : Type := list (string * list Socket).

Fixpoint rooms_get (rooms : Rooms) (roomId : string) : option (list Socket) :=
  match rooms with
  | [] => None
  | (k, clients) :: rest =>
      if String.eqb k roomId then Some clients else rooms_get rest roomId
  end.

Fixpoint rooms_set (rooms : Rooms) (roomId : string) (clients : list Socket)
  : Rooms :=
  match rooms with
  | [] => [(roomId, clients)]
  | (k, old) :: rest =>
      if String.eqb k roomId then (k, clients) :: rest
      else (k, old) :: rooms_set rest roomId clients
  end.

Definition rooms_delete (rooms : Rooms) (roomId : string) : Rooms :=
  filter (fun room => negb (String.eqb (fst room) roomId)) rooms.

(** [Set.prototype.add] and [Set.prototype.delete] *)
Definition set_add (clients : list Socket) (ws : Socket) : list Socket :=
  if existsb (Nat.eqb ws) clients then clients else clients ++ [ws].

Definition set_delete (clients : list Socket) (ws : Socket) : list Socket :=
  filter (fun client => negb (Nat.eqb client ws)) clients.

(** What a client is sent: the user count of a room (type ['user-joined'],
    the count as content, the room), or the data of a message relayed. *)
Inductive Payload : Type :=
| UserCount (count : nat) (roomId : string)
| Relayed (data : json).

Definition Sent : Type := (Socket * Payload)%type.

(** [split('/')] *)
Fixpoint split_slash (s : string) : list string :=
  match s with
  | EmptyString => [EmptyString]
  | String c rest =>
      if Ascii.eqb c "/" then EmptyString :: split_slash rest
      else
        match split_slash rest with
        | head :: tail => String c head :: tail
        | [] => [String c EmptyString]
        end
  end.

(** [req.url?.split('/')[1] || 'default-room'] *)
Definition room_of (url : option string) : string :=
  match url with
  | None => "default-room"
  | Some u =>
      match nth_error (split_slash u) 1 with
      | Some part => if String.eqb part EmptyString then "default-room" else part
      | None => "default-room"
      end
  end.

(** [broadcast(data, sender)] of the connection whose room is [roomId]. *)
Definition broadcast (open : Socket -> bool) (rooms : Rooms) (roomId : string)
  (data : Payload) (sender : option Socket) : list Sent :=
  match rooms_get rooms roomId with
  | Some clients =>
      map (fun client => (client, data))
        (filter
           (fun client =>
              negb match sender with
                   | Some ws => Nat.eqb client ws
                   | None => false
                   end
              && open client)
           clients)
  | None => []
  end.

Definition broadcastUserCount (open : Socket -> bool) (rooms : Rooms)
  (roomId : string) : list Sent :=
  let count :=
    match rooms_get rooms roomId with
    | Some clients => length clients
    | None => O
    end in
  broadcast open rooms roomId (UserCount count roomId) None.

(** The body of the [connection] callback: the rooms afterwards, the room of
    the socket, and what is sent. *)
Definition connection (open : Socket -> bool) (rooms : Rooms) (ws : Socket)
  (url : option string) : Rooms * string * list Sent :=
  let roomId := room_of url in
  let rooms1 :=
    match rooms_get rooms roomId with
    | Some _ => rooms
    | None => rooms_set rooms roomId []
    end in
  let rooms2 :=
    match rooms_get rooms1 roomId with
    | Some clients => rooms_set rooms1 roomId (set_add clients ws)
    | None => rooms1
    end in
  (rooms2, roomId, broadcastUserCount open rooms2 roomId).

(** The ['message'] handler of a socket of room [roomId]; [parsed] is what
    [JSON.parse] returns, [None] when it throws. *)
Definition on_message (open : Socket -> bool) (rooms : Rooms) (ws : Socket)
  (roomId : string) (parsed : option json) : list Sent :=
  match parsed with
  | Some data => broadcast open rooms roomId (Relayed data) (Some ws)
  | None => []
  end.

(** The ['close'] handler of a socket of room [roomId]. *)
Definition on_close (open : Socket -> bool) (rooms : Rooms) (ws : Socket)
  (roomId : string) : Rooms * list Sent :=
  let rooms1 :=
    match rooms_get rooms roomId with
    | Some clients => rooms_set rooms roomId (set_delete clients ws)
    | None => rooms
    end in
  match rooms_get rooms1 roomId with
  | Some [] => (rooms_delete rooms1 roomId, [])
  | _ => (rooms1, broadcastUserCount open rooms1 roomId)
  end.

(** The server: the rooms, and for every socket that connected the room its
    handlers were registered with. *)
Record State : Type := mkState
  { rooms : Rooms;
    registered : list (Socket * string) }.

Definition start : State := {| rooms := []; registered := [] |}.

Inductive Event : Type :=
| Connection (ws : Socket) (url : option string)
| Message (ws : Socket) (parsed : option json)
| Close (ws : Socket).

Definition rooms_of (registered : list (Socket * string)) (ws : Socket)
  : list string :=
  map snd (filter (fun entry => Nat.eqb (fst entry) ws) registered).

(** One event, with the sockets that are [OPEN] when it arrives. *)
Definition step (st : State) (open : Socket -> bool) (ev : Event)
  : State * list Sent :=
  match ev with
  | Connection ws url =>
      let '(rooms', roomId, sent) := connection open (rooms st) ws url in
      ({| rooms := rooms'; registered := registered st ++ [(ws, roomId)] |},
       sent)
  | Message ws parsed =>
      (st,
       flat_map (fun roomId => on_message open (rooms st) ws roomId parsed)
         (rooms_of (registered st) ws))
  | Close ws =>
      let (rooms', sent) :=
        fold_left
          (fun acc roomId =>
             let (rooms1, sent1) := on_close open (fst acc) ws roomId in
             (rooms1, snd acc ++ sent1))
          (rooms_of (registered st) ws) (rooms st, []) in
      ({| rooms := rooms'; registered := registered st |}, sent)
  end.

Fixpoint run (st : State) (events : list ((Socket -> bool) * Event))
  : State * list Sent :=
  match events with
  | [] => (st, [])
  | (open, ev) :: rest =>
      let (st', sent) := step st open ev in
      let (final, sent') := run st' rest in
      (final, sent ++ sent')
  end.

(** What the server keeps true of its rooms: every room id once, no room
    without a socket, no socket twice in a room, and every socket of a room
    registered with that room. *)
Definition rooms_ok (st : State) : Prop :=
  NoDup (map fst (rooms st)) /\
  forall roomId clients,
    rooms_get (rooms st) roomId = Some clients ->
    clients <> [] /\ NoDup clients /\
    forall ws, In ws clients -> In (ws, roomId) (registered st).

(** The string has no ['/']. *)
Fixpoint no_slash (s : string) : bool :=
  match s with
  | EmptyString => true
  | String c rest => negb (Ascii.eqb c "/") && no_slash rest
  end.

End Relay.

(** * Properties *)

(** ** Lists and digits *)

Lemma skipn_cons_nth (l : list Z) (i : nat) :
  (i < length l)%nat -> skipn i l = nth i l 0 :: skipn (S i) l.
Proof.
  revert i; induction l as [|x l IH]; intros [|i] H; simpl in *; try lia.
  - reflexivity.
  - apply IH; lia.
Qed.

Lemma common_prefix_split (a b : list Z) :
  exists a' b',
    a = common_prefix a b ++ a' /\ b = common_prefix a b ++ b' /\
    match a', b' with
    | x :: _, y :: _ => x <> y
    | _, _ => True
    end.
Proof.
  revert b; induction a as [|x a IH]; intros [|y b]; simpl.
  - exists [], []; auto.
  - exists [], (y :: b); auto.
  - exists (x :: a), []; auto.
  - destruct (Z.eqb_spec x y) as [->|Hne].
    + destruct (IH b) as (a' & b' & Ha & Hb & Hd).
      exists a', b'; simpl; repeat split; try congruence; assumption.
    + exists (x :: a), (y :: b); simpl; auto.
Qed.

Lemma shared_prefix_loop_spec (steps : nat) (prevIndex nextIndex head : list Z)
  (i : nat) :
  (length prevIndex - i < steps)%nat ->
  shared_prefix_loop steps prevIndex nextIndex head i =
  (head ++ common_prefix (skipn i prevIndex) (skipn i nextIndex),
   (i + length (common_prefix (skipn i prevIndex) (skipn i nextIndex)))%nat).
Proof.
  revert head i; induction steps as [|steps IH]; intros head i Hsteps;
    [lia|].
  simpl.
  destruct (Nat.ltb_spec i (length prevIndex)) as [Hp|Hp]; simpl.
  - destruct (Nat.ltb_spec i (length nextIndex)) as [Hq|Hq]; simpl.
    + rewrite (skipn_cons_nth prevIndex i Hp), (skipn_cons_nth nextIndex i Hq).
      simpl.
      destruct (Z.eqb_spec (nth i prevIndex 0) (nth i nextIndex 0)) as [E|E];
        simpl.
      * rewrite IH by lia.
        rewrite <- app_assoc; simpl. f_equal; lia.
      * rewrite app_nil_r; f_equal; lia.
    + rewrite (skipn_all2 nextIndex) by lia.
      destruct (skipn i prevIndex); simpl; rewrite app_nil_r; f_equal; lia.
  - rewrite (skipn_all2 prevIndex) by lia.
    simpl; rewrite app_nil_r; f_equal; lia.
Qed.

Lemma between_digits_shared (shared a b : list Z) :
  between_digits (shared ++ a) (shared ++ b) = shared ++ between_digits a b.
Proof.
  induction shared as [|x shared IH]; simpl; [reflexivity|].
  rewrite Z.eqb_refl, IH; reflexivity.
Qed.

Lemma digit_after_prefix (shared a : list Z) (d : Z) :
  (if Nat.ltb (length shared) (length (shared ++ a))
   then nth (length shared) (shared ++ a) 0 else d) =
  match a with [] => d | x :: _ => x end.
Proof.
  rewrite length_app.
  destruct a as [|x a]; simpl.
  - rewrite Nat.add_0_r, Nat.ltb_irrefl; reflexivity.
  - destruct (Nat.ltb_spec (length shared) (length shared + S (length a)));
      [|lia].
    rewrite app_nth2, Nat.sub_diag by lia; reflexivity.
Qed.

Lemma skipn_after_prefix (shared a : list Z) :
  skipn (length shared + 1) (shared ++ a) = tl a.
Proof.
  rewrite skipn_app, skipn_all2 by lia.
  replace (length shared + 1 - length shared)%nat with 1%nat by lia.
  destruct a; reflexivity.
Qed.

Lemma generatePositionBetween_rec_digits (fuel : nat) :
  forall (doc : DocumentCRDT) (prev next : Position) (newPos : list Z),
    (Nat.max (length (Position.index prev)) (length (Position.index next))
     < fuel)%nat ->
    generatePositionBetween_rec fuel doc (Some prev) (Some next) newPos =
    Returned
      (stamp doc
         (newPos ++ between_digits (Position.index prev) (Position.index next))).
Proof.
  induction fuel as [|fuel IH]; intros doc [P ps pc] [Q qs qc] newPos Hfuel;
    [lia|].
  cbn [generatePositionBetween_rec Position.index] in *.
  rewrite shared_prefix_loop_spec by lia.
  cbn [skipn Nat.add].
  destruct (common_prefix_split P Q) as (a & b & HP & HQ & Hd).
  revert HP HQ; generalize (common_prefix P Q) as shared; intros shared -> ->.
  rewrite !digit_after_prefix, !skipn_after_prefix, between_digits_shared.
  rewrite length_app, length_app in Hfuel.
  destruct a as [|x a], b as [|y b]; cbn [tl between_digits digits_above_prefix].
  - rewrite <- app_assoc; reflexivity.
  - destruct (y - 0 >? 1).
    + rewrite <- app_assoc; reflexivity.
    + rewrite IH by (simpl in *; lia).
      cbn [with_index Position.index between_digits].
      rewrite <- !app_assoc; reflexivity.
  - destruct (BASE - x >? 1).
    + rewrite <- app_assoc; reflexivity.
    + rewrite IH by (simpl in *; lia).
      cbn [with_index Position.index].
      rewrite <- !app_assoc; reflexivity.
  - destruct (Z.eqb_spec x y) as [E|_]; [contradiction|].
    destruct (y - x >? 1).
    + rewrite <- app_assoc; reflexivity.
    + rewrite IH by (simpl in *; lia).
      cbn [with_index Position.index].
      rewrite <- !app_assoc; reflexivity.
Qed.

Lemma generatePositionBetween_digits (doc : DocumentCRDT) (prev next : Position) :
  generatePositionBetween doc (Some prev) (Some next) =
  Returned
    (stamp doc (between_digits (Position.index prev) (Position.index next))).
Proof.
  unfold generatePositionBetween.
  rewrite generatePositionBetween_rec_digits by (simpl; lia).
  reflexivity.
Qed.

Lemma generatePositionBetween_fuel_enough (fuel : nat) (doc : DocumentCRDT)
  (prev next : option Position) :
  (Nat.max (option_index_length prev) (option_index_length next) < fuel)%nat ->
  generatePositionBetween_rec fuel doc prev next [] =
  generatePositionBetween doc prev next /\
  generatePositionBetween doc prev next <> OutOfFuel.
Proof.
  intros Hfuel.
  destruct prev as [prev|], next as [next|].
  - rewrite generatePositionBetween_digits.
    rewrite generatePositionBetween_rec_digits by exact Hfuel.
    split; [reflexivity | discriminate].
  - destruct fuel; [lia|]. split; [reflexivity | discriminate].
  - destruct fuel; [lia|]. unfold generatePositionBetween.
    cbn [generatePositionBetween_rec].
    destruct (Position.index next) as [|d rest]; cbn [generatePositionBefore].
    + split; [reflexivity | discriminate].
    + destruct (d <=? BOUNDARY); split; try reflexivity; discriminate.
  - destruct fuel; [lia|]. split; [reflexivity | discriminate].
Qed.

(** ** Three-way comparisons *)

Lemma lex_eq (c1 c2 : comparison) : lex c1 c2 = Eq -> c1 = Eq /\ c2 = Eq.
Proof. destruct c1; simpl; intros H; try discriminate; auto. Qed.

Lemma lex_opp (c1 c2 : comparison) :
  lex (CompOpp c1) (CompOpp c2) = CompOpp (lex c1 c2).
Proof. destruct c1; reflexivity. Qed.

Lemma lex_trans {A : Type} (cmp : A -> A -> comparison) `{!StrictCompare cmp}
  (a1 a2 a3 : A) (c12 c23 c13 : comparison) :
  (c12 = Lt -> c23 = Lt -> c13 = Lt) ->
  lex (cmp a1 a2) c12 = Lt -> lex (cmp a2 a3) c23 = Lt ->
  lex (cmp a1 a3) c13 = Lt.
Proof.
  intros Hc.
  destruct (cmp a1 a2) eqn:E12; simpl; try discriminate.
  - apply cmp_eq in E12; subst a2.
    destruct (cmp a1 a3); simpl; auto.
  - intros _.
    destruct (cmp a2 a3) eqn:E23; simpl; try discriminate.
    + apply cmp_eq in E23; subst a3. rewrite E12; reflexivity.
    + intros _. rewrite (cmp_trans _ _ _ E12 E23); reflexivity.
Qed.

#[export] Instance Z_StrictCompare : StrictCompare Z.compare.
Proof.
  split.
  - apply Z.compare_refl.
  - apply Z.compare_eq.
  - intros a b; apply Z.compare_antisym.
  - intros a b c H1 H2. rewrite Z.compare_lt_iff in *. lia.
Qed.

#[export] Instance ascii_StrictCompare : StrictCompare Ascii.compare.
Proof.
  split.
  - intros a. unfold Ascii.compare. apply N.compare_refl.
  - intros a b. apply Ascii.compare_eq_iff.
  - intros a b. apply Ascii.compare_antisym.
  - intros a b c. unfold Ascii.compare.
    rewrite !N.compare_lt_iff. lia.
Qed.

Lemma string_compare_cons (a b : ascii) (s t : string) :
  String.compare (String a s) (String b t) =
  lex (Ascii.compare a b) (String.compare s t).
Proof. simpl. destruct (Ascii.compare a b); reflexivity. Qed.

#[export] Instance string_StrictCompare : StrictCompare String.compare.
Proof.
  split.
  - induction a as [|a s IH]; [reflexivity|].
    rewrite string_compare_cons, cmp_refl; exact IH.
  - intros a b; apply String.compare_eq_iff.
  - intros a b; apply String.compare_antisym.
  - induction a as [|a s IH]; intros [|b t] [|c u]; try discriminate;
      try reflexivity.
    rewrite !string_compare_cons.
    apply lex_trans; [exact _ | apply IH].
Qed.

#[export] Instance digits_StrictCompare : StrictCompare order_digits.
Proof.
  split.
  - induction a as [|x a IH]; simpl; [reflexivity|].
    rewrite Z.compare_refl; exact IH.
  - induction a as [|x a IH]; intros [|y b]; simpl; try discriminate;
      [reflexivity|].
    intros H; apply lex_eq in H as [Hx Hr].
    apply Z.compare_eq in Hx; f_equal; auto.
  - induction a as [|x a IH]; intros [|y b]; simpl; try reflexivity.
    rewrite <- lex_opp, <- IH, Z.compare_antisym; reflexivity.
  - induction a as [|x a IH]; intros [|y b] [|z c]; simpl; try discriminate;
      try reflexivity.
    apply lex_trans; [exact _ | apply IH].
Qed.

#[export] Instance position_StrictCompare : StrictCompare position_order.
Proof.
  unfold position_order; split.
  - intros p. rewrite !cmp_refl; reflexivity.
  - intros [P ps pc] [Q qs qc]; simpl; intros H.
    apply lex_eq in H as [HP H]; apply lex_eq in H as [Hs Hc].
    apply cmp_eq in HP, Hs, Hc; congruence.
  - intros p q.
    rewrite <- !lex_opp, <- !cmp_opp; reflexivity.
  - intros p q r.
    apply lex_trans; [exact _|].
    apply lex_trans; [exact _|].
    apply cmp_trans.
Qed.

(** ** The comparator computes the order of the design document *)

Lemma compare_digits_loop_spec (left : nat) :
  forall (index1 index2 : list Z) (i : nat),
    left = Nat.min (length (skipn i index1)) (length (skipn i index2)) ->
    compare_digits_loop left index1 index2 i =
    first_difference (skipn i index1) (skipn i index2).
Proof.
  induction left as [|left IH]; intros index1 index2 i Hleft; simpl.
  - destruct (skipn i index1), (skipn i index2); simpl in *;
      try reflexivity; lia.
  - assert (i < length index1)%nat as H1
        by (rewrite length_skipn in Hleft; lia).
    assert (i < length index2)%nat as H2
        by (rewrite (length_skipn i index2) in Hleft; lia).
    rewrite (skipn_cons_nth index1 i H1), (skipn_cons_nth index2 i H2) in *.
    cbn [first_difference].
    destruct (Z.eqb_spec (nth i index1 0) (nth i index2 0)); simpl;
      [|reflexivity].
    cbn [length] in Hleft. apply IH; lia.
Qed.

Lemma first_difference_order (a b : list Z) :
  match first_difference a b with
  | Some d => (d ?= 0) = order_digits a b /\ d <> 0
  | None =>
      order_digits a b = (length a ?= length b)%nat /\
      (length a = length b -> a = b)
  end.
Proof.
  revert b; induction a as [|x a IH]; intros [|y b]; simpl; auto;
    try (split; [reflexivity | discriminate]).
  destruct (Z.eqb_spec x y) as [->|Hne]; simpl.
  - rewrite Z.compare_refl; simpl.
    specialize (IH b). destruct (first_difference a b); [exact IH|].
    destruct IH as [IH1 IH2]; split; [exact IH1|].
    intros H; f_equal; apply IH2; lia.
  - rewrite <- Z.compare_sub.
    split; [|lia].
    destruct (x ?= y) eqn:E; try reflexivity.
    apply Z.compare_eq in E; contradiction.
Qed.

Lemma comparePositions_sign (p q : Position) :
  (comparePositions p q ?= 0) = position_order p q.
Proof.
  unfold comparePositions, position_order.
  rewrite compare_digits_loop_spec by reflexivity.
  cbn [skipn].
  pose proof (first_difference_order (Position.index p) (Position.index q))
    as H.
  destruct (first_difference (Position.index p) (Position.index q)) as [d|].
  - destruct H as [H Hd]. rewrite <- H.
    destruct (d ?= 0) eqn:E; try reflexivity.
    apply Z.compare_eq in E; contradiction.
  - destruct H as [H Hlen]. rewrite H.
    destruct (Nat.eqb_spec (length (Position.index p))
                (length (Position.index q))) as [El|Nl]; simpl.
    + rewrite El, Nat.compare_refl; simpl.
      destruct (String.eqb_spec (Position.site p) (Position.site q))
        as [Es|Ns]; simpl.
      * rewrite Es, cmp_refl; simpl. symmetry; apply Z.compare_sub.
      * unfold localeCompare.
        destruct (String.compare (Position.site p) (Position.site q)) eqn:E;
          try reflexivity.
        apply cmp_eq in E; contradiction.
    + rewrite <- Z.compare_sub, <- Nat2Z.inj_compare.
      destruct (Z.of_nat (length (Position.index p))
                ?= Z.of_nat (length (Position.index q))) eqn:E;
        try reflexivity.
      apply Z.compare_eq in E; lia.
Qed.

Lemma position_lt_order (p q : Position) :
  position_lt p q <-> position_order p q = Lt.
Proof.
  unfold position_lt. rewrite <- comparePositions_sign, Z.compare_lt_iff.
  reflexivity.
Qed.

Lemma comparePositions_zero (p q : Position) :
  comparePositions p q = 0 <-> p = q.
Proof.
  rewrite <- Z.compare_eq_iff, comparePositions_sign. split.
  - apply cmp_eq.
  - intros ->; apply cmp_refl.
Qed.

Lemma comparePositions_opp_sign (p q : Position) :
  (comparePositions q p ?= 0) = CompOpp (comparePositions p q ?= 0).
Proof. rewrite !comparePositions_sign; apply cmp_opp. Qed.

Lemma comparePositions_flip (p q : Position) :
  comparePositions q p > 0 <-> comparePositions p q < 0.
Proof.
  pose proof (comparePositions_opp_sign p q) as H.
  rewrite Z.gt_lt_iff, <- (Z.compare_gt_iff (comparePositions q p) 0), H.
  rewrite <- Z.compare_lt_iff.
  destruct (comparePositions p q ?= 0); simpl; split; congruence.
Qed.

Lemma position_lt_irrefl (p : Position) : ~ position_lt p p.
Proof. rewrite position_lt_order, cmp_refl; discriminate. Qed.

Lemma position_lt_trans (p q r : Position) :
  position_lt p q -> position_lt q r -> position_lt p r.
Proof. rewrite !position_lt_order; apply cmp_trans. Qed.

Lemma position_lt_asym (p q : Position) :
  position_lt p q -> ~ position_lt q p.
Proof.
  rewrite !position_lt_order, (cmp_opp (cmp := position_order) p q). intros ->; discriminate.
Qed.

Lemma position_lt_total (p q : Position) :
  position_lt p q \/ p = q \/ position_lt q p.
Proof.
  rewrite !position_lt_order, (cmp_opp (cmp := position_order) p q).
  destruct (position_order p q) eqn:E; simpl; auto.
  right; left; apply cmp_eq; exact E.
Qed.

Lemma position_lt_digits (p q : Position) :
  order_digits (Position.index p) (Position.index q) = Lt -> position_lt p q.
Proof.
  rewrite position_lt_order; unfold position_order; intros ->; reflexivity.
Qed.

Lemma digits_lt_of_position_lt (p q : Position) :
  position_lt p q -> Position.index p <> Position.index q ->
  order_digits (Position.index p) (Position.index q) = Lt.
Proof.
  rewrite position_lt_order; unfold position_order.
  destruct (order_digits (Position.index p) (Position.index q)) eqn:E;
    simpl; try discriminate; auto.
  apply cmp_eq in E; contradiction.
Qed.

(** ** Where the digits of a new position lie *)

Lemma cons_eq_inv {A : Type} (x y : A) (a b : list A) :
  x :: a = y :: b -> x = y /\ a = b.
Proof. intros H; injection H; auto. Qed.

Lemma midpoint_bounds (lo hi : Z) :
  (hi - lo >? 1) = true -> lo < lo + (hi - lo) / 2 < hi.
Proof.
  intros H; apply Z.gtb_lt in H.
  assert (1 <= (hi - lo) / 2) by (apply Z.div_le_lower_bound; lia).
  assert ((hi - lo) / 2 < hi - lo) by (apply Z.div_lt; lia).
  lia.
Qed.

Lemma order_digits_head_lt (x y : Z) (a b : list Z) :
  x < y -> order_digits (x :: a) (y :: b) = Lt.
Proof. intros H; simpl. rewrite (proj2 (Z.compare_lt_iff x y) H); reflexivity. Qed.

Lemma order_digits_head_eq (x : Z) (a b : list Z) :
  order_digits (x :: a) (x :: b) = order_digits a b.
Proof. simpl. rewrite Z.compare_refl; reflexivity. Qed.

Lemma digits_above_prefix_cons (next : list Z) :
  exists d rest, digits_above_prefix next = d :: rest.
Proof.
  destruct next as [|q next]; simpl; [eauto|].
  destruct (q - 0 >? 1); eauto.
Qed.

(** The new digits sort after the digits of [prev], whatever [next] is. *)
Lemma between_digits_above (prev next : list Z) :
  order_digits prev (between_digits prev next) = Lt.
Proof.
  revert next; induction prev as [|p prev IH]; intros next.
  - simpl. destruct (digits_above_prefix_cons next) as (d & rest & ->).
    reflexivity.
  - destruct next as [|q next]; cbn [between_digits].
    + destruct (BASE - p >? 1) eqn:E.
      * apply order_digits_head_lt, (midpoint_bounds p BASE E).
      * rewrite order_digits_head_eq; apply IH.
    + destruct (Z.eqb_spec p q) as [->|Hne].
      * rewrite order_digits_head_eq; apply IH.
      * destruct (q - p >? 1) eqn:E.
        -- apply order_digits_head_lt, (midpoint_bounds p q E).
        -- rewrite order_digits_head_eq; apply IH.
Qed.

Lemma headroom_cons (d : Z) (rest : list Z) :
  headroom (d :: rest) = true -> d = 0 /\ headroom rest = true \/ 0 < d.
Proof.
  simpl. destruct (Z.eqb_spec d 0) as [->|Hne]; [auto|].
  intros H; apply Z.ltb_lt in H; auto.
Qed.

Lemma digits_above_prefix_below (next : list Z) :
  headroom next = true ->
  order_digits (digits_above_prefix next) next = Lt.
Proof.
  induction next as [|q next IH]; [discriminate|].
  intros H; apply headroom_cons in H. cbn [digits_above_prefix].
  destruct (q - 0 >? 1) eqn:E.
  - apply order_digits_head_lt, (midpoint_bounds 0 q E).
  - rewrite Z.gtb_ltb in E; apply Z.ltb_ge in E.
    destruct H as [[-> H]|H].
    + rewrite order_digits_head_eq; auto.
    + apply order_digits_head_lt; lia.
Qed.

(** The new digits sort before the digits of [next] when [next] sorts after
    [prev] and leaves room above it. *)
Lemma between_digits_below (prev next : list Z) :
  order_digits prev next = Lt ->
  (forall rest, next = prev ++ rest -> headroom rest = true) ->
  order_digits (between_digits prev next) next = Lt.
Proof.
  revert next; induction prev as [|p prev IH]; intros next Hlt Hroom.
  - apply digits_above_prefix_below, Hroom; reflexivity.
  - destruct next as [|q next]; [discriminate|].
    cbn [between_digits].
    destruct (Z.eqb_spec p q) as [->|Hne].
    + rewrite order_digits_head_eq in *.
      apply IH; [exact Hlt|].
      intros rest ->; apply Hroom; reflexivity.
    + assert (p < q) as Hpq.
      { simpl in Hlt. destruct (p ?= q) eqn:E; try discriminate.
        - apply Z.compare_eq in E; contradiction.
        - apply Z.compare_lt_iff; exact E. }
      destruct (q - p >? 1) eqn:E.
      * apply order_digits_head_lt, (midpoint_bounds p q E).
      * apply order_digits_head_lt; exact Hpq.
Qed.

Lemma digits_above_prefix_headroom (next : list Z) :
  headroom (digits_above_prefix next) = true.
Proof.
  induction next as [|q next IH]; [reflexivity|].
  cbn [digits_above_prefix].
  destruct (q - 0 >? 1) eqn:E; [|exact IH].
  pose proof (midpoint_bounds 0 q E) as Hm. cbn [headroom].
  destruct (Z.eqb_spec (0 + (q - 0) / 2) 0); [lia|].
  apply Z.ltb_lt; lia.
Qed.

(** Where the new digits extend the digits of [prev], what they add has
    headroom: the new position can be the upper end of a further call. *)
Lemma between_digits_headroom (prev next rest : list Z) :
  between_digits prev next = prev ++ rest -> headroom rest = true.
Proof.
  revert next; induction prev as [|p prev IH]; intros next.
  - simpl. intros <-; apply digits_above_prefix_headroom.
  - destruct next as [|q next]; cbn [between_digits app].
    + destruct (BASE - p >? 1) eqn:E.
      * pose proof (midpoint_bounds p BASE E). intros Heq; apply cons_eq_inv in Heq as [Hd Hr]; lia.
      * intros H; apply cons_eq_inv in H as [_ H]; revert H; apply IH.
    + destruct (Z.eqb_spec p q) as [->|Hne].
      * intros H; apply cons_eq_inv in H as [_ H]; revert H; apply IH.
      * destruct (q - p >? 1) eqn:E.
        -- pose proof (midpoint_bounds p q E). intros Heq; apply cons_eq_inv in Heq as [Hd Hr]; lia.
        -- intros H; apply cons_eq_inv in H as [_ H]; revert H; apply IH.
Qed.

Lemma digits_above_prefix_no_prefix (next rest : list Z) :
  headroom next = true -> next <> digits_above_prefix next ++ rest.
Proof.
  induction next as [|q next IH]; [discriminate|].
  intros H; apply headroom_cons in H. cbn [digits_above_prefix].
  destruct (q - 0 >? 1) eqn:E.
  - pose proof (midpoint_bounds 0 q E). intros Heq; apply cons_eq_inv in Heq as [Hd Hr]; lia.
  - intros Heq; apply cons_eq_inv in Heq as [Hq Hrest].
    destruct H as [[_ H]|H]; [|lia].
    exact (IH H Hrest).
Qed.

(** The new digits are never a prefix of the digits of [next]. *)
Lemma between_digits_no_prefix (prev next rest : list Z) :
  order_digits prev next = Lt ->
  (forall rest, next = prev ++ rest -> headroom rest = true) ->
  next <> between_digits prev next ++ rest.
Proof.
  revert next; induction prev as [|p prev IH]; intros next Hlt Hroom.
  - apply digits_above_prefix_no_prefix, Hroom; reflexivity.
  - destruct next as [|q next]; [discriminate|].
    cbn [between_digits].
    destruct (Z.eqb_spec p q) as [->|Hne].
    + rewrite order_digits_head_eq in Hlt.
      intros Heq; apply cons_eq_inv in Heq as [_ Heq]; revert Heq.
      apply IH; [exact Hlt|].
      intros rest' ->; apply Hroom; reflexivity.
    + destruct (q - p >? 1) eqn:E.
      * pose proof (midpoint_bounds p q E). intros Heq; apply cons_eq_inv in Heq as [Hd Hr]; lia.
      * intros Heq; apply cons_eq_inv in Heq as [Hd _]; congruence.
Qed.

(** ** Density of the allocator *)

Lemma stamp_index (doc : DocumentCRDT) (index : list Z) :
  Position.index (fst (stamp doc index)) = index.
Proof. reflexivity. Qed.

(** One call between two positions whose digits differ and leave room: the
    new position lies strictly between them, and it can serve as either end
    of a further call. *)
Lemma between_step (doc : DocumentCRDT) (p q : Position) :
  position_lt p q -> Position.index p <> Position.index q ->
  room_between p q ->
  exists r doc',
    generatePositionBetween doc (Some p) (Some q) = Returned (r, doc') /\
    (position_lt p r /\ position_lt r q) /\
    (Position.index p <> Position.index r /\ room_between p r) /\
    (Position.index r <> Position.index q /\ room_between r q).
Proof.
  intros Hlt Hne Hroom.
  pose proof (digits_lt_of_position_lt p q Hlt Hne) as Hdigits.
  rewrite generatePositionBetween_digits.
  destruct (stamp doc (between_digits (Position.index p) (Position.index q)))
    as [r doc'] eqn:Hstamp.
  assert (Position.index r =
          between_digits (Position.index p) (Position.index q)) as Hr
      by (rewrite <- (stamp_index doc), Hstamp; reflexivity).
  pose proof (between_digits_above (Position.index p) (Position.index q))
    as Habove.
  pose proof (between_digits_below _ _ Hdigits Hroom) as Hbelow.
  rewrite <- Hr in Habove, Hbelow.
  exists r, doc'. split; [reflexivity|]. repeat split.
  - apply position_lt_digits; exact Habove.
  - apply position_lt_digits; exact Hbelow.
  - intros Heq. rewrite Heq, cmp_refl in Habove; discriminate.
  - intros rest Hrest. rewrite Hr in Hrest.
    exact (between_digits_headroom _ _ _ Hrest).
  - intros Heq. rewrite Heq, cmp_refl in Hbelow; discriminate.
  - intros rest Hrest. exfalso. rewrite Hr in Hrest.
    exact (between_digits_no_prefix _ _ rest Hdigits Hroom Hrest).
Qed.






(** ** The digits the allocator builds leave room *)

Lemma last_cons_cons (x y : Z) (l : list Z) :
  last (x :: y :: l) 0 = last (y :: l) 0.
Proof. reflexivity. Qed.

Lemma last_app_nonempty (a b : list Z) :
  b <> [] -> last (a ++ b) 0 = last b 0.
Proof.
  intros Hb. induction a as [|x a IH]; [reflexivity|].
  simpl app. destruct (a ++ b) eqn:E.
  - apply app_eq_nil in E as [_ E]; contradiction.
  - rewrite last_cons_cons; exact IH.
Qed.

Lemma minted_tail_headroom (rest : list Z) :
  rest <> [] -> minted_tail rest -> headroom rest = true.
Proof.
  intros Hne [Hall Hlast]. specialize (Hlast Hne).
  induction rest as [|d rest IH]; [contradiction|].
  inversion Hall as [|? ? Hd Hall']; subst. cbn [headroom].
  destruct (Z.eqb_spec d 0) as [->|Hd0]; [|apply Z.ltb_lt; lia].
  destruct rest as [|e rest]; [simpl in Hlast; lia|].
  apply IH; [discriminate | exact Hall' | exact Hlast].
Qed.

Lemma minted_leaves_room (p q : Position) :
  minted_digits (Position.index q) -> Position.index p <> [] ->
  Position.index p <> Position.index q -> room_between p q.
Proof.
  intros Hq Hp Hne rest Hrest.
  destruct (Position.index p) as [|d prev]; [contradiction|].
  rewrite Hrest in Hq, Hne. cbn in Hq. destruct Hq as [Hall Hlast].
  assert (rest <> []) as Hnonempty
      by (intros ->; apply Hne; rewrite app_nil_r; reflexivity).
  apply minted_tail_headroom; [exact Hnonempty|]. split.
  - apply Forall_app in Hall as [_ Hall]; exact Hall.
  - intros _. rewrite <- (last_app_nonempty prev rest Hnonempty).
    apply Hlast. intros E; apply app_eq_nil in E as [_ E]; contradiction.
Qed.

Lemma minted_tail_cons (d : Z) (rest : list Z) :
  0 <= d -> rest <> [] -> minted_tail rest -> minted_tail (d :: rest).
Proof.
  intros Hd Hne [Hall Hlast]. split.
  - constructor; assumption.
  - intros _. destruct rest as [|e rest]; [contradiction|].
    rewrite last_cons_cons. apply Hlast; discriminate.
Qed.

Lemma minted_tail_midpoint (lo hi : Z) :
  0 <= lo -> (hi - lo >? 1) = true -> minted_tail [lo + (hi - lo) / 2].
Proof.
  intros Hlo E. pose proof (midpoint_bounds lo hi E). split.
  - constructor; [lia | constructor].
  - intros _. simpl. lia.
Qed.

Lemma digits_above_prefix_minted (next : list Z) :
  digits_above_prefix next <> [] /\ minted_tail (digits_above_prefix next).
Proof.
  induction next as [|q next [IHne IH]]; cbn [digits_above_prefix].
  - split; [discriminate|]. apply minted_tail_midpoint; [lia | reflexivity].
  - destruct (q - 0 >? 1) eqn:E.
    + split; [discriminate|]. apply minted_tail_midpoint; [lia | exact E].
    + split; [discriminate|]. apply minted_tail_cons; [lia | | ]; assumption.
Qed.

(** Behind digits that are not negative the allocator appends digits that
    are not negative, the last of them positive, whatever [next] is. *)
Lemma between_digits_minted_tail (prev : list Z) :
  forall next : list Z,
    Forall (fun d => 0 <= d) prev ->
    between_digits prev next <> [] /\ minted_tail (between_digits prev next).
Proof.
  induction prev as [|p prev IH]; intros next Hprev.
  - apply digits_above_prefix_minted.
  - inversion Hprev as [|? ? Hp Hprev']; subst.
    destruct next as [|q next]; cbn [between_digits].
    + destruct (BASE - p >? 1) eqn:E.
      * split; [discriminate|]. apply minted_tail_midpoint; assumption.
      * destruct (IH [] Hprev') as [Hne Ht].
        split; [discriminate|]. apply minted_tail_cons; assumption.
    + destruct (p =? q).
      * destruct (IH next Hprev') as [Hne Ht].
        split; [discriminate|]. apply minted_tail_cons; assumption.
      * destruct (q - p >? 1) eqn:E.
        -- split; [discriminate|]. apply minted_tail_midpoint; assumption.
        -- destruct (IH next Hprev') as [Hne Ht].
           split; [discriminate|]. apply minted_tail_cons; assumption.
Qed.

Lemma between_digits_minted (prev next : list Z) :
  minted_digits prev -> minted_digits (between_digits prev next).
Proof.
  destruct prev as [|p prev]; [contradiction|].
  intros [Hall _].
  destruct next as [|q next]; cbn [between_digits].
  - destruct (BASE - p >? 1); [split; [constructor | contradiction]|].
    apply (between_digits_minted_tail prev [] Hall).
  - destruct (p =? q); [apply (between_digits_minted_tail prev next Hall)|].
    destruct (q - p >? 1); [split; [constructor | contradiction]|].
    apply (between_digits_minted_tail prev next Hall).
Qed.

(** Every position the allocator returns has minted digits when the lower
    neighbour it is given has. *)
Lemma generatePositionBetween_minted (doc doc' : DocumentCRDT)
  (prev next : option Position) (r : Position) :
  (forall p, prev = Some p -> minted_digits (Position.index p)) ->
  generatePositionBetween doc prev next = Returned (r, doc') ->
  minted_digits (Position.index r).
Proof.
  intros Hprev.
  destruct prev as [p|], next as [q|].
  - rewrite generatePositionBetween_digits. intros H; injection H as <- _.
    apply between_digits_minted, Hprev; reflexivity.
  - intros H; injection H as <- _. cbn.
    specialize (Hprev p eq_refl). unfold generatePositionAfter.
    destruct (Position.index p) as [|d rest]; [contradiction|].
    destruct Hprev as [Hall _]. cbn. split.
    + apply Forall_app; split; [exact Hall|].
      constructor; [unfold BASE; lia | constructor].
    + intros _. rewrite last_app_nonempty by discriminate.
      simpl; unfold BASE; lia.
  - unfold generatePositionBetween. cbn [generatePositionBetween_rec].
    destruct (Position.index q) as [|d rest]; cbn [generatePositionBefore];
      [discriminate|].
    destruct (d <=? BOUNDARY); intros H; injection H as <- _;
      (split; [constructor | contradiction]).
  - intros H; injection H as <- _. split; [constructor | contradiction].
Qed.

(** Between two stored positions with minted digits that differ, the
    allocator finds a position, with minted digits again. *)
Lemma minted_density (doc : DocumentCRDT) (p q : Position) :
  minted_digits (Position.index p) -> minted_digits (Position.index q) ->
  position_lt p q -> Position.index p <> Position.index q ->
  exists r doc',
    generatePositionBetween doc (Some p) (Some q) = Returned (r, doc') /\
    position_lt p r /\ position_lt r q /\ minted_digits (Position.index r).
Proof.
  intros Hp Hq Hlt Hne.
  assert (Position.index p <> []) as Hnonempty
      by (destruct (Position.index p); [contradiction | discriminate]).
  destruct (between_step doc p q Hlt Hne
              (minted_leaves_room p q Hq Hnonempty Hne))
    as (r & doc' & Hcall & [Hpr Hrq] & _).
  exists r, doc'. repeat split; try assumption.
  apply (generatePositionBetween_minted doc doc' (Some p) (Some q) r);
    [|exact Hcall].
  intros p' Hp'; injection Hp' as <-; exact Hp.
Qed.

(** ** The comparator is a strict total order *)

(** C5.  [comparePositions] computes the four-step order of the design
    document: its sign is that of [position_order], which lets the first
    differing digit over the shared length decide, sorts a strict prefix
    before the longer sequence, then compares the sites lexically and then
    the clocks numerically.  The order it induces is a strict total order:
    irreflexive, asymmetric (with signs that flip when the arguments are
    swapped, and 0 for equal positions only), transitive and total. *)
Theorem comparePositions_strict_total_order :
  (forall p q, (comparePositions p q ?= 0) = position_order p q) /\
  (forall p, ~ position_lt p p) /\
  (forall p q, position_lt p q -> ~ position_lt q p) /\
  (forall p q,
     (comparePositions q p ?= 0) = CompOpp (comparePositions p q ?= 0)) /\
  (forall p q, comparePositions p q = 0 <-> p = q) /\
  (forall p q r, position_lt p q -> position_lt q r -> position_lt p r) /\
  (forall p q, position_lt p q \/ p = q \/ position_lt q p).
Proof.
  repeat split.
  - apply comparePositions_sign.
  - apply position_lt_irrefl.
  - apply position_lt_asym.
  - apply comparePositions_opp_sign.
  - apply comparePositions_zero.
  - apply comparePositions_zero.
  - apply position_lt_trans.
  - apply position_lt_total.
Qed.

(** The order on three positions that differ in a digit, in the length, in
    the site and in the clock. *)
Lemma comparePositions_strict_total_order_witness :
  position_lt (position_of [1; 7] "A" 3) (position_of [1; 9] "A" 1) /\
  position_lt (position_of [1] "B" 3) (position_of [1; 0] "A" 1) /\
  position_lt (position_of [1] "A" 3) (position_of [1] "B" 1) /\
  position_lt (position_of [1] "A" 1) (position_of [1] "A" 3) /\
  position_lt (position_of [1; 7] "A" 3) (position_of [1; 9; 2] "A" 1).
Proof.
  destruct comparePositions_strict_total_order
    as (_ & _ & _ & _ & _ & Htrans & _).
  repeat (split; [reflexivity|]).
  apply (Htrans _ (position_of [1; 9] "A" 1)); reflexivity.
Defined.

(** ** Allocation before the first position *)

(** C6, as the class has it.  For every position [next] whose digit array is
    not empty, [generatePositionBetween(null, next)] returns a position
    strictly less than [next], stamped with the site and the next clock
    value, whose only digit is the leading digit [d] of [next] decremented:
    by 1 when [d <= BOUNDARY], by [BOUNDARY] when [d > BOUNDARY]. *)
Theorem before_is_less (doc : DocumentCRDT) (next : Position) (d : Z)
  (rest : list Z) :
  Position.index next = d :: rest ->
  exists r doc',
    generatePositionBetween doc None (Some next) = Returned (r, doc') /\
    position_lt r next /\
    Position.index r = [if d <=? BOUNDARY then d - 1 else d - BOUNDARY] /\
    Position.site r = siteId doc /\
    Position.clock r = clock doc + 1 /\
    clock doc' = clock doc + 1.
Proof.
  intros Hnext.
  unfold generatePositionBetween. cbn [generatePositionBetween_rec].
  rewrite Hnext. cbn [generatePositionBefore].
  assert (forall x, x < d ->
            position_lt (fst (stamp doc [x])) next) as Hless.
  { intros x Hx. apply position_lt_digits. rewrite Hnext.
    apply order_digits_head_lt; exact Hx. }
  unfold BOUNDARY in *.
  destruct (d <=? 10); eexists; eexists; (split; [reflexivity|]);
    (split; [apply Hless; lia|]); repeat split.
Qed.

Lemma before_is_less_witness :
  exists r doc',
    generatePositionBetween (newDocument "A") None
      (Some (position_of [32] "B" 7)) = Returned (r, doc') /\
    position_lt r (position_of [32] "B" 7) /\
    Position.index r = [22] /\
    Position.site r = "A"%string /\
    Position.clock r = 1 /\
    clock doc' = 1.
Proof.
  exact (before_is_less (newDocument "A") (position_of [32] "B" 7) 32 []
           eq_refl).
Defined.

(** C6 as stated fails at a leading digit near the minimum: before [[5]] the
    class returns [[4]], the digit less 1, and not the digit less [BOUNDARY];
    and for a position without digits the class computes with [undefined]. *)
Lemma before_near_minimum_subtracts_one :
  generatePositionBetween (newDocument "A") None
    (Some (position_of [5] "B" 1)) =
    Returned (position_of [4] "A" 1,
              {| characters := []; siteId := "A"; clock := 1 |}) /\
  [4] <> [5 - BOUNDARY] /\
  generatePositionBetween (newDocument "A") None
    (Some (position_of [32] "B" 1)) =
    Returned (position_of [22] "A" 1,
              {| characters := []; siteId := "A"; clock := 1 |}) /\
  [22] <> [32 - 1] /\
  generatePositionBetween (newDocument "A") None
    (Some (position_of [] "B" 1)) = NotANumber.
Proof. repeat split; try reflexivity; discriminate. Qed.

(** ** The map *)

Lemma map_get_set_same (m : CharacterMap) (key : string) (v : Character) :
  map_get (map_set m key v) key = Some v.
Proof.
  induction m as [|[k v'] m IH]; simpl.
  - rewrite String.eqb_refl; reflexivity.
  - destruct (String.eqb k key) eqn:E; simpl; rewrite E; auto.
Qed.

Lemma map_get_set_other (m : CharacterMap) (key key' : string)
  (v : Character) :
  key' <> key -> map_get (map_set m key v) key' = map_get m key'.
Proof.
  intros Hne. induction m as [|[k v'] m IH]; simpl.
  - destruct (String.eqb_spec key key'); [congruence | reflexivity].
  - destruct (String.eqb_spec k key) as [->|Hk]; simpl.
    + destruct (String.eqb_spec key key'); [congruence | reflexivity].
    + rewrite IH; reflexivity.
Qed.

Lemma map_set_set (m : CharacterMap) (key : string) (v v' : Character) :
  map_set (map_set m key v) key v' = map_set m key v'.
Proof.
  induction m as [|[k w] m IH]; simpl.
  - rewrite String.eqb_refl; reflexivity.
  - destruct (String.eqb k key) eqn:E; simpl; rewrite E; congruence.
Qed.

Lemma map_set_absent (m : CharacterMap) (key : string) (v : Character) :
  map_get m key = None -> map_set m key v = m ++ [(key, v)].
Proof.
  induction m as [|[k w] m IH]; simpl; [reflexivity|].
  destruct (String.eqb k key); [discriminate|].
  intros H; rewrite IH by exact H; reflexivity.
Qed.

Lemma map_keys_set_present (m : CharacterMap) (key : string) (v : Character) :
  map_get m key <> None -> map_keys (map_set m key v) = map_keys m.
Proof.
  unfold map_keys.
  induction m as [|[k w] m IH]; simpl; [congruence|].
  destruct (String.eqb k key); simpl; [reflexivity|].
  intros H; rewrite IH by exact H; reflexivity.
Qed.

Lemma map_get_none_keys (m : CharacterMap) (key : string) :
  map_get m key = None <-> ~ In key (map_keys m).
Proof.
  unfold map_keys.
  induction m as [|[k w] m IH]; simpl; [tauto|].
  destruct (String.eqb_spec k key) as [->|Hne].
  - split; [discriminate | tauto].
  - rewrite IH; tauto.
Qed.

Lemma map_get_in (m : CharacterMap) (key : string) (v : Character) :
  map_get m key = Some v -> In (key, v) m.
Proof.
  induction m as [|[k w] m IH]; simpl; [discriminate|].
  destruct (String.eqb_spec k key) as [->|Hne].
  - intros H; left; congruence.
  - intros H; right; auto.
Qed.

Lemma map_in_get (m : CharacterMap) (key : string) (v : Character) :
  map_wf m -> In (key, v) m -> map_get m key = Some v.
Proof.
  unfold map_wf, map_keys.
  induction m as [|[k w] m IH]; simpl; [tauto|].
  intros Hwf Hin. inversion Hwf as [|? ? Hnotin Hwf']; subst.
  destruct Hin as [Heq|Hin].
  - injection Heq as -> ->. rewrite String.eqb_refl; reflexivity.
  - destruct (String.eqb_spec k key) as [->|Hne]; [|auto].
    exfalso; apply Hnotin. apply (in_map fst) in Hin; exact Hin.
Qed.

(** ** Unknown ids and repeated deletion *)

(** C9.  For an id the store does not have, [delete] and [updateMetadata]
    return the store as it was; and deleting an id twice leaves the store in
    the state the first deletion left it in. *)
Theorem unknown_id_is_noop_delete_idempotent :
  (forall doc charId,
     map_get (characters doc) charId = None -> delete doc charId = doc) /\
  (forall doc charId metadata,
     map_get (characters doc) charId = None ->
     updateMetadata doc charId metadata = doc) /\
  (forall doc charId,
     delete (delete doc charId) charId = delete doc charId).
Proof.
  repeat split.
  - intros doc charId H. unfold delete; rewrite H; reflexivity.
  - intros doc charId metadata H. unfold updateMetadata; rewrite H; reflexivity.
  - intros doc charId. unfold delete at 2 3.
    destruct (map_get (characters doc) charId) as [char|] eqn:E.
    + unfold delete, with_characters; cbn [characters siteId clock].
      rewrite map_get_set_same, map_set_set. reflexivity.
    + unfold delete; rewrite E; reflexivity.
Qed.

Lemma unknown_id_is_noop_delete_idempotent_witness :
  let c := character_of "x" "h" (position_of [32] "A" 1) false false false in
  let doc := document_of [("x"%string, c)] "A" 1 in
  delete doc "y" = doc /\
  updateMetadata doc "y"
    {| PartialMetadata.bold := Some (Boolean true);
       PartialMetadata.italic := None;
       PartialMetadata.deleted := None |} = doc /\
  delete (delete doc "x") "x" = delete doc "x".
Proof.
  intros c doc.
  destruct unknown_id_is_noop_delete_idempotent as (Hdel & Hupd & Hidem).
  split; [|split].
  - apply Hdel; reflexivity.
  - apply Hupd; reflexivity.
  - apply Hidem.
Defined.

(** ** What the allocator returns *)

(** Every call of the allocator returns a position stamped with the site and
    the next clock value, unless it is asked for a position before one that
    has no digits. *)
Lemma generatePositionBetween_returns (doc : DocumentCRDT)
  (prev next : option Position) :
  (prev = None /\
   exists n, next = Some n /\ Position.index n = [] /\
             generatePositionBetween doc prev next = NotANumber) \/
  (exists position,
     generatePositionBetween doc prev next =
       Returned (position, snd (incrementClock doc)) /\
     Position.site position = siteId doc /\
     Position.clock position = clock doc + 1).
Proof.
  destruct prev as [prev|], next as [next|].
  - right. rewrite generatePositionBetween_digits.
    eexists; split; [reflexivity|]; split; reflexivity.
  - right. eexists; split; [reflexivity|]; split; reflexivity.
  - unfold generatePositionBetween. cbn [generatePositionBetween_rec].
    destruct (Position.index next) as [|d rest] eqn:E;
      cbn [generatePositionBefore].
    + left. split; [reflexivity|]. exists next; auto.
    + right. destruct (d <=? BOUNDARY);
        eexists; (split; [reflexivity|]); split; reflexivity.
  - right. eexists; split; [reflexivity|]; split; reflexivity.
Qed.


(** ** Merge, id by id *)

Lemma merge_entry_get (m : CharacterMap) (id key : string) (char : Character) :
  map_get (merge_entry m (id, char)) key =
  if String.eqb id key then merged_copy (map_get m id) (Some char)
  else map_get m key.
Proof.
  unfold merge_entry, map_has, merged_copy.
  destruct (String.eqb_spec id key) as [<-|Hne].
  - destruct (map_get m id) as [existing|] eqn:E; cbn [negb].
    + destruct (comparePositions (Character.position char)
                  (Character.position existing) >? 0).
      * apply map_get_set_same.
      * exact E.
    + apply map_get_set_same.
  - destruct (map_get m id) as [existing|] eqn:E; cbn [negb].
    + destruct (comparePositions (Character.position char)
                  (Character.position existing) >? 0); [|reflexivity].
      apply map_get_set_other; congruence.
    + apply map_get_set_other; congruence.
Qed.

Lemma merge_entry_keys (m : CharacterMap) (id : string) (char : Character) :
  map_keys (merge_entry m (id, char)) =
  if map_has m id then map_keys m else map_keys m ++ [id].
Proof.
  unfold merge_entry, map_has.
  destruct (map_get m id) as [existing|] eqn:E; cbn [negb].
  - destruct (comparePositions (Character.position char)
                (Character.position existing) >? 0); [|reflexivity].
    apply map_keys_set_present; congruence.
  - rewrite map_set_absent by exact E.
    unfold map_keys; rewrite map_app; reflexivity.
Qed.

Lemma map_get_absent_key (m : CharacterMap) (key : string) :
  ~ In key (map_keys m) -> map_get m key = None.
Proof. apply map_get_none_keys. Qed.

Lemma merge_fold_get (other : CharacterMap) :
  forall (m : CharacterMap) (key : string),
    map_wf other ->
    map_get (fold_left merge_entry other m) key =
    merged_copy (map_get m key) (map_get other key).
Proof.
  unfold map_wf, map_keys.
  induction other as [|[id char] other IH]; intros m key Hwf;
    cbn [fold_left map_get].
  - destruct (map_get m key); reflexivity.
  - cbn [map fst] in Hwf. inversion Hwf as [|? ? Hnotin Hwf']; subst.
    rewrite IH by exact Hwf'. rewrite merge_entry_get.
    destruct (String.eqb_spec id key) as [<-|Hne]; [|reflexivity].
    rewrite (map_get_absent_key other id Hnotin).
    destruct (merged_copy (map_get m id) (Some char)); reflexivity.
Qed.

Lemma map_has_keys (m : CharacterMap) (key : string) :
  map_has m key = true <-> In key (map_keys m).
Proof.
  unfold map_has. pose proof (map_get_none_keys m key) as H.
  destruct (map_get m key); split; intros Hx; try reflexivity;
    try discriminate.
  - destruct (in_dec string_dec key (map_keys m)) as [Hin|Hout]; [exact Hin|].
    apply H in Hout; discriminate.
  - exfalso. apply (proj1 H); [reflexivity | exact Hx].
Qed.

Lemma merge_fold_keys (other : CharacterMap) :
  forall m : CharacterMap,
    map_wf other ->
    map_keys (fold_left merge_entry other m) =
    map_keys m ++ filter (fun key => negb (map_has m key)) (map_keys other).
Proof.
  unfold map_wf.
  induction other as [|[id char] other IH]; intros m Hwf; cbn [fold_left].
  - simpl. rewrite app_nil_r; reflexivity.
  - unfold map_keys in Hwf; simpl in Hwf.
    inversion Hwf as [|? ? Hnotin Hwf']; subst.
    rewrite IH by exact Hwf'. rewrite merge_entry_keys.
    change (map_keys ((id, char) :: other)) with (id :: map_keys other).
    cbn [filter].
    destruct (map_has m id) eqn:Hhas; cbn [negb].
    + f_equal. apply filter_ext_in. intros key Hkey.
      unfold map_has. rewrite merge_entry_get.
      destruct (String.eqb_spec id key) as [<-|Hne]; [|reflexivity].
      unfold map_has in Hhas.
      destruct (map_get m id); [|discriminate].
      unfold merged_copy.
      destruct (comparePositions _ _ >? 0); reflexivity.
    + rewrite <- app_assoc. f_equal. cbn [app]. f_equal.
      apply filter_ext_in. intros key Hkey.
      unfold map_has. rewrite merge_entry_get.
      destruct (String.eqb_spec id key) as [<-|Hne]; [|reflexivity].
      contradiction.
Qed.

Lemma merge_fold_wf (m other : CharacterMap) :
  map_wf m -> map_wf other -> map_wf (fold_left merge_entry other m).
Proof.
  intros Hm Hother. unfold map_wf.
  rewrite merge_fold_keys by exact Hother.
  apply NoDup_app; [exact Hm | apply NoDup_filter; exact Hother |].
  intros key Hin Hfilter. apply filter_In in Hfilter as [_ Hhas].
  apply map_has_keys in Hin. rewrite Hin in Hhas; discriminate.
Qed.

(** Two maps with the same keys in the same order and the same character
    under each key are the same map. *)
Lemma map_ext (m1 : CharacterMap) :
  forall m2 : CharacterMap,
    map_wf m1 -> map_keys m1 = map_keys m2 ->
    (forall key, map_get m1 key = map_get m2 key) -> m1 = m2.
Proof.
  unfold map_wf, map_keys.
  induction m1 as [|[k v] m1 IH]; intros [|[k' w] m2] Hwf Hkeys Hget;
    try discriminate; [reflexivity|].
  simpl in Hkeys. apply cons_eq_inv in Hkeys as [<- Hkeys].
  inversion Hwf as [|? ? Hnotin Hwf']; subst.
  pose proof (Hget k) as Hk. simpl in Hk. rewrite String.eqb_refl in Hk.
  injection Hk as <-. f_equal.
  apply IH; [exact Hwf' | exact Hkeys |].
  intros key. specialize (Hget key). simpl in Hget.
  destruct (String.eqb_spec k key) as [E|Hne]; [subst key|exact Hget].
  rewrite (map_get_absent_key m1 k Hnotin).
  symmetry; apply map_get_absent_key.
  unfold map_keys; rewrite <- Hkeys; exact Hnotin.
Qed.

Lemma sorts_after_lt (b a : Character) :
  sorts_after b a = true <->
  position_lt (Character.position a) (Character.position b).
Proof.
  unfold sorts_after, position_lt. rewrite <- comparePositions_flip.
  split; intros H.
  - apply Z.gtb_lt in H; lia.
  - apply Z.gtb_lt; lia.
Qed.

Lemma sorts_after_irrefl (a : Character) : sorts_after a a = false.
Proof.
  destruct (sorts_after a a) eqn:E; [|reflexivity].
  apply sorts_after_lt in E. destruct (position_lt_irrefl _ E).
Qed.

Lemma sorts_after_trans (a b c : Character) :
  sorts_after b a = true -> sorts_after c b = true -> sorts_after c a = true.
Proof.
  rewrite !sorts_after_lt. apply position_lt_trans.
Qed.

Lemma position_not_lt_trans (p q r : Position) :
  ~ position_lt p q -> ~ position_lt q r -> ~ position_lt p r.
Proof.
  intros Hpq Hqr Hpr.
  destruct (position_lt_total p q) as [H|[->|H]]; auto.
  apply Hqr. exact (position_lt_trans _ _ _ H Hpr).
Qed.

Lemma sorts_after_not_trans (a b c : Character) :
  sorts_after b a = false -> sorts_after c b = false ->
  sorts_after c a = false.
Proof.
  intros Hba Hcb.
  destruct (sorts_after c a) eqn:Hca; [|reflexivity].
  exfalso. apply sorts_after_lt in Hca.
  apply (position_not_lt_trans _ (Character.position b) _) in Hca; auto;
    rewrite <- sorts_after_lt; congruence.
Qed.

Lemma merged_copy_some (a b : Character) :
  merged_copy (Some a) (Some b) = if sorts_after b a then Some b else Some a.
Proof. reflexivity. Qed.

Lemma merged_copy_assoc (a b c : option Character) :
  merged_copy (merged_copy a b) c = merged_copy a (merged_copy b c).
Proof.
  destruct a as [a|], b as [b|], c as [c|]; try reflexivity.
  - rewrite !merged_copy_some.
    destruct (sorts_after b a) eqn:Hba, (sorts_after c b) eqn:Hcb;
      rewrite !merged_copy_some, ?Hba, ?Hcb; try reflexivity.
    + rewrite (sorts_after_trans a b c Hba Hcb); reflexivity.
    + rewrite (sorts_after_not_trans a b c Hba Hcb); reflexivity.
  - cbn [merged_copy]. fold (sorts_after b a).
    destruct (sorts_after b a); reflexivity.
Qed.

Lemma merged_copy_idem (a : option Character) : merged_copy a a = a.
Proof.
  destruct a as [a|]; [|reflexivity].
  unfold merged_copy. fold (sorts_after a a).
  rewrite sorts_after_irrefl; reflexivity.
Qed.

(** Swapping the receiver changes what is kept under an id only for two
    copies that differ and whose positions are equal. *)
Lemma merged_copy_comm (a b : option Character) :
  (forall x y,
     a = Some x -> b = Some y ->
     Character.position x = Character.position y -> x = y) ->
  merged_copy a b = merged_copy b a.
Proof.
  destruct a as [a|], b as [b|]; try reflexivity; intros Hties.
  unfold merged_copy. fold (sorts_after b a); fold (sorts_after a b).
  destruct (sorts_after b a) eqn:Hba, (sorts_after a b) eqn:Hab;
    try reflexivity.
  - apply sorts_after_lt in Hba, Hab.
    destruct (position_lt_asym _ _ Hba Hab).
  - f_equal. apply Hties; try reflexivity.
    destruct (position_lt_total (Character.position a) (Character.position b))
      as [H|[H|H]]; [|exact H|]; apply sorts_after_lt in H; congruence.
Qed.

Lemma map_has_merge_fold (m other : CharacterMap) (key : string) :
  map_wf other ->
  map_has (fold_left merge_entry other m) key =
  map_has m key || map_has other key.
Proof.
  intros Hwf. unfold map_has. rewrite merge_fold_get by exact Hwf.
  unfold merged_copy.
  destruct (map_get m key), (map_get other key); try reflexivity.
  destruct (comparePositions _ _ >? 0); reflexivity.
Qed.

Lemma filter_twice {A : Type} (f g : A -> bool) (l : list A) :
  filter f (filter g l) = filter (fun x => g x && f x) l.
Proof.
  induction l as [|x l IH]; simpl; [reflexivity|].
  destruct (g x); simpl; [destruct (f x)|]; rewrite IH; reflexivity.
Qed.

Lemma filter_none {A : Type} (f : A -> bool) (l : list A) :
  (forall x, In x l -> f x = false) -> filter f l = [].
Proof.
  induction l as [|x l IH]; intros H; simpl; [reflexivity|].
  rewrite (H x) by (left; reflexivity).
  apply IH. intros y Hy; apply H; right; exact Hy.
Qed.

(** ** Merge as a whole *)

Lemma merge_assoc (a b c : DocumentCRDT) :
  map_wf (characters a) -> map_wf (characters b) -> map_wf (characters c) ->
  merge (merge a b) c = merge a (merge b c).
Proof.
  intros Ha Hb Hc. unfold merge, with_characters.
  cbn [characters siteId clock]. f_equal.
  pose proof (merge_fold_wf _ _ Ha Hb) as Hab.
  pose proof (merge_fold_wf _ _ Hb Hc) as Hbc.
  apply map_ext.
  - apply merge_fold_wf; assumption.
  - rewrite !merge_fold_keys by assumption.
    rewrite <- app_assoc. f_equal. rewrite filter_app. f_equal.
    rewrite filter_twice. apply filter_ext. intros key.
    rewrite map_has_merge_fold by assumption.
    destruct (map_has (characters a) key), (map_has (characters b) key);
      reflexivity.
  - intros key. rewrite !merge_fold_get by assumption.
    apply merged_copy_assoc.
Qed.

Lemma merge_idem (a : DocumentCRDT) :
  map_wf (characters a) -> merge a a = a.
Proof.
  intros Ha. destruct a as [m s c]; unfold merge, with_characters.
  cbn [characters siteId clock] in *. f_equal.
  apply map_ext.
  - apply merge_fold_wf; assumption.
  - rewrite merge_fold_keys by assumption.
    rewrite filter_none; [apply app_nil_r|].
    intros key Hkey. apply map_has_keys in Hkey. rewrite Hkey; reflexivity.
  - intros key. rewrite merge_fold_get by assumption.
    apply merged_copy_idem.
Qed.

(** ** Sorting *)

Section Sorting.
Context {A : Type}.
Variable compareFn : A -> A -> Z.

Local Abbreviation le := (not_after compareFn).

Lemma sort_insert_permutation (x : A) (l : list A) :
  Permutation (sort_insert compareFn x l) (x :: l).
Proof.
  induction l as [|y l IH]; simpl; [reflexivity|].
  destruct (compareFn x y <=? 0); [reflexivity|].
  rewrite IH. apply perm_swap.
Qed.

Lemma array_sort_permutation (l : list A) :
  Permutation (array_sort compareFn l) l.
Proof.
  induction l as [|x l IH]; simpl; [reflexivity|].
  rewrite sort_insert_permutation, IH; reflexivity.
Qed.

Lemma filter_permutation (f : A -> bool) (l l' : list A) :
  Permutation l l' -> Permutation (filter f l) (filter f l').
Proof.
  induction 1 as [|x l l' _ IH|x y l|l l' l'' _ IH1 _ IH2]; simpl.
  - reflexivity.
  - destruct (f x); [apply perm_skip|]; exact IH.
  - destruct (f x), (f y); try reflexivity. apply perm_swap.
  - rewrite IH1; exact IH2.
Qed.

Hypothesis le_total : forall a b, le a b \/ le b a.
Hypothesis le_trans : forall a b c, le a b -> le b c -> le a c.

Lemma sort_insert_sorted (x : A) (l : list A) :
  StronglySorted le l -> StronglySorted le (sort_insert compareFn x l).
Proof.
  induction 1 as [|y l Hsorted IH Hall]; simpl.
  - constructor; constructor.
  - destruct (Z.leb_spec (compareFn x y) 0) as [Hxy|Hxy].
    + constructor; [constructor; assumption|].
      constructor; [exact Hxy|].
      eapply Forall_impl; [|exact Hall].
      intros z Hz; exact (le_trans _ _ _ Hxy Hz).
    + constructor; [exact IH|].
      rewrite sort_insert_permutation. constructor; [|exact Hall].
      destruct (le_total x y) as [H|H]; [unfold not_after in H; lia | exact H].
Qed.

Lemma array_sort_sorted (l : list A) :
  StronglySorted le (array_sort compareFn l).
Proof.
  induction l as [|x l IH]; simpl; [constructor|].
  apply sort_insert_sorted; exact IH.
Qed.

(** Two sorted arrangements of the same elements are the same list when
    the elements that tie are equal. *)
Lemma sorted_permutation_unique (l1 : list A) :
  forall l2 : list A,
    StronglySorted le l1 -> StronglySorted le l2 -> Permutation l1 l2 ->
    (forall a b, In a l1 -> In b l1 -> le a b -> le b a -> a = b) ->
    l1 = l2.
Proof.
  induction l1 as [|x l1 IH]; intros l2 H1 H2 Hperm Hties.
  - apply Permutation_nil in Hperm; subst; reflexivity.
  - destruct l2 as [|y l2];
      [apply Permutation_sym, Permutation_nil in Hperm; discriminate|].
    inversion H1 as [|? ? Hs1 Hall1]; subst.
    inversion H2 as [|? ? Hs2 Hall2]; subst.
    assert (x = y) as ->.
    { assert (In y (x :: l1)) as Hy
          by (apply (Permutation_in _ (Permutation_sym Hperm)); left;
              reflexivity).
      assert (In x (y :: l2)) as Hx
          by (apply (Permutation_in _ Hperm); left; reflexivity).
      destruct Hy as [Hy|Hy]; [exact Hy|].
      destruct Hx as [Hx|Hx]; [symmetry; exact Hx|].
      apply Hties; [left; reflexivity | right; exact Hy | |].
      - exact (proj1 (Forall_forall _ _) Hall1 y Hy).
      - exact (proj1 (Forall_forall _ _) Hall2 x Hx). }
    f_equal. apply IH; try assumption.
    + exact (Permutation_cons_inv Hperm).
    + intros a b Ha Hb. apply Hties; right; assumption.
Qed.
End Sorting.

Lemma sorts_not_after_total (a b : Character) :
  sorts_not_after a b \/ sorts_not_after b a.
Proof.
  unfold sorts_not_after, not_after, compareCharacters.
  pose proof (comparePositions_flip (Character.position a)
                (Character.position b)).
  lia.
Qed.

Lemma sorts_not_after_lt (a b : Character) :
  sorts_not_after a b <->
  ~ position_lt (Character.position b) (Character.position a).
Proof.
  unfold sorts_not_after, not_after, compareCharacters, position_lt.
  pose proof (comparePositions_flip (Character.position b)
                (Character.position a)).
  lia.
Qed.

Lemma sorts_not_after_trans (a b c : Character) :
  sorts_not_after a b -> sorts_not_after b c -> sorts_not_after a c.
Proof.
  rewrite !sorts_not_after_lt. intros H1 H2.
  exact (position_not_lt_trans _ _ _ H2 H1).
Qed.

Lemma sorts_not_after_antisym (a b : Character) :
  sorts_not_after a b -> sorts_not_after b a ->
  Character.position a = Character.position b.
Proof.
  rewrite !sorts_not_after_lt. intros H1 H2.
  destruct (position_lt_total (Character.position a) (Character.position b))
    as [H|[H|H]]; [contradiction | exact H | contradiction].
Qed.

(** ** The visible text *)

Lemma getText_permutation (doc : DocumentCRDT) :
  Permutation (getText doc)
    (filter (fun char => negb (truthy (CharacterMetadata.deleted
                                         (Character.metadata char))))
       (map_values (characters doc))).
Proof. apply array_sort_permutation. Qed.

Lemma getText_in (doc : DocumentCRDT) (char : Character) :
  In char (getText doc) <->
  In char (map_values (characters doc)) /\
  truthy (CharacterMetadata.deleted (Character.metadata char)) = false.
Proof.
  split.
  - intros H. apply (Permutation_in _ (getText_permutation doc)) in H.
    apply filter_In in H as [Hin Hvis]. split; [exact Hin|].
    destruct (truthy (CharacterMetadata.deleted (Character.metadata char)));
      [discriminate | reflexivity].
  - intros [Hin Hvis].
    apply (Permutation_in _ (Permutation_sym (getText_permutation doc))).
    apply filter_In; split; [exact Hin|]. rewrite Hvis; reflexivity.
Qed.

Lemma map_permutation (m1 m2 : CharacterMap) :
  map_wf m1 -> map_wf m2 ->
  (forall key, map_get m1 key = map_get m2 key) -> Permutation m1 m2.
Proof.
  intros H1 H2 Hget.
  apply NoDup_Permutation.
  - exact (NoDup_map_inv _ _ H1).
  - exact (NoDup_map_inv _ _ H2).
  - intros [k v]; split; intros Hin.
    + apply map_get_in. rewrite <- Hget. apply map_in_get; assumption.
    + apply map_get_in. rewrite Hget. apply map_in_get; assumption.
Qed.

Lemma merged_value_origin (m other : CharacterMap) (char : Character) :
  map_wf m -> map_wf other ->
  In char (map_values (fold_left merge_entry other m)) ->
  In char (map_values m ++ map_values other).
Proof.
  intros Hm Hother Hin. unfold map_values in *.
  apply in_map_iff in Hin as ([k v] & Heq & Hin); simpl in Heq; subst v.
  apply map_in_get in Hin; [|apply merge_fold_wf; assumption].
  rewrite merge_fold_get in Hin by exact Hother.
  apply in_or_app. unfold merged_copy in Hin.
  destruct (map_get m k) as [a|] eqn:Ea, (map_get other k) as [b|] eqn:Eb;
    try discriminate.
  - destruct (comparePositions _ _ >? 0); injection Hin as <-.
    + right. apply (in_map snd _ _ (map_get_in _ _ _ Eb)).
    + left. apply (in_map snd _ _ (map_get_in _ _ _ Ea)).
  - injection Hin as <-. left. apply (in_map snd _ _ (map_get_in _ _ _ Ea)).
  - injection Hin as <-. right. apply (in_map snd _ _ (map_get_in _ _ _ Eb)).
Qed.

Lemma getText_merge_comm (a b : DocumentCRDT) :
  map_wf (characters a) -> map_wf (characters b) ->
  positions_identify a b ->
  getText (merge a b) = getText (merge b a).
Proof.
  intros Ha Hb Hties.
  pose proof (merge_fold_wf _ _ Ha Hb) as Hab.
  pose proof (merge_fold_wf _ _ Hb Ha) as Hba.
  unfold getText.
  apply (sorted_permutation_unique compareCharacters).
  - apply array_sort_sorted;
      [exact sorts_not_after_total | exact sorts_not_after_trans].
  - apply array_sort_sorted;
      [exact sorts_not_after_total | exact sorts_not_after_trans].
  - rewrite !array_sort_permutation.
    apply filter_permutation. unfold map_values. apply Permutation_map.
    apply map_permutation; try assumption.
    intros key. unfold merge, with_characters; cbn [characters].
    rewrite !merge_fold_get by assumption.
    apply merged_copy_comm. intros x y Hx Hy.
    apply Hties; apply in_or_app.
    + left. exact (in_map snd _ _ (map_get_in _ _ _ Hx)).
    + right. exact (in_map snd _ _ (map_get_in _ _ _ Hy)).
  - intros x y Hx Hy Hxy Hyx.
    apply Hties.
    + apply (proj1 (getText_in (merge a b) x)) in Hx as [Hx _].
      apply merged_value_origin in Hx; assumption.
    + apply (proj1 (getText_in (merge a b) y)) in Hy as [Hy _].
      apply merged_value_origin in Hy; assumption.
    + apply sorts_not_after_antisym; assumption.
Qed.

(** C2, as the class has it.  For stores [a], [b], [c] (each a [Map], every
    key once): merge is associative and idempotent, on the receiver's store
    itself and so on its visible document,
    [getText(merge(merge(a,b),c)) = getText(merge(a,merge(b,c)))] and
    [getText(merge(a,a)) = getText(a)]; and
    [getText(merge(a,b)) = getText(merge(b,a))] when the characters of [a]
    and [b] that share a position are one and the same character. *)
Theorem merge_laws_on_visible_text (a b c : DocumentCRDT) :
  map_wf (characters a) -> map_wf (characters b) -> map_wf (characters c) ->
  (merge (merge a b) c = merge a (merge b c) /\
   getText (merge (merge a b) c) = getText (merge a (merge b c))) /\
  (merge a a = a /\ getText (merge a a) = getText a) /\
  (positions_identify a b -> getText (merge a b) = getText (merge b a)).
Proof.
  intros Ha Hb Hc. split; [|split].
  - rewrite merge_assoc by assumption. split; reflexivity.
  - rewrite merge_idem by assumption. split; reflexivity.
  - apply getText_merge_comm; assumption.
Qed.

(** Three replicas: A typed ['h'], B typed ['x'], and C has A's ['h'] and an
    ['i'] behind it. *)
Lemma merge_laws_on_visible_text_witness :
  let h := character_of "1" "h" (position_of [32] "A" 1) false false false in
  let x := character_of "2" "x" (position_of [32] "B" 1) false false false in
  let i :=
    character_of "3" "i" (position_of [32; 32] "C" 1) false false false in
  let a := document_of [("1"%string, h)] "A" 1 in
  let b := document_of [("2"%string, x)] "B" 1 in
  let c := document_of [("1"%string, h); ("3"%string, i)] "C" 1 in
  getText (merge (merge a b) c) = [h; x; i] /\
  getText (merge a (merge b c)) = [h; x; i] /\
  getText (merge a a) = getText a /\
  getText (merge a b) = getText (merge b a).
Proof.
  intros h x i a b c.
  destruct (merge_laws_on_visible_text a b c)
    as ([_ Hassoc] & [_ Hidem] & Hcomm).
  - unfold map_wf; simpl. repeat constructor; simpl; intuition discriminate.
  - unfold map_wf; simpl. repeat constructor; simpl; intuition discriminate.
  - unfold map_wf; simpl. repeat constructor; simpl; intuition discriminate.
  - split; [reflexivity|]. split; [rewrite <- Hassoc; reflexivity|].
    split; [exact Hidem|]. apply Hcomm.
    intros u v Hu Hv Hpos. simpl in Hu, Hv.
    destruct Hu as [<-|[<-|[]]], Hv as [<-|[<-|[]]];
      try reflexivity; discriminate.
Defined.

(** C2 as stated fails for commutativity.  Two replicas hold the same
    character at the same position and one of them has deleted it: the
    receiver keeps its own copy, so the visible text depends on which
    replica receives.  Two replicas that hold different characters at one
    position (same site, same clock) show them in the receiver's order. *)
Lemma merge_not_commutative_on_tie :
  let p := position_of [32] "A" 1 in
  let kept := character_of "1" "h" p false false false in
  let gone := character_of "1" "h" p false false true in
  let a := document_of [("1"%string, kept)] "A" 1 in
  let b := document_of [("1"%string, gone)] "B" 0 in
  let u := character_of "2" "u" p false false false in
  let v := character_of "3" "v" p false false false in
  let a' := document_of [("2"%string, u)] "A" 1 in
  let b' := document_of [("3"%string, v)] "A" 1 in
  (getText (merge a b) = [kept] /\ getText (merge b a) = []) /\
  (getText (merge a' b') = [u; v] /\ getText (merge b' a') = [v; u]).
Proof. repeat split. Qed.

(** ** Tombstones *)

Lemma merge_get (this other : DocumentCRDT) (id : string) :
  map_wf (characters other) ->
  map_get (characters (merge this other)) id =
  merged_copy (map_get (characters this) id) (map_get (characters other) id).
Proof.
  intros Hwf. unfold merge, with_characters; cbn [characters].
  apply merge_fold_get; exact Hwf.
Qed.

(** C3, as the class has it.  A character whose [deleted] flag is [true]
    never appears in [getText()].  When [a] holds a deleted character whose
    id [b] holds undeleted, each merge keeps one of the two copies by
    position alone: after [a.merge(b)] the character is deleted in [a]
    exactly when the position of [b]'s copy does not compare greater than
    the position of [a]'s copy, and after [b.merge(a)] it is deleted in [b]
    exactly when the position of [a]'s copy compares greater than the
    position of [b]'s copy. *)
Theorem tombstone_hidden_merge_by_position :
  (forall doc char,
     In char (getText doc) ->
     CharacterMetadata.deleted (Character.metadata char) <> Boolean true) /\
  (forall a b id ca cb,
     map_wf (characters a) -> map_wf (characters b) ->
     map_get (characters a) id = Some ca ->
     CharacterMetadata.deleted (Character.metadata ca) = Boolean true ->
     map_get (characters b) id = Some cb ->
     CharacterMetadata.deleted (Character.metadata cb) <> Boolean true ->
     (map_get (characters (merge a b)) id =
        Some (if sorts_after cb ca then cb else ca) /\
      (deleted_in (merge a b) id <-> sorts_after cb ca = false)) /\
     (map_get (characters (merge b a)) id =
        Some (if sorts_after ca cb then ca else cb) /\
      (deleted_in (merge b a) id <-> sorts_after ca cb = true))).
Proof.
  split.
  - intros doc char H Hdel. apply getText_in in H as [_ H].
    rewrite Hdel in H; discriminate.
  - intros a b id ca cb Ha Hb Hca Hda Hcb Hdb.
    unfold deleted_in.
    rewrite (merge_get a b id Hb), (merge_get b a id Ha), Hca, Hcb.
    rewrite !merged_copy_some.
    destruct (sorts_after cb ca), (sorts_after ca cb);
      (split; (split; [reflexivity|]); split; intros H;
       try reflexivity; try discriminate;
       try (destruct H as (char & Heq & Hdel); injection Heq as <-;
            congruence);
       try (eexists; split; [reflexivity | assumption])).
Qed.

Lemma tombstone_hidden_merge_by_position_witness :
  let low := position_of [16] "A" 2 in
  let high := position_of [32] "A" 1 in
  let gone := character_of "1" "h" high false false true in
  let kept := character_of "1" "h" low false false false in
  let a := document_of [("1"%string, gone)] "A" 2 in
  let b := document_of [("1"%string, kept)] "B" 0 in
  getText a = [] /\ deleted_in (merge a b) "1" /\ deleted_in (merge b a) "1".
Proof.
  intros low high gone kept a b.
  destruct tombstone_hidden_merge_by_position as [Hhidden Hmerge].
  destruct (Hmerge a b "1"%string gone kept) as [[_ Hab] [_ Hba]].
  - unfold map_wf; simpl. repeat constructor; simpl; tauto.
  - unfold map_wf; simpl. repeat constructor; simpl; tauto.
  - reflexivity.
  - reflexivity.
  - reflexivity.
  - discriminate.
  - split; [reflexivity|]. split; [apply Hab | apply Hba]; reflexivity.
Defined.

(** C3 as stated fails for the survival of a deletion: [a] deleted a
    character that [b] holds at the same position; [b], receiving [a], keeps
    its own undeleted copy and goes on showing it. *)
Lemma deletion_lost_when_receiver_holds_copy :
  let p := position_of [32] "A" 1 in
  let gone := character_of "1" "h" p false false true in
  let kept := character_of "1" "h" p false false false in
  let a := document_of [("1"%string, gone)] "A" 1 in
  let b := document_of [("1"%string, kept)] "B" 0 in
  map_get (characters (merge b a)) "1" = Some kept /\
  getText (merge b a) = [kept] /\
  ~ deleted_in (merge b a) "1".
Proof.
  repeat split.
  intros (char & Hget & Hdel). injection Hget as <-. discriminate.
Qed.

(** C10.  Where [merge] finds an id in both stores and the two positions
    compare equal -- which they do only when digits, site and clock are
    identical -- the receiver keeps its own character and nothing of the
    other copy, its metadata included, reaches the result; so two stores
    that differ in the metadata of such a character show different texts
    depending on which of them receives. *)
Theorem merge_keeps_receiver_copy_on_equal_positions :
  (forall local remote id cl cr,
     map_wf (characters remote) ->
     map_get (characters local) id = Some cl ->
     map_get (characters remote) id = Some cr ->
     comparePositions (Character.position cr) (Character.position cl) = 0 ->
     Character.position cr = Character.position cl /\
     map_get (characters (merge local remote)) id = Some cl) /\
  (exists a b id ca cb,
     map_wf (characters a) /\ map_wf (characters b) /\
     map_get (characters a) id = Some ca /\
     map_get (characters b) id = Some cb /\
     comparePositions (Character.position cb) (Character.position ca) = 0 /\
     Character.metadata ca <> Character.metadata cb /\
     getText (merge a b) <> getText (merge b a)).
Proof.
  split.
  - intros local remote id cl cr Hwf Hl Hr Hcmp.
    split; [apply comparePositions_zero; exact Hcmp|].
    rewrite (merge_get local remote id Hwf), Hl, Hr.
    unfold merged_copy. rewrite Hcmp. reflexivity.
  - exists (document_of
              [("1"%string,
                character_of "1" "h" (position_of [32] "A" 1)
                  false false false)] "A" 1),
           (document_of
              [("1"%string,
                character_of "1" "h" (position_of [32] "A" 1)
                  true false true)] "B" 0),
           "1"%string.
    eexists; eexists.
    split; [unfold map_wf; simpl; repeat constructor; simpl; tauto|].
    split; [unfold map_wf; simpl; repeat constructor; simpl; tauto|].
    split; [reflexivity|]. split; [reflexivity|]. split; [reflexivity|].
    split; discriminate.
Qed.

Lemma merge_keeps_receiver_copy_on_equal_positions_witness :
  let p := position_of [32] "A" 1 in
  let mine := character_of "1" "h" p false false false in
  let theirs := character_of "1" "h" p true false true in
  let local := document_of [("1"%string, mine)] "A" 1 in
  let remote := document_of [("1"%string, theirs)] "B" 0 in
  map_get (characters (merge local remote)) "1" = Some mine.
Proof.
  intros p mine theirs local remote.
  destruct merge_keeps_receiver_copy_on_equal_positions as [Hkeep _].
  apply (Hkeep local remote "1"%string mine theirs); try reflexivity.
  unfold map_wf; simpl. repeat constructor; simpl; tauto.
Defined.

(** What a call of [insert] does to the map: it sets the new character under
    the id it was given. *)
Lemma insert_effect_on_map (doc : DocumentCRDT) (uuid value : string)
  (prevId nextId : option string) (metadata : PartialMetadata) :
  insert doc uuid value prevId nextId metadata = NotANumber \/
  exists char doc',
    insert doc uuid value prevId nextId metadata = Returned (char, doc') /\
    characters doc' = map_set (characters doc) uuid char.
Proof.
  unfold insert.
  destruct (generatePositionBetween_returns doc
              (resolve_neighbor doc prevId) (resolve_neighbor doc nextId))
    as [(_ & n & _ & _ & Hcall)|(position & Hcall & _)]; rewrite Hcall.
  - left; reflexivity.
  - right. eexists; eexists; split; reflexivity.
Qed.




Lemma insert_characters (doc doc' : DocumentCRDT) (uuid value : string)
  (prevId nextId : option string) (metadata : PartialMetadata)
  (char : Character) :
  insert doc uuid value prevId nextId metadata = Returned (char, doc') ->
  characters doc' = map_set (characters doc) uuid char.
Proof.
  destruct (insert_effect_on_map doc uuid value prevId nextId metadata)
    as [H|(c & d & H1 & H2)]; rewrite H || rewrite H1; [discriminate|].
  intros Heq; injection Heq as <- <-; exact H2.
Qed.




(** ** Serialization *)

Lemma all_some_numbers (l : list Z) :
  all_some (map number_of_json (map JNumber l)) = Some l.
Proof.
  induction l as [|x l IH]; simpl; [reflexivity|].
  rewrite IH; reflexivity.
Qed.

Lemma Position_of_json_of_Position (p : Position) :
  Position_of_json (json_of_Position p) = Some p.
Proof.
  destruct p as [index site clock]. cbn.
  rewrite all_some_numbers. reflexivity.
Qed.

Lemma Metadata_of_json_of_Metadata (m : CharacterMetadata) :
  Metadata_of_json (json_of_Metadata m) = Some m.
Proof. destruct m as [[|b] [|i] [|d]]; reflexivity. Qed.

Lemma Character_of_json_of_Character (c : Character) :
  Character_of_json (json_of_Character c) = Some c.
Proof.
  destruct c as [id value position metadata].
  unfold json_of_Character, Character_of_json.
  cbn [json_field String.eqb Ascii.eqb Bool.eqb Character.id Character.value
       Character.position Character.metadata].
  rewrite Position_of_json_of_Position, Metadata_of_json_of_Metadata.
  reflexivity.
Qed.

Lemma entries_of_json_of_entries (entries : list (string * Character)) :
  all_some (map entry_of_json (map json_of_entry entries)) = Some entries.
Proof.
  induction entries as [|[key char] entries IH]; [reflexivity|].
  cbn [map json_of_entry entry_of_json fst snd all_some].
  rewrite Character_of_json_of_Character. cbn [option_map all_some].
  rewrite IH. reflexivity.
Qed.

Lemma map_set_fold_fresh (entries : list (string * Character)) :
  forall m : CharacterMap,
    NoDup (map_keys m ++ map_keys entries) ->
    fold_left (fun m e => map_set m (fst e) (snd e)) entries m = m ++ entries.
Proof.
  induction entries as [|[key char] entries IH]; intros m Hwf;
    cbn [fold_left fst snd].
  - rewrite app_nil_r; reflexivity.
  - assert (map_get m key = None) as Hfresh.
    { apply map_get_absent_key. intros Hin.
      apply NoDup_remove_2 in Hwf. apply Hwf.
      apply in_or_app; left; exact Hin. }
    rewrite (map_set_absent m key char Hfresh).
    rewrite IH.
    + rewrite <- app_assoc; reflexivity.
    + unfold map_keys in *. rewrite map_app, <- app_assoc. exact Hwf.
Qed.

Lemma map_of_entries_of_map (m : CharacterMap) :
  map_wf m -> map_of_entries m = m.
Proof.
  intros Hwf. unfold map_of_entries.
  rewrite map_set_fold_fresh; [reflexivity | exact Hwf].
Qed.

Lemma fromJSON_round_trip (doc : DocumentCRDT) (site : string) :
  map_wf (characters doc) ->
  fromJSON (toJSON doc) site =
    Some {| characters := characters doc; siteId := site; clock := 0 |} /\
  getText {| characters := characters doc; siteId := site; clock := 0 |} =
    getText doc.
Proof.
  intros Hwf. split; [|reflexivity].
  unfold fromJSON, toJSON. rewrite entries_of_json_of_entries.
  cbn [option_map]. rewrite (map_of_entries_of_map _ Hwf). reflexivity.
Qed.



(** ** The stores the class builds *)

Lemma map_set_wf (m : CharacterMap) (key : string) (v : Character) :
  map_wf m -> map_wf (map_set m key v).
Proof.
  intros Hwf. unfold map_wf.
  destruct (map_get m key) eqn:E.
  - rewrite map_keys_set_present by congruence. exact Hwf.
  - rewrite map_set_absent by exact E.
    unfold map_keys; rewrite map_app. apply NoDup_app.
    + exact Hwf.
    + repeat constructor. intros [].
    + intros k Hk [<-|[]]. apply map_get_none_keys in E; contradiction.
Qed.

Lemma map_set_minted (doc : DocumentCRDT) (key : string) (v : Character) :
  minted_store doc ->
  minted_digits (Position.index (Character.position v)) ->
  minted_store (with_characters doc (map_set (characters doc) key v)).
Proof.
  intros Hstore Hv k char. cbn [with_characters characters].
  destruct (String.eqb_spec k key) as [->|Hne].
  - rewrite map_get_set_same. intros H; injection H as <-; exact Hv.
  - rewrite map_get_set_other by exact Hne. apply Hstore.
Qed.

Lemma resolve_neighbor_stored (doc : DocumentCRDT) (neighborId : option string)
  (p : Position) :
  resolve_neighbor doc neighborId = Some p ->
  exists key char,
    map_get (characters doc) key = Some char /\ Character.position char = p.
Proof.
  unfold resolve_neighbor.
  destruct neighborId as [key|]; [|discriminate].
  destruct (String.eqb key EmptyString); [discriminate|].
  destruct (map_get (characters doc) key) as [char|] eqn:E; [|discriminate].
  intros H; injection H as <-. exists key, char; auto.
Qed.

(** On a store of minted positions [insert] always returns, and the store
    stays one of minted positions. *)
Lemma insert_on_minted_store (doc : DocumentCRDT) (uuid value : string)
  (prevId nextId : option string) (metadata : PartialMetadata) :
  minted_store doc ->
  exists char doc',
    insert doc uuid value prevId nextId metadata = Returned (char, doc') /\
    minted_digits (Position.index (Character.position char)) /\
    minted_store doc'.
Proof.
  intros Hstore.
  assert (forall neighborId p,
            resolve_neighbor doc neighborId = Some p ->
            minted_digits (Position.index p)) as Hminted.
  { intros neighborId p H.
    destruct (resolve_neighbor_stored doc neighborId p H)
      as (key & char & Hget & <-).
    exact (Hstore key char Hget). }
  unfold insert.
  destruct (generatePositionBetween_returns doc
              (resolve_neighbor doc prevId) (resolve_neighbor doc nextId))
    as [(_ & n & Hnext & Hn & _)|(position & Hcall & _)].
  - apply Hminted in Hnext. rewrite Hn in Hnext. contradiction.
  - rewrite Hcall.
    assert (minted_digits (Position.index position)) as Hposition.
    { apply (generatePositionBetween_minted doc _ _ _ position
               (fun p => Hminted prevId p) Hcall). }
    eexists; eexists. split; [reflexivity|]. split; [exact Hposition|].
    intros k char. cbn [characters incrementClock snd].
    destruct (String.eqb_spec k uuid) as [->|Hne].
    + rewrite map_get_set_same. intros H; injection H as <-; exact Hposition.
    + rewrite map_get_set_other by exact Hne. apply Hstore.
Qed.

Lemma insert_wf (doc doc' : DocumentCRDT) (uuid value : string)
  (prevId nextId : option string) (metadata : PartialMetadata)
  (char : Character) :
  map_wf (characters doc) ->
  insert doc uuid value prevId nextId metadata = Returned (char, doc') ->
  map_wf (characters doc').
Proof.
  intros Hwf Hins.
  destruct (insert_effect_on_map doc uuid value prevId nextId metadata)
    as [H|(c & d & H1 & H2)]; [congruence|].
  rewrite H1 in Hins; injection Hins as <- <-.
  rewrite H2. apply map_set_wf; exact Hwf.
Qed.

Lemma merge_minted (this other : DocumentCRDT) :
  map_wf (characters this) -> map_wf (characters other) ->
  minted_store this -> minted_store other -> minted_store (merge this other).
Proof.
  intros Hthis Hother Hm1 Hm2 key char Hget.
  rewrite (merge_get this other key Hother) in Hget.
  unfold merged_copy in Hget.
  destruct (map_get (characters this) key) as [a|] eqn:Ea,
           (map_get (characters other) key) as [b|] eqn:Eb;
    try discriminate.
  - destruct (comparePositions _ _ >? 0); injection Hget as <-;
      [exact (Hm2 key b Eb) | exact (Hm1 key a Ea)].
  - injection Hget as <-. exact (Hm1 key a Ea).
  - injection Hget as <-. exact (Hm2 key b Eb).
Qed.

(** Every document the class builds is a map with each key once whose
    positions all have minted digits. *)
Lemma reachable_invariant (doc : DocumentCRDT) :
  reachable doc -> map_wf (characters doc) /\ minted_store doc.
Proof.
  induction 1 as [site
                 |doc doc' uuid value prevId nextId metadata char _ [Hwf Hm] Hins
                 |doc charId _ [Hwf Hm]
                 |doc charId metadata _ [Hwf Hm]
                 |this other _ [Hwf1 Hm1] _ [Hwf2 Hm2]
                 |doc doc' site _ [Hwf Hm] Hload].
  - split; [constructor | intros key char H; discriminate].
  - split; [exact (insert_wf _ _ _ _ _ _ _ _ Hwf Hins)|].
    destruct (insert_on_minted_store doc uuid value prevId nextId metadata Hm)
      as (c & d & Hins' & _ & Hd).
    rewrite Hins' in Hins; injection Hins as _ <-; exact Hd.
  - unfold delete.
    destruct (map_get (characters doc) charId) as [char|] eqn:E;
      [|split; assumption].
    split; [apply map_set_wf; exact Hwf|].
    apply map_set_minted; [exact Hm | exact (Hm charId char E)].
  - unfold updateMetadata.
    destruct (map_get (characters doc) charId) as [char|] eqn:E;
      [|split; assumption].
    split; [apply map_set_wf; exact Hwf|].
    apply map_set_minted; [exact Hm | exact (Hm charId char E)].
  - split; [apply merge_fold_wf; assumption | apply merge_minted; assumption].
  - destruct (fromJSON_round_trip doc site Hwf) as [Hround _].
    rewrite Hround in Hload; injection Hload as <-.
    split; [exact Hwf | exact Hm].
Qed.

(** Density in the stores the class builds: between two stored positions in
    order whose digits differ the allocator finds a position. *)
Lemma reachable_density (doc : DocumentCRDT) (key1 key2 : string)
  (c1 c2 : Character) :
  reachable doc ->
  map_get (characters doc) key1 = Some c1 ->
  map_get (characters doc) key2 = Some c2 ->
  position_lt (Character.position c1) (Character.position c2) ->
  Position.index (Character.position c1) <>
  Position.index (Character.position c2) ->
  exists r doc',
    generatePositionBetween doc (Some (Character.position c1))
      (Some (Character.position c2)) = Returned (r, doc') /\
    position_lt (Character.position c1) r /\
    position_lt r (Character.position c2) /\
    minted_digits (Position.index r).
Proof.
  intros Hreach H1 H2 Hlt Hne.
  destruct (reachable_invariant doc Hreach) as [_ Hm].
  apply minted_density; try assumption.
  - exact (Hm key1 c1 H1).
  - exact (Hm key2 c2 H2).
Qed.

(** ** Insertion *)

(** [metadata.flag || false] is a boolean: [true] where the argument has the
    field with the value [true], [false] where the field is [false],
    [undefined] or missing. *)
Lemma or_false_boolean (flag : option Flag) :
  or_false flag =
  Boolean match flag with
          | Some (Boolean b) => b
          | _ => false
          end.
Proof. destruct flag as [[|[]]|]; reflexivity. Qed.

(** C8.  In [insert(value, prevId, nextId, metadata)] an id the store does
    not have resolves to the document boundary, and an id it has to the
    position stored under it; the allocator is called on the two resolved
    positions; and unless that call is for a position before one without
    digits, [insert] returns a character that carries the id [uuidv4()]
    produced, the value, the position the allocator returned, and metadata
    whose fields are the booleans the argument gives and [false] where it
    gives none; that
    character is in the store afterwards under its id, the other ids keep
    their characters, and a fresh id makes it one new entry.  On every
    document the class has built itself [insert] returns. *)
Theorem insert_adds_character (doc : DocumentCRDT) (uuid value : string)
  (prevId nextId : option string) (metadata : PartialMetadata) :
  (resolve_neighbor doc None = None /\
   (forall key,
      map_get (characters doc) key = None ->
      resolve_neighbor doc (Some key) = None) /\
   (forall key char,
      key <> EmptyString -> map_get (characters doc) key = Some char ->
      resolve_neighbor doc (Some key) = Some (Character.position char))) /\
  ((resolve_neighbor doc prevId = None /\
    exists n, resolve_neighbor doc nextId = Some n /\ Position.index n = [] /\
              insert doc uuid value prevId nextId metadata = NotANumber) \/
   (exists char doc' position,
      generatePositionBetween doc (resolve_neighbor doc prevId)
        (resolve_neighbor doc nextId) =
        Returned (position, snd (incrementClock doc)) /\
      insert doc uuid value prevId nextId metadata = Returned (char, doc') /\
      char =
        character_of uuid value position
          match PartialMetadata.bold metadata with
          | Some (Boolean b) => b
          | _ => false
          end
          match PartialMetadata.italic metadata with
          | Some (Boolean b) => b
          | _ => false
          end
          match PartialMetadata.deleted metadata with
          | Some (Boolean b) => b
          | _ => false
          end /\
      map_get (characters doc') uuid = Some char /\
      (forall key,
         key <> uuid ->
         map_get (characters doc') key = map_get (characters doc) key) /\
      (map_get (characters doc) uuid = None ->
       characters doc' = characters doc ++ [(uuid, char)]) /\
      siteId doc' = siteId doc /\
      clock doc' = clock doc + 1)) /\
  (reachable doc ->
   exists char doc',
     insert doc uuid value prevId nextId metadata = Returned (char, doc')).
Proof.
  split; [|split].
  - split; [reflexivity|]. split.
    + intros key H. unfold resolve_neighbor. rewrite H.
      destruct (String.eqb key EmptyString); reflexivity.
    + intros key char Hkey H. unfold resolve_neighbor. rewrite H.
      destruct (String.eqb_spec key EmptyString); [contradiction|reflexivity].
  - unfold insert.
    destruct (generatePositionBetween_returns doc
                (resolve_neighbor doc prevId) (resolve_neighbor doc nextId))
      as [(Hprev & n & Hnext & Hn & Hcall)|(position & Hcall & Hsite & Hclock)].
    + left. split; [exact Hprev|]. exists n. rewrite Hcall; auto.
    + right. rewrite Hcall, !or_false_boolean.
      eexists; eexists; exists position.
      split; [reflexivity|]. split; [reflexivity|].
      split; [reflexivity|].
      cbn [with_characters characters siteId clock incrementClock snd
             Character.id].
      split; [apply map_get_set_same|].
      split; [intros key Hkey; apply map_get_set_other; exact Hkey|].
      split; [apply map_set_absent|]. split; reflexivity.
  - intros Hreach. destruct (reachable_invariant doc Hreach) as [_ Hm].
    destruct (insert_on_minted_store doc uuid value prevId nextId metadata Hm)
      as (char & doc' & Hins & _).
    exists char, doc'; exact Hins.
Qed.

(** Inserting ['i'] after the only character of a document, with a next id
    the store does not have; and a first insertion into a new document. *)
Lemma insert_adds_character_witness :
  let h := character_of "x" "h" (position_of [32] "A" 1) false false false in
  let doc := document_of [("x"%string, h)] "A" 1 in
  let i :=
    character_of "y" "i" (position_of [32; 32] "A" 2) true false false in
  let partial :=
    {| PartialMetadata.bold := Some (Boolean true);
       PartialMetadata.italic := None;
       PartialMetadata.deleted := None |} in
  resolve_neighbor doc (Some "gone"%string) = None /\
  resolve_neighbor doc (Some "x"%string) = Some (position_of [32] "A" 1) /\
  insert doc "y" "i" (Some "x"%string) (Some "gone"%string) partial =
    Returned (i, document_of [("x"%string, h); ("y"%string, i)] "A" 2) /\
  exists char doc',
    insert (newDocument "A") "x" "h" None None partial =
      Returned (char, doc').
Proof.
  intros h doc i partial.
  destruct (insert_adds_character doc "y" "i" (Some "x"%string)
              (Some "gone"%string) partial)
    as [(_ & Habsent & Hpresent) _].
  destruct (insert_adds_character (newDocument "A") "x" "h" None None partial)
    as (_ & _ & Hreturns).
  split; [apply Habsent; reflexivity|].
  split; [apply (Hpresent "x"%string h); [discriminate | reflexivity]|].
  split; [reflexivity|].
  apply Hreturns. constructor.
Defined.

(** * Further properties of the class *)

(** ** The allocator at the end of the document and in general *)

Lemma order_digits_prefix (a : list Z) (x : Z) (rest : list Z) :
  order_digits a (a ++ x :: rest) = Lt.
Proof.
  induction a as [|y a IH]; [reflexivity|].
  simpl app. rewrite order_digits_head_eq. exact IH.
Qed.

Lemma digits_above_prefix_length (next : list Z) :
  (1 <= length (digits_above_prefix next) <= length next + 1)%nat.
Proof.
  induction next as [|q next IH]; cbn [digits_above_prefix].
  - simpl; lia.
  - destruct (q - 0 >? 1); simpl in *; lia.
Qed.

Lemma between_digits_length (prev next : list Z) :
  (1 <= length (between_digits prev next)
   <= Nat.max (length prev) (length next) + 1)%nat.
Proof.
  revert next; induction prev as [|p prev IH]; intros next.
  - cbn [between_digits]. pose proof (digits_above_prefix_length next).
    simpl; lia.
  - destruct next as [|q next]; cbn [between_digits].
    + destruct (BASE - p >? 1); [simpl; lia|].
      specialize (IH []). simpl in *; lia.
    + destruct (p =? q); [specialize (IH next); simpl in *; lia|].
      destruct (q - p >? 1); [simpl; lia|].
      specialize (IH next); simpl in *; lia.
Qed.

(** X1.  [generatePositionBetween(prev, null)] always returns: the new
    position has the digits of [prev] followed by [BASE], one digit more
    than [prev], and sorts strictly after [prev]. *)
Theorem allocation_after_appends_base (doc : DocumentCRDT) (prev : Position) :
  exists r doc',
    generatePositionBetween doc (Some prev) None = Returned (r, doc') /\
    Position.index r = Position.index prev ++ [BASE] /\
    length (Position.index r) = S (length (Position.index prev)) /\
    position_lt prev r.
Proof.
  exists (fst (stamp doc (generatePositionAfter (Position.index prev)))),
         (snd (stamp doc (generatePositionAfter (Position.index prev)))).
  split; [reflexivity|].
  rewrite stamp_index. unfold generatePositionAfter.
  split; [reflexivity|]. split.
  - rewrite length_app; simpl; lia.
  - apply position_lt_digits. rewrite stamp_index.
    apply order_digits_prefix.
Qed.

(** X2.  Every call of [generatePositionBetween] that returns, whichever
    branch it takes and however deep it recurses, stamps the position with
    the document's site and with its clock plus one, and leaves the document
    with the clock advanced by exactly one and the characters untouched. *)
Theorem allocation_ticks_clock_once (doc doc' : DocumentCRDT)
  (prev next : option Position) (r : Position) :
  generatePositionBetween doc prev next = Returned (r, doc') ->
  Position.site r = siteId doc /\
  Position.clock r = clock doc + 1 /\
  doc' =
    {| characters := characters doc; siteId := siteId doc;
       clock := clock doc + 1 |}.
Proof.
  destruct (generatePositionBetween_returns doc prev next)
    as [(_ & n & _ & _ & Hcall)|(position & Hcall & Hsite & Hclock)];
    rewrite Hcall; [discriminate|].
  intros H; injection H as <- <-. auto.
Qed.

Lemma allocation_ticks_clock_once_witness :
  exists r doc',
    generatePositionBetween (document_of [] "A" 41)
      (Some (position_of [31; 31] "B" 7)) (Some (position_of [32] "C" 9)) =
      Returned (r, doc') /\
    Position.site r = "A"%string /\ Position.clock r = 42 /\
    doc' = document_of [] "A" 42.
Proof.
  eexists; eexists. split; [reflexivity|].
  exact (allocation_ticks_clock_once (document_of [] "A" 41) _
           (Some (position_of [31; 31] "B" 7)) (Some (position_of [32] "C" 9))
           _ eq_refl).
Defined.

(** X3.  Between two positions the recursion of [generatePositionBetween]
    ends: with a depth of one more than the longer digit sequence, or any
    greater depth, it returns the same position, which has at least one
    digit and at most one digit more than the longer of the two. *)
Theorem allocation_between_terminates (fuel : nat) (doc : DocumentCRDT)
  (prev next : Position) :
  (Nat.max (length (Position.index prev)) (length (Position.index next))
   < fuel)%nat ->
  exists r doc',
    generatePositionBetween_rec fuel doc (Some prev) (Some next) [] =
      Returned (r, doc') /\
    generatePositionBetween doc (Some prev) (Some next) = Returned (r, doc') /\
    (1 <= length (Position.index r)
     <= Nat.max (length (Position.index prev)) (length (Position.index next))
        + 1)%nat.
Proof.
  intros Hfuel.
  rewrite generatePositionBetween_digits.
  rewrite generatePositionBetween_rec_digits by exact Hfuel.
  eexists; eexists. split; [reflexivity|]. split; [reflexivity|].
  cbn [stamp incrementClock Position.index app].
  apply between_digits_length.
Qed.

Lemma allocation_between_terminates_witness :
  exists r doc',
    generatePositionBetween_rec 9 (newDocument "A")
      (Some (position_of [31; 31; 31] "A" 1)) (Some (position_of [32] "B" 1))
      [] = Returned (r, doc') /\
    Position.index r = [31; 31; 31; 16].
Proof.
  destruct (allocation_between_terminates 9 (newDocument "A")
              (position_of [31; 31; 31] "A" 1) (position_of [32] "B" 1))
    as (r & doc' & Hrec & Hcall & _).
  - simpl; lia.
  - exists r, doc'. split; [exact Hrec|].
    vm_compute in Hcall. injection Hcall as <- _. reflexivity.
Defined.

(** ** The documents the class builds *)

(** X4.  Every document built from new documents by [insert], [delete],
    [updateMetadata], [merge] and reloading through [toJSON] and [fromJSON]
    holds each id once, and every position in it has at least one digit, no
    negative digit after the first, and a positive last digit when it has
    two or more. *)
Theorem built_documents_are_well_formed (doc : DocumentCRDT) :
  reachable doc ->
  map_wf (characters doc) /\
  minted_store doc /\
  (forall key char,
     map_get (characters doc) key = Some char ->
     Position.index (Character.position char) <> []).
Proof.
  intros Hreach. destruct (reachable_invariant doc Hreach) as [Hwf Hm].
  split; [exact Hwf|]. split; [exact Hm|].
  intros key char Hget Hnil. specialize (Hm key char Hget).
  rewrite Hnil in Hm. exact Hm.
Qed.

Lemma two_inserts_reachable :
  let h := character_of "1" "h" (position_of [32] "A" 1) false false false in
  let i :=
    character_of "2" "i" (position_of [32; 32] "A" 2) false false false in
  reachable (document_of [("1"%string, h); ("2"%string, i)] "A" 2).
Proof.
  intros h i.
  apply (reachable_insert (document_of [("1"%string, h)] "A" 1) _
           "2" "i" (Some "1"%string) None no_metadata i);
    [|reflexivity].
  apply (reachable_insert (newDocument "A") _ "1" "h" None None no_metadata h);
    [|reflexivity].
  constructor.
Qed.

Lemma built_documents_are_well_formed_witness :
  let h := character_of "1" "h" (position_of [32] "A" 1) false false false in
  let i :=
    character_of "2" "i" (position_of [32; 32] "A" 2) false false false in
  map_wf [("1"%string, h); ("2"%string, i)].
Proof.
  intros h i.
  exact (proj1 (built_documents_are_well_formed _ two_inserts_reachable)).
Defined.

(** X5.  In a document the class has built, between any two stored positions
    that are in order and differ in their digits [generatePositionBetween]
    returns a position strictly between them, again with digits of the
    allocator's making. *)
Theorem density_in_built_documents (doc : DocumentCRDT) (key1 key2 : string)
  (c1 c2 : Character) :
  reachable doc ->
  map_get (characters doc) key1 = Some c1 ->
  map_get (characters doc) key2 = Some c2 ->
  position_lt (Character.position c1) (Character.position c2) ->
  Position.index (Character.position c1) <>
  Position.index (Character.position c2) ->
  exists r doc',
    generatePositionBetween doc (Some (Character.position c1))
      (Some (Character.position c2)) = Returned (r, doc') /\
    position_lt (Character.position c1) r /\
    position_lt r (Character.position c2) /\
    minted_digits (Position.index r).
Proof. apply reachable_density. Qed.

Lemma density_in_built_documents_witness :
  exists r doc',
    generatePositionBetween
      (document_of
         [("1"%string,
           character_of "1" "h" (position_of [32] "A" 1) false false false);
          ("2"%string,
           character_of "2" "i" (position_of [32; 32] "A" 2)
             false false false)] "A" 2)
      (Some (position_of [32] "A" 1)) (Some (position_of [32; 32] "A" 2)) =
      Returned (r, doc') /\
    position_lt (position_of [32] "A" 1) r /\
    position_lt r (position_of [32; 32] "A" 2) /\
    minted_digits (Position.index r).
Proof.
  apply (density_in_built_documents _ "1" "2"
           (character_of "1" "h" (position_of [32] "A" 1) false false false)
           (character_of "2" "i" (position_of [32; 32] "A" 2)
              false false false) two_inserts_reachable);
    try reflexivity.
  discriminate.
Defined.

(** ** The visible text is sorted *)

(** X6.  [getText()] returns exactly the characters of the store that are
    not deleted, each as often as the store holds it, and in an order in
    which no character sorts after a later one. *)
Theorem getText_sorted_visible (doc : DocumentCRDT) :
  StronglySorted sorts_not_after (getText doc) /\
  Permutation (getText doc) (filter visible (map_values (characters doc))) /\
  (forall char,
     In char (getText doc) <->
     In char (map_values (characters doc)) /\ visible char = true).
Proof.
  split; [|split].
  - apply array_sort_sorted;
      [exact sorts_not_after_total | exact sorts_not_after_trans].
  - apply getText_permutation.
  - intros char. rewrite getText_in. unfold visible.
    destruct (truthy (CharacterMetadata.deleted (Character.metadata char)));
      simpl; intuition congruence.
Qed.

(** ** Where an inserted character shows *)

Section SortingLast.
Context {A : Type}.
Variable compareFn : A -> A -> Z.

Hypothesis le_total :
  forall a b, not_after compareFn a b \/ not_after compareFn b a.
Hypothesis le_trans :
  forall a b c,
    not_after compareFn a b -> not_after compareFn b c ->
    not_after compareFn a c.

Lemma greater_trans (x y z : A) :
  compareFn y z > 0 -> compareFn z x > 0 -> compareFn y x > 0.
Proof.
  unfold not_after in *. intros Hyz Hzx.
  destruct (Z_le_gt_dec (compareFn y x) 0) as [Hyx|Hyx]; [|exact Hyx].
  destruct (le_total x z) as [Hxz|Hxz]; [|lia].
  pose proof (le_trans y x z Hyx Hxz). lia.
Qed.

Lemma sort_insert_place (x y : A) (s : list A) :
  sort_insert compareFn y (sort_place compareFn x s) =
  sort_place compareFn x (sort_insert compareFn y s).
Proof.
  induction s as [|z s IH]; cbn [sort_place sort_insert].
  - destruct (compareFn y x <=? 0); reflexivity.
  - destruct (Z.leb_spec (compareFn z x) 0) as [Hzx|Hzx];
      cbn [sort_insert].
    + destruct (Z.leb_spec (compareFn y z) 0) as [Hyz|Hyz];
        cbn [sort_place].
      * pose proof (le_trans y z x Hyz Hzx) as Hyx. unfold not_after in Hyx.
        destruct (Z.leb_spec (compareFn y x) 0); [|lia].
        destruct (Z.leb_spec (compareFn z x) 0); [reflexivity | lia].
      * destruct (Z.leb_spec (compareFn z x) 0); [|lia].
        rewrite IH; reflexivity.
    + destruct (Z.leb_spec (compareFn y z) 0) as [Hyz|Hyz];
        cbn [sort_place].
      * destruct (Z.leb_spec (compareFn y x) 0) as [Hyx|Hyx].
        -- destruct (Z.leb_spec (compareFn z x) 0); [lia | reflexivity].
        -- cbn [sort_insert].
           destruct (Z.leb_spec (compareFn y z) 0); [reflexivity | lia].
      * assert (compareFn y x > 0) as Hyx
            by (apply (greater_trans x y z); lia).
        destruct (Z.leb_spec (compareFn y x) 0); [lia|].
        cbn [sort_insert].
        destruct (Z.leb_spec (compareFn y z) 0); [lia|].
        destruct (Z.leb_spec (compareFn z x) 0); [lia | reflexivity].
Qed.

(** Sorting a list with one more element at its end. *)
Lemma array_sort_snoc (x : A) (l : list A) :
  array_sort compareFn (l ++ [x]) =
  sort_place compareFn x (array_sort compareFn l).
Proof.
  induction l as [|y l IH]; [reflexivity|].
  cbn [app array_sort]. rewrite IH. apply sort_insert_place.
Qed.

Lemma sort_place_behind (x : A) (l1 l2 : list A) :
  Forall (fun z => not_after compareFn z x) l1 ->
  sort_place compareFn x (l1 ++ l2) = l1 ++ sort_place compareFn x l2.
Proof.
  induction 1 as [|z l1 Hz _ IH]; [reflexivity|].
  cbn [app sort_place]. unfold not_after in Hz.
  destruct (Z.leb_spec (compareFn z x) 0); [|lia].
  rewrite IH; reflexivity.
Qed.

Lemma sort_place_front (x z : A) (l : list A) :
  compareFn z x > 0 -> sort_place compareFn x (z :: l) = x :: z :: l.
Proof.
  intros Hz. cbn [sort_place].
  destruct (Z.leb_spec (compareFn z x) 0); [lia | reflexivity].
Qed.
End SortingLast.

Lemma getText_of_values (doc : DocumentCRDT) :
  getText doc =
  array_sort compareCharacters (filter visible (map_values (characters doc))).
Proof. reflexivity. Qed.

Lemma getText_snoc (doc doc' : DocumentCRDT) (key : string) (char : Character) :
  characters doc' = characters doc ++ [(key, char)] ->
  getText doc' =
  if visible char then sort_place compareCharacters char (getText doc)
  else getText doc.
Proof.
  intros Hchars. rewrite !getText_of_values, Hchars.
  unfold map_values. rewrite map_app, filter_app. cbn [map snd filter].
  destruct (visible char).
  - apply array_sort_snoc;
      [exact sorts_not_after_total | exact sorts_not_after_trans].
  - rewrite app_nil_r; reflexivity.
Qed.

Lemma insert_appends_entry (doc doc' : DocumentCRDT) (uuid value : string)
  (prevId nextId : option string) (metadata : PartialMetadata)
  (char : Character) :
  insert doc uuid value prevId nextId metadata = Returned (char, doc') ->
  map_get (characters doc) uuid = None ->
  characters doc' = characters doc ++ [(uuid, char)].
Proof.
  intros Hins Hfresh.
  rewrite (insert_characters _ _ _ _ _ _ _ _ Hins).
  apply map_set_absent; exact Hfresh.
Qed.

(** X7.  After [insert] with a fresh id, [getText()] is the text of before
    with the new character put at its sorted place: behind every character
    that does not sort after it, in front of the first that does, the others
    keeping their order; a character inserted with [deleted: true] leaves
    the text as it was. *)
Theorem insert_places_character (doc doc' : DocumentCRDT)
  (uuid value : string) (prevId nextId : option string)
  (metadata : PartialMetadata) (char : Character) :
  insert doc uuid value prevId nextId metadata = Returned (char, doc') ->
  map_get (characters doc) uuid = None ->
  getText doc' =
  if visible char then sort_place compareCharacters char (getText doc)
  else getText doc.
Proof.
  intros Hins Hfresh.
  apply (getText_snoc doc doc' uuid).
  exact (insert_appends_entry _ _ _ _ _ _ _ _ Hins Hfresh).
Qed.

Lemma insert_places_character_witness :
  let a := character_of "1" "a" (position_of [16] "A" 1) false false false in
  let c := character_of "2" "c" (position_of [32] "A" 2) false false false in
  let b := character_of "3" "b" (position_of [24] "A" 3) false false false in
  let doc := document_of [("2"%string, c); ("1"%string, a)] "A" 2 in
  let doc' :=
    document_of [("2"%string, c); ("1"%string, a); ("3"%string, b)] "A" 3 in
  insert doc "3" "b" (Some "1"%string) (Some "2"%string) no_metadata =
    Returned (b, doc') /\
  getText doc' = [a; b; c].
Proof.
  intros a c b doc doc'.
  split; [reflexivity|].
  rewrite (insert_places_character doc doc' "3" "b" (Some "1"%string)
             (Some "2"%string) no_metadata b eq_refl eq_refl).
  reflexivity.
Defined.

Lemma getText_sorted_text (doc : DocumentCRDT) :
  StronglySorted sorts_not_after (getText doc) /\
  Permutation (getText doc) (filter visible (map_values (characters doc))).
Proof.
  split; [|apply getText_permutation].
  apply array_sort_sorted;
    [exact sorts_not_after_total | exact sorts_not_after_trans].
Qed.

Lemma sorted_middle {A : Type} (R : A -> A -> Prop) (l1 : list A) (x : A)
  (l2 : list A) :
  StronglySorted R (l1 ++ x :: l2) ->
  Forall (fun z => R z x) l1 /\ Forall (R x) l2.
Proof.
  induction l1 as [|y l1 IH]; cbn [app]; intros H;
    inversion H as [|? ? Hs Hall]; subst.
  - split; [constructor | exact Hall].
  - destruct (IH Hs) as [H1 H2]. split; [|exact H2].
    constructor; [|exact H1].
    apply (proj1 (Forall_forall _ _) Hall). apply in_or_app; right; left.
    reflexivity.
Qed.

Lemma resolve_neighbor_present (doc : DocumentCRDT) (key : string)
  (char : Character) :
  key <> EmptyString -> map_get (characters doc) key = Some char ->
  resolve_neighbor doc (Some key) = Some (Character.position char).
Proof.
  intros Hkey Hget. unfold resolve_neighbor. rewrite Hget.
  destruct (String.eqb_spec key EmptyString); [contradiction | reflexivity].
Qed.

(** What [insert] returns once the allocator has returned. *)
Lemma insert_after_allocation (doc docA : DocumentCRDT) (uuid value : string)
  (prevId nextId : option string) (metadata : PartialMetadata)
  (r : Position) :
  generatePositionBetween doc (resolve_neighbor doc prevId)
    (resolve_neighbor doc nextId) = Returned (r, docA) ->
  PartialMetadata.deleted metadata <> Some (Boolean true) ->
  exists char doc',
    insert doc uuid value prevId nextId metadata = Returned (char, doc') /\
    Character.position char = r /\ Character.value char = value /\
    visible char = true.
Proof.
  intros Hcall Hshown. unfold insert. rewrite Hcall.
  eexists; eexists. split; [reflexivity|]. split; [reflexivity|].
  split; [reflexivity|].
  unfold visible, or_false; cbn.
  destruct (PartialMetadata.deleted metadata) as [[|[]]|]; try reflexivity.
  exfalso; apply Hshown; reflexivity.
Qed.

Lemma sorts_not_after_below (c d : Character) :
  position_lt (Character.position c) (Character.position d) ->
  sorts_not_after c d /\ compareCharacters d c > 0.
Proof.
  intros Hlt. split.
  - apply sorts_not_after_lt. apply position_lt_asym; exact Hlt.
  - apply comparePositions_flip; exact Hlt.
Qed.

(** X8.  In a store whose positions have digits of the allocator's making,
    [insert] between two characters that stand next to each other in
    [getText()] and whose positions differ in their digits returns, and the
    new character shows between the two, the rest of the text unchanged. *)
Theorem insert_between_neighbours (doc : DocumentCRDT) (uuid value : string)
  (prevId nextId : string) (metadata : PartialMetadata)
  (cprev cnext : Character) (before behind : list Character) :
  minted_store doc ->
  getText doc = before ++ cprev :: cnext :: behind ->
  prevId <> EmptyString -> nextId <> EmptyString ->
  map_get (characters doc) prevId = Some cprev ->
  map_get (characters doc) nextId = Some cnext ->
  Position.index (Character.position cprev) <>
  Position.index (Character.position cnext) ->
  map_get (characters doc) uuid = None ->
  PartialMetadata.deleted metadata <> Some (Boolean true) ->
  exists char doc',
    insert doc uuid value (Some prevId) (Some nextId) metadata =
      Returned (char, doc') /\
    position_lt (Character.position cprev) (Character.position char) /\
    position_lt (Character.position char) (Character.position cnext) /\
    getText doc' = before ++ cprev :: char :: cnext :: behind.
Proof.
  intros Hm Htext Hp Hn Hprev Hnext Hdigits Hfresh Hshown.
  pose proof (proj1 (getText_sorted_text doc)) as Hsorted.
  rewrite Htext in Hsorted.
  destruct (sorted_middle _ _ _ _ Hsorted) as [Hbefore Hbehind].
  assert (position_lt (Character.position cprev) (Character.position cnext))
    as Hlt.
  { inversion Hbehind as [|? ? Hpn _]; subst.
    apply sorts_not_after_lt in Hpn.
    destruct (position_lt_total (Character.position cprev)
                (Character.position cnext)) as [H|[H|H]];
      [exact H | rewrite H in Hdigits; contradiction | contradiction]. }
  destruct (minted_density doc _ _ (Hm _ _ Hprev) (Hm _ _ Hnext) Hlt Hdigits)
    as (r & docA & Hcall & Hpr & Hrn & _).
  destruct (insert_after_allocation doc docA uuid value (Some prevId)
              (Some nextId) metadata r) as (char & doc' & Hins & Hpos & _ & Hvis).
  { rewrite (resolve_neighbor_present doc prevId cprev Hp Hprev),
            (resolve_neighbor_present doc nextId cnext Hn Hnext).
    exact Hcall. }
  { exact Hshown. }
  exists char, doc'. rewrite Hpos. repeat split; try assumption.
  rewrite (getText_snoc doc doc' uuid char
             (insert_appends_entry _ _ _ _ _ _ _ _ Hins Hfresh)).
  rewrite Hvis, Htext.
  rewrite <- Hpos in Hpr, Hrn.
  destruct (sorts_not_after_below _ _ Hpr) as [Hle _].
  destruct (sorts_not_after_below _ _ Hrn) as [_ Hgt].
  change (before ++ cprev :: cnext :: behind)
    with (before ++ [cprev] ++ cnext :: behind).
  rewrite app_assoc, sort_place_behind.
  - rewrite sort_place_front by exact Hgt.
    rewrite <- app_assoc; reflexivity.
  - apply Forall_app; split; [|constructor; [exact Hle | constructor]].
    eapply Forall_impl; [|exact Hbefore].
    intros z Hz. exact (sorts_not_after_trans _ _ _ Hz Hle).
Qed.

Lemma before_allocation (doc : DocumentCRDT) (next : Position) (d : Z)
  (rest : list Z) :
  Position.index next = d :: rest ->
  exists r doc',
    generatePositionBetween doc None (Some next) = Returned (r, doc') /\
    position_lt r next.
Proof.
  intros Hnext.
  unfold generatePositionBetween. cbn [generatePositionBetween_rec].
  rewrite Hnext. cbn [generatePositionBefore].
  assert (forall x, x < d -> position_lt (fst (stamp doc [x])) next) as Hless.
  { intros x Hx. apply position_lt_digits. rewrite Hnext.
    apply order_digits_head_lt; exact Hx. }
  unfold BOUNDARY.
  destruct (d <=? 10); eexists; eexists; (split; [reflexivity|]);
    apply Hless; lia.
Qed.

Lemma minted_store_of_entries (doc : DocumentCRDT) :
  Forall
    (fun entry =>
       minted_digits (Position.index (Character.position (snd entry))))
    (characters doc) ->
  minted_store doc.
Proof.
  intros Hall key char Hget. apply map_get_in in Hget.
  exact (proj1 (Forall_forall _ _) Hall (key, char) Hget).
Qed.

Lemma insert_between_neighbours_witness :
  let h := character_of "1" "h" (position_of [32] "A" 1) false false false in
  let i :=
    character_of "2" "i" (position_of [32; 32] "A" 2) false false false in
  let doc := document_of [("1"%string, h); ("2"%string, i)] "A" 2 in
  exists char doc',
    insert doc "3" "e" (Some "1"%string) (Some "2"%string) no_metadata =
      Returned (char, doc') /\
    getText doc' = [h; char; i].
Proof.
  intros h i doc.
  destruct (insert_between_neighbours doc "3" "e" "1" "2" no_metadata h i
              [] [])
    as (char & doc' & Hins & _ & _ & Htext);
    try reflexivity; try discriminate.
  - apply minted_store_of_entries. repeat constructor; cbn; try lia.
    contradiction.
  - exists char, doc'. split; [exact Hins | exact Htext].
Defined.

(** X9.  [insert] behind a stored character after which no visible
    character sorts, with no next neighbour (none given, or an id the store
    does not have), always returns; the new position is the neighbour's
    digits followed by [BASE], and the new character shows at the end of
    the text. *)
Theorem insert_at_end_appends (doc : DocumentCRDT) (uuid value : string)
  (prevId : string) (nextId : option string) (metadata : PartialMetadata)
  (cprev : Character) :
  prevId <> EmptyString ->
  map_get (characters doc) prevId = Some cprev ->
  resolve_neighbor doc nextId = None ->
  (forall c, In c (getText doc) -> sorts_not_after c cprev) ->
  map_get (characters doc) uuid = None ->
  PartialMetadata.deleted metadata <> Some (Boolean true) ->
  exists char doc',
    insert doc uuid value (Some prevId) nextId metadata =
      Returned (char, doc') /\
    Position.index (Character.position char) =
      Position.index (Character.position cprev) ++ [BASE] /\
    getText doc' = getText doc ++ [char].
Proof.
  intros Hp Hprev Hnone Hlast Hfresh Hshown.
  destruct (insert_after_allocation doc (snd (incrementClock doc)) uuid value
              (Some prevId) nextId metadata
              (fst (stamp doc (generatePositionAfter
                                 (Position.index (Character.position cprev))))))
    as (char & doc' & Hins & Hpos & _ & Hvis).
  { rewrite (resolve_neighbor_present doc prevId cprev Hp Hprev), Hnone.
    reflexivity. }
  { exact Hshown. }
  exists char, doc'. split; [exact Hins|].
  split; [rewrite Hpos; reflexivity|].
  rewrite (getText_snoc doc doc' uuid char
             (insert_appends_entry _ _ _ _ _ _ _ _ Hins Hfresh)).
  rewrite Hvis.
  rewrite <- (app_nil_r (getText doc)) at 1.
  rewrite sort_place_behind; [reflexivity|].
  apply Forall_forall. intros c Hc.
  apply (sorts_not_after_trans c cprev char); [exact (Hlast c Hc)|].
  apply sorts_not_after_below. rewrite Hpos.
  apply position_lt_digits. rewrite stamp_index.
  apply order_digits_prefix.
Qed.

Lemma insert_at_end_appends_witness :
  let h := character_of "1" "h" (position_of [32] "A" 1) false false false in
  let g := character_of "2" "g" (position_of [22] "A" 2) false false false in
  let doc := document_of [("1"%string, h); ("2"%string, g)] "A" 2 in
  exists char doc',
    insert doc "3" "i" (Some "1"%string) (Some "gone"%string) no_metadata =
      Returned (char, doc') /\
    Position.index (Character.position char) = [32; 32] /\
    getText doc' = [g; h; char].
Proof.
  intros h g doc.
  destruct (insert_at_end_appends doc "3" "i" "1" (Some "gone"%string)
              no_metadata h)
    as (char & doc' & Hins & Hidx & Htext);
    try reflexivity; try discriminate.
  - intros c Hc. cbn in Hc. destruct Hc as [<-|[<-|[]]];
      unfold sorts_not_after, not_after; vm_compute; discriminate.
  - exists char, doc'. split; [exact Hins|]. split; [exact Hidx | exact Htext].
Defined.

(** X10.  [insert] in front of a stored character with digits before which
    no visible character sorts, with no previous neighbour, returns, and the
    new character shows at the front of the text. *)
Theorem insert_at_front_prepends (doc : DocumentCRDT) (uuid value : string)
  (prevId : option string) (nextId : string) (metadata : PartialMetadata)
  (cnext : Character) :
  nextId <> EmptyString ->
  map_get (characters doc) nextId = Some cnext ->
  Position.index (Character.position cnext) <> [] ->
  resolve_neighbor doc prevId = None ->
  (forall c, In c (getText doc) -> sorts_not_after cnext c) ->
  map_get (characters doc) uuid = None ->
  PartialMetadata.deleted metadata <> Some (Boolean true) ->
  exists char doc',
    insert doc uuid value prevId (Some nextId) metadata =
      Returned (char, doc') /\
    position_lt (Character.position char) (Character.position cnext) /\
    getText doc' = char :: getText doc.
Proof.
  intros Hn Hnext Hdigits Hnone Hfirst Hfresh Hshown.
  destruct (Position.index (Character.position cnext)) as [|d rest] eqn:Hidx;
    [contradiction|].
  destruct (before_allocation doc (Character.position cnext) d rest Hidx)
    as (r & docA & Hcall & Hlt).
  destruct (insert_after_allocation doc docA uuid value prevId (Some nextId)
              metadata r) as (char & doc' & Hins & Hpos & _ & Hvis).
  { rewrite (resolve_neighbor_present doc nextId cnext Hn Hnext), Hnone.
    exact Hcall. }
  { exact Hshown. }
  exists char, doc'. rewrite Hpos. split; [exact Hins|]. split; [exact Hlt|].
  rewrite (getText_snoc doc doc' uuid char
             (insert_appends_entry _ _ _ _ _ _ _ _ Hins Hfresh)).
  rewrite Hvis.
  destruct (getText doc) as [|z l] eqn:Htext; [reflexivity|].
  apply sort_place_front.
  assert (position_lt (Character.position char) (Character.position z)) as Hz.
  { rewrite Hpos.
    destruct (position_lt_total r (Character.position z)) as [H|[H|H]];
      [exact H | |].
    - exfalso. specialize (Hfirst z (or_introl eq_refl)).
      apply sorts_not_after_lt in Hfirst. apply Hfirst.
      rewrite <- H; exact Hlt.
    - exfalso. specialize (Hfirst z (or_introl eq_refl)).
      apply sorts_not_after_lt in Hfirst. apply Hfirst.
      exact (position_lt_trans _ _ _ H Hlt). }
  apply sorts_not_after_below; exact Hz.
Qed.

Lemma insert_at_front_prepends_witness :
  let h := character_of "1" "h" (position_of [32] "A" 1) false false false in
  let doc := document_of [("1"%string, h)] "A" 1 in
  exists char doc',
    insert doc "2" "o" None (Some "1"%string) no_metadata =
      Returned (char, doc') /\
    getText doc' = [char; h].
Proof.
  intros h doc.
  destruct (insert_at_front_prepends doc "2" "o" None "1" no_metadata h)
    as (char & doc' & Hins & _ & Htext);
    try reflexivity; try discriminate.
  - intros c Hc. cbn in Hc. destruct Hc as [<-|[]].
    unfold sorts_not_after, not_after; vm_compute; discriminate.
  - exists char, doc'. split; [exact Hins | exact Htext].
Defined.

(** ** Deleting and formatting *)

Lemma map_without_absent (m : CharacterMap) (key : string) :
  ~ In key (map_keys m) -> map_without m key = m.
Proof.
  unfold map_without, map_keys.
  induction m as [|[k v] m IH]; intros Hout; [reflexivity|].
  cbn [filter fst]. simpl in Hout.
  destruct (String.eqb_spec k key) as [->|Hne]; [tauto|].
  cbn [negb]. rewrite IH by tauto. reflexivity.
Qed.

Lemma hidden_entry_filtered (m : CharacterMap) (key : string)
  (hidden : Character) :
  map_wf m -> visible hidden = false ->
  filter visible (map_values (map_set m key hidden)) =
  if map_has m key then filter visible (map_values (map_without m key))
  else filter visible (map_values m).
Proof.
  unfold map_wf, map_has. intros Hwf Hhidden.
  induction m as [|[k v] m IH]; cbn [map_set map_get].
  - cbn. rewrite Hhidden. reflexivity.
  - unfold map_keys in Hwf; cbn [map fst] in Hwf.
    inversion Hwf as [|? ? Hout Hwf']; subst.
    unfold map_without; cbn [filter fst].
    destruct (String.eqb_spec k key) as [->|Hne]; cbn [negb].
    + fold (map_without m key). rewrite (map_without_absent m key Hout).
      cbn. rewrite Hhidden. reflexivity.
    + fold (map_without m key). specialize (IH Hwf').
      unfold map_values in *. cbn [map snd filter].
      destruct (map_get m key); rewrite IH; reflexivity.
Qed.

(** X11.  In a store that holds each id once, [delete(id)] leaves
    [getText()] as the text of the store without the entry of that id: the
    deleted character is gone from the text, and every other character is
    shown at its place as before. *)
Theorem delete_hides_character (doc : DocumentCRDT) (charId : string) :
  map_wf (characters doc) ->
  getText (delete doc charId) =
  getText (with_characters doc (map_without (characters doc) charId)).
Proof.
  intros Hwf. unfold delete.
  destruct (map_get (characters doc) charId) as [char|] eqn:Hget.
  - rewrite !getText_of_values. cbn [with_characters characters].
    rewrite hidden_entry_filtered by (exact Hwf || reflexivity).
    unfold map_has. rewrite Hget. reflexivity.
  - rewrite map_without_absent by (apply map_get_none_keys; exact Hget).
    destruct doc; reflexivity.
Qed.

Lemma delete_hides_character_witness :
  let a := character_of "1" "a" (position_of [16] "A" 1) false false false in
  let b := character_of "2" "b" (position_of [24] "A" 2) true false false in
  let c := character_of "3" "c" (position_of [32] "A" 3) false false false in
  let doc :=
    document_of [("3"%string, c); ("2"%string, b); ("1"%string, a)] "A" 3 in
  getText doc = [a; b; c] /\ getText (delete doc "2") = [a; c].
Proof.
  intros a b c doc. split; [reflexivity|].
  rewrite delete_hides_character; [reflexivity|].
  unfold map_wf; simpl. repeat constructor; simpl; intuition discriminate.
Defined.

(** X12.  [delete(id)] does to the store what
    [updateMetadata(id, { deleted: true })] does, for every store and id. *)
Theorem delete_is_updateMetadata_deleted (doc : DocumentCRDT)
  (charId : string) :
  delete doc charId = updateMetadata doc charId only_deleted.
Proof.
  unfold delete, updateMetadata.
  destruct (map_get (characters doc) charId) as [char|]; reflexivity.
Qed.

Lemma spread_metadata_twice (old : CharacterMetadata)
  (first second : PartialMetadata) :
  spread_metadata (spread_metadata old first) second =
  spread_metadata old (spread_partial first second).
Proof.
  unfold spread_metadata, spread_partial; cbn.
  destruct (PartialMetadata.bold second), (PartialMetadata.italic second),
    (PartialMetadata.deleted second); reflexivity.
Qed.

(** X13.  Two calls of [updateMetadata] on one id do what one call does with
    the second argument spread over the first; in particular a call repeated
    with the same argument changes nothing more. *)
Theorem updateMetadata_twice (doc : DocumentCRDT) (charId : string)
  (first second : PartialMetadata) :
  updateMetadata (updateMetadata doc charId first) charId second =
  updateMetadata doc charId (spread_partial first second) /\
  updateMetadata (updateMetadata doc charId first) charId first =
  updateMetadata doc charId first.
Proof.
  assert (forall p q,
            updateMetadata (updateMetadata doc charId p) charId q =
            updateMetadata doc charId (spread_partial p q)) as Htwice.
  { intros p q. unfold updateMetadata at 2 3.
    destruct (map_get (characters doc) charId) as [char|] eqn:Hget.
    - unfold updateMetadata, with_characters; cbn [characters siteId clock].
      rewrite map_get_set_same, map_set_set.
      unfold with_metadata; cbn [Character.id Character.value
                                   Character.position Character.metadata].
      rewrite spread_metadata_twice. reflexivity.
    - unfold updateMetadata; rewrite Hget; reflexivity. }
  split; [apply Htwice|].
  rewrite Htwice. f_equal.
  destruct first as [[b|] [i|] [d|]]; reflexivity.
Qed.

Lemma same_but_format_refl (a : Character) : same_but_format a a.
Proof. repeat split. Qed.

Lemma same_but_format_all (l : list Character) : Forall2 same_but_format l l.
Proof. induction l; constructor; auto using same_but_format_refl. Qed.

Lemma map_set_same_but_format (m : CharacterMap) (key : string)
  (old new : Character) :
  map_get m key = Some old -> same_but_format old new ->
  Forall2 same_but_format (map_values m) (map_values (map_set m key new)).
Proof.
  intros Hget Hsame. unfold map_values.
  induction m as [|[k v] m IH]; [discriminate|].
  cbn [map_get map_set] in *.
  destruct (String.eqb k key).
  - injection Hget as ->. cbn [map snd].
    constructor; [exact Hsame | apply same_but_format_all].
  - cbn [map snd]. constructor; [apply same_but_format_refl | apply IH, Hget].
Qed.

Lemma filter_same_but_format (l l' : list Character) :
  Forall2 same_but_format l l' ->
  Forall2 same_but_format (filter visible l) (filter visible l').
Proof.
  induction 1 as [|a b l l' Hab _ IH]; [constructor|].
  cbn [filter].
  assert (visible a = visible b) as ->
      by (unfold visible; destruct Hab as (_ & _ & _ & ->); reflexivity).
  destruct (visible b); [constructor; [exact Hab | exact IH] | exact IH].
Qed.

Lemma sort_insert_same_but_format (a b : Character) (l l' : list Character) :
  same_but_format a b -> Forall2 same_but_format l l' ->
  Forall2 same_but_format (sort_insert compareCharacters a l)
    (sort_insert compareCharacters b l').
Proof.
  intros Hab. induction 1 as [|c d l l' Hcd Hll IH]; cbn [sort_insert].
  - constructor; [exact Hab | constructor].
  - assert (compareCharacters a c = compareCharacters b d) as ->.
    { unfold compareCharacters.
      destruct Hab as (_ & _ & -> & _), Hcd as (_ & _ & -> & _).
      reflexivity. }
    destruct (compareCharacters b d <=? 0).
    + constructor; [exact Hab|]. constructor; assumption.
    + constructor; [exact Hcd | exact IH].
Qed.

Lemma array_sort_same_but_format (l l' : list Character) :
  Forall2 same_but_format l l' ->
  Forall2 same_but_format (array_sort compareCharacters l)
    (array_sort compareCharacters l').
Proof.
  induction 1 as [|a b l l' Hab _ IH]; cbn [array_sort]; [constructor|].
  apply sort_insert_same_but_format; assumption.
Qed.

(** X14.  [updateMetadata] with an argument that has no [deleted] field
    changes neither which characters [getText()] shows nor their order:
    the text of before and the text of after agree, place by place, in id,
    value, position and [deleted] flag. *)
Theorem formatting_keeps_text (doc : DocumentCRDT) (charId : string)
  (partial : PartialMetadata) :
  PartialMetadata.deleted partial = None ->
  Forall2 same_but_format (getText doc)
    (getText (updateMetadata doc charId partial)) /\
  map Character.value (getText (updateMetadata doc charId partial)) =
  map Character.value (getText doc).
Proof.
  intros Hkeep.
  assert (Forall2 same_but_format (getText doc)
            (getText (updateMetadata doc charId partial))) as Hsame.
  { rewrite !getText_of_values.
    apply array_sort_same_but_format, filter_same_but_format.
    unfold updateMetadata.
    destruct (map_get (characters doc) charId) as [char|] eqn:Hget;
      [|apply same_but_format_all].
    cbn [with_characters characters].
    apply (map_set_same_but_format _ _ char); [exact Hget|].
    repeat split. cbn. rewrite Hkeep. reflexivity. }
  split; [exact Hsame|].
  induction Hsame as [|a b l l' Hab _ IH]; [reflexivity|].
  cbn [map]. destruct Hab as (_ & -> & _). rewrite IH. reflexivity.
Qed.

Lemma formatting_keeps_text_witness :
  let a := character_of "1" "a" (position_of [16] "A" 1) false false false in
  let b := character_of "2" "b" (position_of [24] "A" 2) false false false in
  let doc := document_of [("2"%string, b); ("1"%string, a)] "A" 2 in
  let partial :=
    {| PartialMetadata.bold := Some (Boolean true);
       PartialMetadata.italic := Some (Boolean true);
       PartialMetadata.deleted := None |} in
  map Character.value (getText (updateMetadata doc "1" partial)) =
  ["a"%string; "b"%string].
Proof.
  intros a b doc partial.
  rewrite (proj2 (formatting_keeps_text doc "1" partial eq_refl)).
  reflexivity.
Defined.

Lemma filter_true_all {A : Type} (l : list A) :
  filter (fun _ => true) l = l.
Proof. induction l as [|x l IH]; simpl; [|rewrite IH]; reflexivity. Qed.

(** ** More on merge *)

Lemma merged_copy_absorb (a b : option Character) :
  merged_copy (merged_copy a b) b = merged_copy a b.
Proof.
  destruct a as [a|], b as [b|]; try reflexivity.
  - rewrite merged_copy_some.
    destruct (sorts_after b a) eqn:Hba; rewrite merged_copy_some.
    + rewrite sorts_after_irrefl; reflexivity.
    + rewrite Hba; reflexivity.
  - apply merged_copy_idem.
Qed.

(** X15.  Merging the same store a second time changes nothing: for stores
    that hold each id once, [merge(merge(a, b), b)] is [merge(a, b)]. *)
Theorem merge_twice_is_merge_once (a b : DocumentCRDT) :
  map_wf (characters a) -> map_wf (characters b) ->
  merge (merge a b) b = merge a b.
Proof.
  intros Ha Hb. unfold merge, with_characters.
  cbn [characters siteId clock]. f_equal.
  pose proof (merge_fold_wf _ _ Ha Hb) as Hab.
  apply map_ext.
  - apply merge_fold_wf; assumption.
  - rewrite (merge_fold_keys (characters b)
               (fold_left merge_entry (characters b) (characters a)) Hb).
    rewrite filter_none; [apply app_nil_r|].
    intros key Hkey. rewrite map_has_merge_fold by exact Hb.
    apply map_has_keys in Hkey. rewrite Hkey, orb_true_r. reflexivity.
  - intros key. rewrite !merge_fold_get by assumption.
    apply merged_copy_absorb.
Qed.

Lemma merge_twice_is_merge_once_witness :
  let h := character_of "1" "h" (position_of [32] "A" 1) false false false in
  let x := character_of "2" "x" (position_of [32] "B" 1) false false false in
  let a := document_of [("1"%string, h)] "A" 1 in
  let b := document_of [("2"%string, x)] "B" 1 in
  merge (merge a b) b = document_of [("1"%string, h); ("2"%string, x)] "A" 1.
Proof.
  intros h x a b.
  rewrite merge_twice_is_merge_once; [reflexivity | |];
    unfold map_wf; simpl; repeat constructor; simpl; tauto.
Defined.

(** X16.  Merging an empty store changes nothing; and an empty store that
    merges a store holding each id once takes over its entries as they are,
    in their order, and keeps its own site and clock. *)
Theorem merge_with_empty (doc : DocumentCRDT) (site : string) :
  merge doc (newDocument site) = doc /\
  (map_wf (characters doc) ->
   merge (newDocument site) doc =
   {| characters := characters doc; siteId := site; clock := 0 |}).
Proof.
  split.
  - destruct doc; reflexivity.
  - intros Hwf. unfold merge, with_characters, newDocument.
    cbn [characters siteId clock]. f_equal.
    apply map_ext.
    + apply merge_fold_wf; [constructor | exact Hwf].
    + rewrite merge_fold_keys by exact Hwf. cbn [map_keys map app].
      apply filter_true_all.
    + intros key. rewrite merge_fold_get by exact Hwf. reflexivity.
Qed.

Lemma merge_with_empty_witness :
  let h := character_of "1" "h" (position_of [32] "A" 1) false false true in
  let doc := document_of [("1"%string, h)] "A" 1 in
  merge (newDocument "B") doc = document_of [("1"%string, h)] "B" 0.
Proof.
  intros h doc.
  apply (proj2 (merge_with_empty doc "B")).
  unfold map_wf; simpl. repeat constructor; simpl; tauto.
Defined.

(** X17.  [merge] keeps every id of both stores: the receiver's ids stay at
    their places and the ids only the other store has follow in that
    store's order.  The character it leaves under an id is one of the two
    copies, and its position sorts before neither copy's position. *)
Theorem merge_keeps_ids_and_greatest_position (this other : DocumentCRDT) :
  map_wf (characters other) ->
  map_keys (characters (merge this other)) =
    map_keys (characters this) ++
    filter (fun key => negb (map_has (characters this) key))
      (map_keys (characters other)) /\
  (forall id,
     map_has (characters (merge this other)) id =
     map_has (characters this) id || map_has (characters other) id) /\
  (forall id char,
     map_get (characters (merge this other)) id = Some char ->
     (map_get (characters this) id = Some char \/
      map_get (characters other) id = Some char) /\
     (forall mine,
        map_get (characters this) id = Some mine ->
        ~ position_lt (Character.position char) (Character.position mine)) /\
     (forall theirs,
        map_get (characters other) id = Some theirs ->
        ~ position_lt (Character.position char)
            (Character.position theirs))).
Proof.
  intros Hwf. unfold merge, with_characters; cbn [characters].
  split; [apply merge_fold_keys; exact Hwf|].
  split; [intros id; apply map_has_merge_fold; exact Hwf|].
  intros id char. rewrite merge_fold_get by exact Hwf.
  destruct (map_get (characters this) id) as [a|],
           (map_get (characters other) id) as [b|]; cbn [merged_copy];
    try discriminate.
  - fold (sorts_after b a). destruct (sorts_after b a) eqn:Hba;
      intros H; injection H as <-.
    + split; [right; reflexivity|]. split; intros c Hc; injection Hc as <-.
      * apply position_lt_asym. apply sorts_after_lt; exact Hba.
      * apply position_lt_irrefl.
    + split; [left; reflexivity|]. split; intros c Hc; injection Hc as <-.
      * apply position_lt_irrefl.
      * intros Hlt. apply sorts_after_lt in Hlt. congruence.
  - intros H; injection H as <-.
    split; [left; reflexivity|]. split; intros c Hc; [|discriminate].
    injection Hc as <-. apply position_lt_irrefl.
  - intros H; injection H as <-.
    split; [right; reflexivity|]. split; intros c Hc; [discriminate|].
    injection Hc as <-. apply position_lt_irrefl.
Qed.

Lemma merge_keeps_ids_and_greatest_position_witness :
  let low := character_of "1" "h" (position_of [16] "A" 1) false false false in
  let high := character_of "1" "h" (position_of [32] "B" 1) false false true in
  let x := character_of "2" "x" (position_of [8] "B" 2) false false false in
  let this := document_of [("1"%string, low)] "A" 1 in
  let other := document_of [("2"%string, x); ("1"%string, high)] "B" 2 in
  map_keys (characters (merge this other)) = ["1"%string; "2"%string] /\
  map_get (characters (merge this other)) "1" = Some high.
Proof.
  intros low high x this other.
  destruct (merge_keeps_ids_and_greatest_position this other) as [Hkeys _].
  - unfold map_wf; simpl. repeat constructor; simpl; intuition discriminate.
  - split; [rewrite Hkeys; reflexivity | reflexivity].
Defined.

(** ** Reading a store back *)

Lemma map_get_app_one (l : CharacterMap) (key k : string) (v : Character) :
  map_get (l ++ [(k, v)]) key =
  match map_get l key with
  | Some x => Some x
  | None => if String.eqb k key then Some v else None
  end.
Proof.
  induction l as [|[k' v'] l IH]; cbn [app map_get]; [reflexivity|].
  destruct (String.eqb k' key); [reflexivity | exact IH].
Qed.

Lemma map_set_fold_get (entries : list (string * Character)) :
  forall (m : CharacterMap) (key : string),
    map_get (fold_left (fun m e => map_set m (fst e) (snd e)) entries m) key =
    match map_get (rev entries) key with
    | Some v => Some v
    | None => map_get m key
    end.
Proof.
  induction entries as [|[k v] entries IH]; intros m key;
    cbn [fold_left rev fst snd]; [reflexivity|].
  rewrite IH, map_get_app_one.
  destruct (map_get (rev entries) key); [reflexivity|].
  destruct (String.eqb_spec k key) as [->|Hne].
  - apply map_get_set_same.
  - apply map_get_set_other; congruence.
Qed.

Lemma map_set_fold_wf (entries : list (string * Character)) :
  forall m : CharacterMap,
    map_wf m ->
    map_wf (fold_left (fun m e => map_set m (fst e) (snd e)) entries m).
Proof.
  induction entries as [|[k v] entries IH]; intros m Hwf; cbn [fold_left];
    [exact Hwf|].
  apply IH, map_set_wf, Hwf.
Qed.

(** X18.  Whatever entries the parsed array holds, the document [fromJSON]
    builds holds each id once, where an id occurs more than once the last of
    its entries is the one kept, and the document starts with the given
    site and clock 0. *)
Theorem fromJSON_keeps_last_entry (items : list json)
  (entries : list (string * Character)) (site : string) :
  all_some (map entry_of_json items) = Some entries ->
  exists doc,
    fromJSON (JArray items) site = Some doc /\
    map_wf (characters doc) /\
    (forall key, map_get (characters doc) key = map_get (rev entries) key) /\
    siteId doc = site /\ clock doc = 0.
Proof.
  intros Hentries. unfold fromJSON. rewrite Hentries. cbn [option_map].
  eexists. split; [reflexivity|].
  cbn [with_characters characters siteId clock newDocument].
  unfold map_of_entries. split; [apply map_set_fold_wf; constructor|].
  split; [|split; reflexivity].
  intros key. rewrite map_set_fold_get.
  destruct (map_get (rev entries) key); reflexivity.
Qed.

Lemma fromJSON_keeps_last_entry_witness :
  let old := character_of "1" "h" (position_of [32] "A" 1) false false false in
  let new := character_of "1" "h" (position_of [32] "A" 1) true false true in
  let x := character_of "2" "x" (position_of [16] "A" 2) false false false in
  exists doc,
    fromJSON
      (JArray [json_of_entry ("1"%string, old); json_of_entry ("2"%string, x);
               json_of_entry ("1"%string, new)]) "B" = Some doc /\
    map_get (characters doc) "1" = Some new /\
    map_keys (characters doc) = ["1"%string; "2"%string].
Proof.
  intros old new x.
  destruct (fromJSON_keeps_last_entry
              [json_of_entry ("1"%string, old); json_of_entry ("2"%string, x);
               json_of_entry ("1"%string, new)]
              [("1"%string, old); ("2"%string, x); ("1"%string, new)] "B"
              eq_refl) as (doc & Hload & _ & Hget & _).
  exists doc. split; [exact Hload|]. split; [rewrite Hget; reflexivity|].
  vm_compute in Hload. injection Hload as <-. reflexivity.
Defined.

(** ** Inserting without neighbours *)

Lemma same_digits_site_clock_lt (index : list Z) (site : string) (c1 c2 : Z) :
  c1 < c2 ->
  position_lt (position_of index site c1) (position_of index site c2).
Proof.
  intros Hlt. apply position_lt_order. unfold position_order; cbn.
  rewrite !cmp_refl. cbn. apply Z.compare_lt_iff; exact Hlt.
Qed.

Lemma insert_default (doc : DocumentCRDT) (uuid value : string) :
  exists char,
    insert doc uuid value None None no_metadata =
      Returned
        (char,
         {| characters := map_set (characters doc) uuid char;
            siteId := siteId doc; clock := clock doc + 1 |}) /\
    char =
      character_of uuid value (next_default_position doc) false false false.
Proof. eexists; split; reflexivity. Qed.

Lemma insert_each_appends (items : list (string * string)) :
  forall doc : DocumentCRDT,
    NoDup (map fst items) ->
    (forall uuid, In uuid (map fst items) ->
                  map_get (characters doc) uuid = None) ->
    (forall c, In c (getText doc) ->
               position_lt (Character.position c) (next_default_position doc)) ->
    exists doc',
      insert_each doc items = Returned doc' /\
      map Character.value (getText doc') =
        map Character.value (getText doc) ++ map snd items /\
      clock doc' = clock doc + Z.of_nat (length items) /\
      siteId doc' = siteId doc.
Proof.
  induction items as [|[uuid value] items IH]; intros doc Hnodup Hfresh Hbelow.
  - exists doc. cbn. rewrite app_nil_r. repeat split. lia.
  - cbn [map fst] in Hnodup. inversion Hnodup as [|? ? Hnotin Hnodup']; subst.
    destruct (insert_default doc uuid value) as (char & Hins & Hchar).
    cbn [insert_each]. rewrite Hins.
    set (doc1 := {| characters := map_set (characters doc) uuid char;
                    siteId := siteId doc; clock := clock doc + 1 |}) in *.
    assert (map_get (characters doc) uuid = None) as Huuid
        by (apply Hfresh; left; reflexivity).
    assert (getText doc1 = getText doc ++ [char]) as Htext.
    { rewrite (getText_snoc doc doc1 uuid char)
        by (apply map_set_absent; exact Huuid).
      rewrite Hchar at 1. cbn [visible character_of Character.metadata
                                CharacterMetadata.deleted negb].
      rewrite <- (app_nil_r (getText doc)) at 1.
      rewrite sort_place_behind; [reflexivity|].
      apply Forall_forall. intros c Hc.
      apply sorts_not_after_below. rewrite Hchar. exact (Hbelow c Hc). }
    destruct (IH doc1 Hnodup') as (doc' & Hrun & Hvalues & Hclock & Hsite).
    + intros u Hu. cbn [doc1 characters].
      rewrite map_get_set_other; [apply Hfresh; right; exact Hu|].
      intros ->; contradiction.
    + intros c Hc. rewrite Htext in Hc.
      assert (position_lt (next_default_position doc)
                (next_default_position doc1)) as Hnext
          by (apply same_digits_site_clock_lt; cbn; lia).
      apply in_app_or in Hc as [Hc|[<-|[]]].
      * exact (position_lt_trans _ _ _ (Hbelow c Hc) Hnext).
      * rewrite Hchar. exact Hnext.
    + exists doc'. split; [exact Hrun|].
      rewrite Hvalues, Htext, map_app, <- app_assoc, Hclock, Hsite.
      rewrite Hchar. cbn [map snd app character_of Character.value doc1
                          clock siteId length].
      repeat split. lia.
Qed.

(** X19.  Calls of [insert(value)] without neighbours and with fresh ids, on
    a new document or on any document whose visible positions sort before
    the position the next such call mints, all return, and [getText()]
    shows the values behind the text of before in the order of the calls:
    every such position is [[BASE]] at the document's site, and the clock
    alone orders them. *)
Theorem default_inserts_show_in_call_order (doc : DocumentCRDT)
  (items : list (string * string)) :
  NoDup (map fst items) ->
  (forall uuid, In uuid (map fst items) ->
                map_get (characters doc) uuid = None) ->
  (forall c, In c (getText doc) ->
             position_lt (Character.position c) (next_default_position doc)) ->
  exists doc',
    insert_each doc items = Returned doc' /\
    map Character.value (getText doc') =
      map Character.value (getText doc) ++ map snd items /\
    clock doc' = clock doc + Z.of_nat (length items).
Proof.
  intros Hnodup Hfresh Hbelow.
  destruct (insert_each_appends items doc Hnodup Hfresh Hbelow)
    as (doc' & Hrun & Hvalues & Hclock & _).
  exists doc'; auto.
Qed.

Lemma default_inserts_show_in_call_order_witness :
  exists doc',
    insert_each (newDocument "A")
      [("1"%string, "h"%string); ("2"%string, "e"%string);
       ("3"%string, "y"%string)] = Returned doc' /\
    map Character.value (getText doc') =
      ["h"%string; "e"%string; "y"%string] /\
    clock doc' = 3.
Proof.
  apply (default_inserts_show_in_call_order (newDocument "A")
           [("1"%string, "h"%string); ("2"%string, "e"%string);
            ("3"%string, "y"%string)]).
  - simpl. repeat constructor; simpl; intuition discriminate.
  - reflexivity.
  - intros c [].
Defined.

(** X20.  [fromJSON] does not bring the clock back: the document it builds
    from [toJSON] of any document starts at clock 0, so its first [insert]
    without neighbours mints [[BASE]] with clock 1 at its site, whatever the
    store holds; where the store holds a character at that very position,
    it then holds two characters whose positions compare equal. *)
Theorem reloaded_document_restarts_clock (doc : DocumentCRDT) (site : string) :
  map_wf (characters doc) ->
  exists reloaded,
    fromJSON (toJSON doc) site = Some reloaded /\
    clock reloaded = 0 /\
    forall uuid value,
    exists char doc',
      insert reloaded uuid value None None no_metadata =
        Returned (char, doc') /\
      Character.position char = position_of [BASE] site 1 /\
      map_get (characters doc') uuid = Some char /\
      forall key old,
        key <> uuid ->
        map_get (characters doc) key = Some old ->
        Character.position old = position_of [BASE] site 1 ->
        map_get (characters doc') key = Some old /\
        comparePositions (Character.position old) (Character.position char)
        = 0.
Proof.
  intros Hwf. destruct (fromJSON_round_trip doc site Hwf) as [Hround _].
  eexists. split; [exact Hround|]. split; [reflexivity|].
  intros uuid value.
  eexists; eexists. split; [reflexivity|].
  cbn [Character.position characters]. split; [reflexivity|].
  split; [apply map_get_set_same|].
  intros key old Hne Hget Hpos.
  rewrite map_get_set_other by exact Hne.
  split; [exact Hget|].
  apply comparePositions_zero. rewrite Hpos. reflexivity.
Qed.

Lemma reloaded_document_restarts_clock_witness :
  let h := character_of "1" "h" (position_of [32] "A" 1) false false false in
  let doc := document_of [("1"%string, h)] "A" 1 in
  exists reloaded char doc',
    fromJSON (toJSON doc) "A" = Some reloaded /\
    insert reloaded "2" "i" None None no_metadata = Returned (char, doc') /\
    map_get (characters doc') "1" = Some h /\
    map_get (characters doc') "2" = Some char /\
    comparePositions (Character.position h) (Character.position char) = 0.
Proof.
  intros h doc.
  destruct (reloaded_document_restarts_clock doc "A")
    as (reloaded & Hload & _ & Hinsert).
  - unfold map_wf; simpl. repeat constructor; simpl; tauto.
  - destruct (Hinsert "2"%string "i"%string)
      as (char & doc' & Hins & _ & Hnew & Hold).
    destruct (Hold "1"%string h) as [Hkept Hequal];
      [discriminate | reflexivity | reflexivity |].
    exists reloaded, char, doc'. auto.
Defined.

(** * The editing surface *)

Lemma editor_step_unselected (username room : string) (st : Editor.State)
  (ev : Editor.Event) :
  Editor.selectedId st = None ->
  Editor.selectedId (fst (Editor.step username room st ev)) = None.
Proof.
  intros Hnone. destruct ev as [e now wsOpen|style wsOpen|index|data| |];
    cbn [Editor.step fst].
  - unfold Editor.handleKeyDown.
    destruct (String.eqb (Editor.key e) "Backspace").
    { destruct (_ || _); [reflexivity | exact Hnone]. }
    destruct (String.eqb (Editor.key e) "ArrowLeft"); [exact Hnone|].
    destruct (String.eqb (Editor.key e) "ArrowRight"); [exact Hnone|].
    destruct (_ && _); exact Hnone.
  - unfold Editor.handleFormat. rewrite Hnone. exact Hnone.
  - reflexivity.
  - destruct data; exact Hnone.
  - exact Hnone.
  - exact Hnone.
Qed.

Lemma editor_run_unselected (username room : string)
  (events : list Editor.Event) :
  forall st,
    Editor.selectedId st = None ->
    Editor.selectedId (fst (Editor.run username room st events)) = None.
Proof.
  induction events as [|ev events IH]; intros st Hnone; [exact Hnone|].
  cbn [Editor.run].
  pose proof (editor_step_unselected username room st ev Hnone) as Hstep.
  destruct (Editor.step username room st ev) as [st' sent].
  specialize (IH st' Hstep).
  destruct (Editor.run username room st' events) as [final sent'].
  exact IH.
Qed.

(** X21.  No event ever selects a character: from the first render on,
    after any events whatever, [selectedId] is [null]; so [handleFormat]
    changes nothing and sends nothing, and Backspace removes by the cursor,
    never by id. *)
Theorem editor_never_selects (username room : string)
  (events : list Editor.Event) :
  let st := fst (Editor.run username room Editor.initial events) in
  Editor.selectedId st = None /\
  (forall style wsOpen,
     Editor.handleFormat room wsOpen st style = (st, [])).
Proof.
  intros st.
  assert (Editor.selectedId st = None) as Hnone
      by (apply editor_run_unselected; reflexivity).
  split; [exact Hnone|].
  intros style wsOpen. unfold Editor.handleFormat. rewrite Hnone. reflexivity.
Qed.

Lemma editor_relative_index_inside (len : nat) (i : Z) :
  0 <= i <= Z.of_nat len -> Editor.relative_index len i = Z.to_nat i.
Proof.
  intros Hi. unfold Editor.relative_index.
  destruct (Z.ltb_spec i 0); lia.
Qed.

Lemma editor_slice_front {A : Type} (l : list A) (i : Z) :
  0 <= i <= Z.of_nat (length l) ->
  Editor.slice l 0 i = firstn (Z.to_nat i) l.
Proof.
  intros Hi. unfold Editor.slice.
  rewrite (editor_relative_index_inside _ i Hi).
  rewrite (editor_relative_index_inside _ 0) by lia.
  cbn [Z.to_nat skipn]. rewrite Nat.sub_0_r. reflexivity.
Qed.

Lemma editor_slice_back {A : Type} (l : list A) (i : Z) :
  0 <= i <= Z.of_nat (length l) ->
  Editor.slice l i (Z.of_nat (length l)) = skipn (Z.to_nat i) l.
Proof.
  intros Hi. unfold Editor.slice.
  rewrite (editor_relative_index_inside _ i Hi).
  rewrite (editor_relative_index_inside _ (Z.of_nat (length l))) by lia.
  rewrite Nat2Z.id. apply firstn_all2. rewrite length_skipn. lia.
Qed.

Lemma editor_filter_index_keeps {A : Type} (l : list A) (k i : Z) :
  k < i \/ i + Z.of_nat (length l) <= k ->
  Editor.filter_index (fun _ index => negb (index =? k)) l i = l.
Proof.
  revert i; induction l as [|x l IH]; intros i Hk; [reflexivity|].
  cbn [Editor.filter_index].
  destruct (Z.eqb_spec i k) as [->|Hne]; [cbn [length] in Hk; lia|].
  cbn [negb]. rewrite IH; [reflexivity|]. cbn [length] in Hk. lia.
Qed.

Lemma editor_filter_index_drops {A : Type} (l1 : list A) (x : A)
  (l2 : list A) (k i : Z) :
  i + Z.of_nat (length l1) = k ->
  Editor.filter_index (fun _ index => negb (index =? k)) (l1 ++ x :: l2) i =
  l1 ++ l2.
Proof.
  revert i; induction l1 as [|y l1 IH]; intros i Hk;
    cbn [app Editor.filter_index].
  - cbn [length] in Hk. destruct (Z.eqb_spec i k) as [_|Hne]; [|lia].
    cbn [negb]. apply editor_filter_index_keeps. lia.
  - cbn [length] in Hk. destruct (Z.eqb_spec i k) as [->|Hne]; [lia|].
    cbn [negb]. rewrite IH; [reflexivity | lia].
Qed.

Lemma editor_single_key_is_no_command (k : string) :
  String.length k = 1%nat ->
  String.eqb k "Backspace" = false /\ String.eqb k "ArrowLeft" = false /\
  String.eqb k "ArrowRight" = false.
Proof.
  intros Hlen.
  repeat split; apply String.eqb_neq; intros ->; discriminate.
Qed.

Lemma firstn_skipn_middle {A : Type} (l : list A) (n : nat) :
  (n < length l)%nat ->
  exists x, l = firstn n l ++ x :: skipn (S n) l.
Proof.
  revert n; induction l as [|y l IH]; intros n Hn; [simpl in Hn; lia|].
  destruct n as [|n]; [exists y; reflexivity|].
  destruct (IH n) as (x & Hx); [simpl in Hn; lia|].
  exists x.
  change (firstn (S n) (y :: l)) with (y :: firstn n l).
  change (skipn (S (S n)) (y :: l)) with (skipn (S n) l).
  cbn [app]. f_equal. exact Hx.
Qed.

Lemma editor_typed_text (username room : string) (wsOpen : bool) (now : Z)
  (st : Editor.State) (k : string) :
  Editor.cursor_in_text st -> String.length k = 1%nat ->
  let at_gap :=
    if Editor.cursorPosition st =? -1
    then Z.of_nat (length (Editor.text st))
    else Editor.cursorPosition st in
  let typed :=
    {| Editor.id := now; Editor.value := k; Editor.bold := false;
       Editor.italic := false; Editor.author := username |} in
  let newText :=
    firstn (Z.to_nat at_gap) (Editor.text st) ++ typed
    :: skipn (Z.to_nat at_gap) (Editor.text st) in
  0 <= at_gap <= Z.of_nat (length (Editor.text st)) /\
  Editor.handleKeyDown username room wsOpen now st
    {| Editor.key := k; Editor.ctrlKey := false; Editor.metaKey := false |} =
  ({| Editor.text := newText; Editor.selectedId := Editor.selectedId st;
      Editor.cursorPosition := at_gap + 1;
      Editor.activeUsers := Editor.activeUsers st;
      Editor.isFocused := Editor.isFocused st |},
   Editor.broadcastChanges wsOpen room newText).
Proof.
  intros Hcursor Hlen at_gap typed newText.
  assert (0 <= at_gap <= Z.of_nat (length (Editor.text st))) as Hgap.
  { unfold at_gap. destruct Hcursor as [->|Hin]; [cbn; lia|].
    destruct (Z.eqb_spec (Editor.cursorPosition st) (-1)); lia. }
  split; [exact Hgap|].
  destruct (editor_single_key_is_no_command k Hlen) as (Hb & Hl & Hr).
  unfold Editor.handleKeyDown. cbn [Editor.key Editor.ctrlKey Editor.metaKey].
  rewrite Hb, Hl, Hr, Hlen. cbn [Nat.eqb negb andb].
  fold at_gap.
  rewrite (editor_slice_front _ at_gap Hgap),
          (editor_slice_back _ at_gap Hgap).
  reflexivity.
Qed.

(** X22.  With the cursor unset or at a gap of the text, a key of one
    character (no Ctrl, no Meta) puts the character at the cursor, or at
    the end when the cursor is unset, and moves the cursor behind it;
    Backspace pressed next removes that character again and leaves the text
    as it was, the cursor where the character went. *)
Theorem editor_type_then_backspace (username room : string)
  (open1 open2 : bool) (now now' : Z) (st : Editor.State) (k : string) :
  Editor.selectedId st = None -> Editor.cursor_in_text st ->
  String.length k = 1%nat ->
  let typed :=
    Editor.handleKeyDown username room open1 now st
      {| Editor.key := k; Editor.ctrlKey := false; Editor.metaKey := false |}
  in
  let erased :=
    Editor.handleKeyDown username room open2 now' (fst typed)
      {| Editor.key := "Backspace"; Editor.ctrlKey := false;
         Editor.metaKey := false |} in
  let at_gap :=
    if Editor.cursorPosition st =? -1
    then Z.of_nat (length (Editor.text st))
    else Editor.cursorPosition st in
  length (Editor.text (fst typed)) = S (length (Editor.text st)) /\
  nth_error (Editor.text (fst typed)) (Z.to_nat at_gap) =
    Some {| Editor.id := now; Editor.value := k; Editor.bold := false;
            Editor.italic := false; Editor.author := username |} /\
  Editor.cursorPosition (fst typed) = at_gap + 1 /\
  Editor.text (fst erased) = Editor.text st /\
  Editor.cursorPosition (fst erased) = at_gap /\
  snd erased = Editor.broadcastChanges open2 room (Editor.text st).
Proof.
  intros Hnone Hcursor Hlen typed erased at_gap.
  destruct (editor_typed_text username room open1 now st k Hcursor Hlen)
    as [Hgap Htyped].
  fold at_gap in Hgap, Htyped.
  assert (length (firstn (Z.to_nat at_gap) (Editor.text st))
          = Z.to_nat at_gap) as Hfirst by (apply firstn_length_le; lia).
  unfold erased, typed. rewrite Htyped. cbn [fst Editor.text].
  split.
  { rewrite length_app. cbn [length]. rewrite Hfirst, length_skipn. lia. }
  split.
  { rewrite nth_error_app2 by lia. rewrite Hfirst, Nat.sub_diag. reflexivity. }
  split; [reflexivity|].
  unfold Editor.handleKeyDown.
  cbn [Editor.key Editor.cursorPosition Editor.selectedId Editor.text
       String.eqb Ascii.eqb Bool.eqb andb].
  rewrite Hnone. rewrite orb_false_r.
  destruct (Z.gtb_spec (at_gap + 1) 0) as [_|Hle]; [|lia].
  replace (at_gap + 1 - 1) with at_gap by lia.
  rewrite editor_filter_index_drops by lia.
  rewrite firstn_skipn. cbn [fst snd Editor.text Editor.cursorPosition].
  repeat split. lia.
Qed.

Lemma editor_type_then_backspace_witness :
  let a :=
    {| Editor.id := 1; Editor.value := "a"; Editor.bold := false;
       Editor.italic := false; Editor.author := "u" |} in
  let c :=
    {| Editor.id := 2; Editor.value := "c"; Editor.bold := false;
       Editor.italic := false; Editor.author := "u" |} in
  let st :=
    {| Editor.text := [a; c]; Editor.selectedId := None;
       Editor.cursorPosition := 1; Editor.activeUsers := 1;
       Editor.isFocused := true |} in
  let typed :=
    Editor.handleKeyDown "u" "demo-room" true 3 st
      {| Editor.key := "b"; Editor.ctrlKey := false;
         Editor.metaKey := false |} in
  map Editor.value (Editor.text (fst typed)) =
    ["a"%string; "b"%string; "c"%string] /\
  Editor.text
    (fst (Editor.handleKeyDown "u" "demo-room" true 4 (fst typed)
            {| Editor.key := "Backspace"; Editor.ctrlKey := false;
               Editor.metaKey := false |})) = [a; c].
Proof.
  intros a c st typed.
  destruct (editor_type_then_backspace "u" "demo-room" true true 3 4 st "b")
    as (_ & _ & _ & Htext & _); try reflexivity.
  - right; cbn; lia.
  - split; [reflexivity | exact Htext].
Defined.

(** X23.  While nothing is selected, the events of the component's own user
    (keys, format buttons, focus, clicks on a rendered character) keep the
    cursor unset or at a gap of the text; and Backspace with the cursor
    unset or at the front changes nothing and sends nothing. *)
Theorem editor_cursor_stays_in_text (username room : string)
  (st : Editor.State) (ev : Editor.Event) :
  Editor.selectedId st = None -> Editor.cursor_in_text st ->
  Editor.local_event st ev ->
  Editor.cursor_in_text (fst (Editor.step username room st ev)) /\
  (Editor.cursorPosition st <= 0 ->
   forall wsOpen now ctrl meta,
     Editor.handleKeyDown username room wsOpen now st
       {| Editor.key := "Backspace"; Editor.ctrlKey := ctrl;
          Editor.metaKey := meta |} = (st, [])).
Proof.
  intros Hnone Hcursor Hlocal. split.
  - destruct ev as [e now wsOpen|style wsOpen|index|data| |];
      cbn [Editor.step fst Editor.local_event] in *.
    + unfold Editor.handleKeyDown. rewrite Hnone, orb_false_r.
      destruct (String.eqb (Editor.key e) "Backspace").
      { destruct (Z.gtb_spec (Editor.cursorPosition st) 0) as [Hpos|Hle];
          [|exact Hcursor].
        destruct Hcursor as [Hunset|Hin]; [lia|].
        right. cbn [fst Editor.cursorPosition Editor.text].
        destruct (firstn_skipn_middle (Editor.text st)
                    (Z.to_nat (Editor.cursorPosition st - 1)))
          as (x & Hsplit); [lia|].
        rewrite Hsplit at 1.
        rewrite editor_filter_index_drops
          by (rewrite firstn_length_le; lia).
        rewrite length_app, firstn_length_le, length_skipn by lia. lia. }
      destruct (String.eqb (Editor.key e) "ArrowLeft").
      { right. cbn. destruct Hcursor; lia. }
      destruct (String.eqb (Editor.key e) "ArrowRight").
      { right. cbn. destruct Hcursor; lia. }
      destruct (Nat.eqb_spec (String.length (Editor.key e)) 1) as [Hlen|_];
        [|exact Hcursor].
      destruct (Editor.ctrlKey e); [exact Hcursor|].
      destruct (Editor.metaKey e); [exact Hcursor|].
      cbn [negb andb fst].
      destruct (editor_typed_text username room wsOpen now st (Editor.key e)
                  Hcursor Hlen) as [Hgap _].
      right. cbn [Editor.cursorPosition Editor.text].
      rewrite (editor_slice_front _ _ Hgap), (editor_slice_back _ _ Hgap).
      rewrite length_app. cbn [app length].
      rewrite firstn_length_le, length_skipn by lia. lia.
    + unfold Editor.handleFormat. rewrite Hnone. exact Hcursor.
    + right. cbn. lia.
    + contradiction.
    + exact Hcursor.
    + exact Hcursor.
  - intros Hfront wsOpen now ctrl meta.
    unfold Editor.handleKeyDown. cbn [Editor.key String.eqb Ascii.eqb Bool.eqb andb].
    rewrite Hnone, orb_false_r.
    destruct (Z.gtb_spec (Editor.cursorPosition st) 0); [lia | reflexivity].
Qed.

Lemma editor_cursor_stays_in_text_witness :
  Editor.cursor_in_text
    (fst (Editor.step "u" "demo-room" Editor.initial
            (Editor.KeyDown
               {| Editor.key := "a"; Editor.ctrlKey := false;
                  Editor.metaKey := false |} 1 true))).
Proof.
  apply (editor_cursor_stays_in_text "u" "demo-room" Editor.initial).
  - reflexivity.
  - left; reflexivity.
  - exact I.
Defined.

(** * The relay *)

Lemma relay_split_no_slash (s : string) :
  Relay.no_slash s = true -> Relay.split_slash s = [s].
Proof.
  induction s as [|c s IH]; [reflexivity|].
  cbn [Relay.no_slash Relay.split_slash].
  destruct (Ascii.eqb c "/"); [discriminate|].
  cbn [negb andb]. intros H. rewrite (IH H). reflexivity.
Qed.

Lemma relay_split_at_slash (p rest : string) :
  Relay.no_slash p = true ->
  Relay.split_slash (p ++ String "/" rest)%string =
  p :: Relay.split_slash rest.
Proof.
  induction p as [|c p IH]; [reflexivity|].
  cbn [Relay.no_slash String.append Relay.split_slash].
  destruct (Ascii.eqb c "/"); [discriminate|].
  cbn [negb andb]. intros H. rewrite (IH H). reflexivity.
Qed.

(** X24.  The room of a connection is the part of the request's URL between
    its first and its second slash -- whatever stands before the first and
    behind the second -- and ['default-room'] when that part is empty, when
    the URL has no slash, and when there is no URL. *)
Theorem relay_room_of_url (before part behind : string) :
  Relay.no_slash before = true -> Relay.no_slash part = true ->
  let room :=
    if String.eqb part EmptyString then "default-room"%string else part in
  Relay.room_of (Some (before ++ String "/" part)%string) = room /\
  Relay.room_of
    (Some (before ++ String "/" (part ++ String "/" behind))%string)
  = room /\
  Relay.room_of (Some before) = "default-room"%string /\
  Relay.room_of None = "default-room"%string.
Proof.
  intros Hbefore Hpart room. unfold Relay.room_of.
  rewrite !relay_split_at_slash by assumption.
  rewrite (relay_split_no_slash part Hpart).
  rewrite (relay_split_no_slash before Hbefore).
  split; [reflexivity|]. split; [|split; reflexivity].
  cbn [nth_error].
  destruct (Relay.split_slash behind); reflexivity.
Qed.

Lemma relay_room_of_url_witness :
  Relay.room_of (Some "/demo-room"%string) = "demo-room"%string /\
  Relay.room_of (Some "/demo-room/x?y"%string) = "demo-room"%string /\
  Relay.room_of (Some "/"%string) = "default-room"%string.
Proof.
  destruct (relay_room_of_url "" "demo-room" "x?y" eq_refl eq_refl)
    as (H1 & H2 & _).
  destruct (relay_room_of_url "" "" "" eq_refl eq_refl) as (H3 & _).
  split; [exact H1|]. split; [exact H2 | exact H3].
Defined.

Lemma relay_get_set (rooms : Relay.Rooms) (roomId key : string)
  (clients : list Relay.Socket) :
  Relay.rooms_get (Relay.rooms_set rooms roomId clients) key =
  if String.eqb roomId key then Some clients else Relay.rooms_get rooms key.
Proof.
  induction rooms as [|[k old] rooms IH]; cbn [Relay.rooms_set Relay.rooms_get].
  - reflexivity.
  - destruct (String.eqb_spec k roomId) as [->|Hne];
      cbn [Relay.rooms_get].
    + destruct (String.eqb roomId key); reflexivity.
    + rewrite IH.
      destruct (String.eqb_spec k key) as [->|Hk]; [|reflexivity].
      destruct (String.eqb_spec roomId key); [congruence | reflexivity].
Qed.

Lemma relay_get_none (rooms : Relay.Rooms) (key : string) :
  Relay.rooms_get rooms key = None <-> ~ In key (map fst rooms).
Proof.
  induction rooms as [|[k v] rooms IH]; cbn [Relay.rooms_get map fst In];
    [tauto|].
  destruct (String.eqb_spec k key) as [->|Hne].
  - split; [discriminate | tauto].
  - rewrite IH; tauto.
Qed.

Lemma relay_keys_set (rooms : Relay.Rooms) (roomId : string)
  (clients : list Relay.Socket) :
  map fst (Relay.rooms_set rooms roomId clients) =
  match Relay.rooms_get rooms roomId with
  | Some _ => map fst rooms
  | None => map fst rooms ++ [roomId]
  end.
Proof.
  induction rooms as [|[k old] rooms IH];
    cbn [Relay.rooms_set Relay.rooms_get map fst app]; [reflexivity|].
  destruct (String.eqb k roomId); [reflexivity|].
  cbn [map fst]. rewrite IH.
  destruct (Relay.rooms_get rooms roomId); reflexivity.
Qed.

Lemma relay_keys_set_nodup (rooms : Relay.Rooms) (roomId : string)
  (clients : list Relay.Socket) :
  NoDup (map fst rooms) ->
  NoDup (map fst (Relay.rooms_set rooms roomId clients)).
Proof.
  intros Hnodup. rewrite relay_keys_set.
  destruct (Relay.rooms_get rooms roomId) eqn:E; [exact Hnodup|].
  apply NoDup_app; [exact Hnodup | repeat constructor; intros [] |].
  intros k Hk [<-|[]]. apply relay_get_none in E. contradiction.
Qed.

Lemma relay_get_delete (rooms : Relay.Rooms) (roomId key : string) :
  Relay.rooms_get (Relay.rooms_delete rooms roomId) key =
  if String.eqb roomId key then None else Relay.rooms_get rooms key.
Proof.
  unfold Relay.rooms_delete.
  induction rooms as [|[k v] rooms IH]; cbn [filter fst Relay.rooms_get].
  - destruct (String.eqb roomId key); reflexivity.
  - destruct (String.eqb_spec k roomId) as [->|Hne]; cbn [negb].
    + rewrite IH. destruct (String.eqb roomId key); reflexivity.
    + cbn [Relay.rooms_get]. rewrite IH.
      destruct (String.eqb_spec k key) as [->|Hk]; [|reflexivity].
      destruct (String.eqb_spec roomId key); [congruence | reflexivity].
Qed.

Lemma relay_keys_delete_nodup (rooms : Relay.Rooms) (roomId : string) :
  NoDup (map fst rooms) -> NoDup (map fst (Relay.rooms_delete rooms roomId)).
Proof.
  unfold Relay.rooms_delete.
  induction rooms as [|[k v] rooms IH]; cbn [filter map fst]; [auto|].
  intros Hnodup. inversion Hnodup as [|? ? Hout Hrest]; subst.
  destruct (negb (String.eqb k roomId)); [|auto].
  cbn [map fst]. constructor; [|auto].
  intros Hin. apply Hout.
  apply in_map_iff in Hin as (e & <- & He).
  apply filter_In in He as [He _]. apply in_map; exact He.
Qed.

Lemma relay_set_add_spec (clients : list Relay.Socket) (ws : Relay.Socket) :
  NoDup clients ->
  Relay.set_add clients ws <> [] /\ NoDup (Relay.set_add clients ws) /\
  In ws (Relay.set_add clients ws) /\
  (forall c, In c (Relay.set_add clients ws) -> c = ws \/ In c clients).
Proof.
  intros Hnodup. unfold Relay.set_add.
  destruct (existsb (Nat.eqb ws) clients) eqn:E.
  - apply existsb_exists in E as (c & Hc & Heq).
    apply Nat.eqb_eq in Heq; subst c.
    repeat split; auto. intros ->; contradiction.
  - assert (~ In ws clients) as Hout.
    { intros Hin.
      assert (existsb (Nat.eqb ws) clients = true) as Ht
          by (apply existsb_exists; exists ws; split;
              [exact Hin | apply Nat.eqb_refl]).
      congruence. }
    repeat split.
    + intros H; apply app_eq_nil in H as [_ H]; discriminate.
    + apply NoDup_app; [exact Hnodup | repeat constructor; intros [] |].
      intros c Hc [<-|[]]. contradiction.
    + apply in_or_app; right; left; reflexivity.
    + intros c Hc. apply in_app_or in Hc as [Hc|[<-|[]]]; auto.
Qed.

Lemma relay_connection_ok (open : Relay.Socket -> bool) (st : Relay.State)
  (ws : Relay.Socket) (url : option string) :
  Relay.rooms_ok st ->
  Relay.rooms_ok (fst (Relay.step st open (Relay.Connection ws url))).
Proof.
  intros [Hkeys Hrooms]. cbn [Relay.step Relay.connection fst].
  set (roomId := Relay.room_of url).
  assert (exists clients,
            Relay.rooms_get
              match Relay.rooms_get (Relay.rooms st) roomId with
              | Some _ => Relay.rooms st
              | None => Relay.rooms_set (Relay.rooms st) roomId []
              end roomId = Some clients /\
            NoDup clients /\
            forall c, In c clients -> In (c, roomId) (Relay.registered st))
    as (clients & Hget & Hnodup & Hreg).
  { destruct (Relay.rooms_get (Relay.rooms st) roomId) as [clients|] eqn:E.
    - exists clients. destruct (Hrooms roomId clients E) as (_ & H1 & H2).
      auto.
    - exists []. rewrite relay_get_set, String.eqb_refl.
      repeat split; [constructor | intros c []]. }
  rewrite Hget.
  destruct (relay_set_add_spec clients ws Hnodup)
    as (Hne & Hnd & Hin & Hfrom).
  split; cbn [Relay.rooms Relay.registered].
  - apply relay_keys_set_nodup.
    destruct (Relay.rooms_get (Relay.rooms st) roomId);
      [exact Hkeys | apply relay_keys_set_nodup; exact Hkeys].
  - intros key members. rewrite relay_get_set.
    destruct (String.eqb_spec roomId key) as [<-|Hother].
    + intros H; injection H as <-. repeat split; try assumption.
      intros c Hc. apply in_or_app.
      destruct (Hfrom c Hc) as [->|Hold];
        [right; left; reflexivity | left; apply Hreg; exact Hold].
    + intros Hmem.
      assert (Relay.rooms_get (Relay.rooms st) key = Some members) as Hold.
      { destruct (Relay.rooms_get (Relay.rooms st) roomId); [exact Hmem|].
        rewrite relay_get_set in Hmem.
        destruct (String.eqb_spec roomId key); [contradiction | exact Hmem]. }
      destruct (Hrooms key members Hold) as (H1 & H2 & H3).
      repeat split; try assumption.
      intros c Hc. apply in_or_app; left; apply H3; exact Hc.
Qed.

Lemma relay_on_close_ok (open : Relay.Socket -> bool) (rooms : Relay.Rooms)
  (registered : list (Relay.Socket * string)) (ws : Relay.Socket)
  (roomId : string) :
  Relay.rooms_ok {| Relay.rooms := rooms; Relay.registered := registered |} ->
  Relay.rooms_ok
    {| Relay.rooms := fst (Relay.on_close open rooms ws roomId);
       Relay.registered := registered |}.
Proof.
  intros [Hkeys Hrooms]. cbn [Relay.rooms Relay.registered] in *.
  unfold Relay.on_close.
  destruct (Relay.rooms_get rooms roomId) as [clients|] eqn:E.
  - rewrite relay_get_set, String.eqb_refl.
    destruct (Hrooms roomId clients E) as (_ & Hnd & Hreg).
    assert (forall key members,
              key <> roomId ->
              Relay.rooms_get
                (Relay.rooms_set rooms roomId (Relay.set_delete clients ws))
                key = Some members ->
              members <> [] /\ NoDup members /\
              forall c, In c members -> In (c, key) registered) as Hothers.
    { intros key members Hkey. rewrite relay_get_set.
      destruct (String.eqb_spec roomId key); [congruence|]. apply Hrooms. }
    destruct (Relay.set_delete clients ws) as [|c rest] eqn:Hleft;
      cbn [fst]; split; cbn [Relay.rooms Relay.registered].
    + apply relay_keys_delete_nodup, relay_keys_set_nodup, Hkeys.
    + intros key members. rewrite relay_get_delete.
      destruct (String.eqb_spec roomId key) as [<-|Hother]; [discriminate|].
      apply Hothers; congruence.
    + apply relay_keys_set_nodup, Hkeys.
    + intros key members.
      destruct (String.eqb_spec roomId key) as [<-|Hother];
        [|apply Hothers; congruence].
      rewrite relay_get_set, String.eqb_refl. intros H; injection H as <-.
      split; [discriminate|]. rewrite <- Hleft.
      split; [apply NoDup_filter; exact Hnd|].
      intros x Hx. apply filter_In in Hx as [Hx _]. apply Hreg; exact Hx.
  - rewrite E. cbn [fst]. split; assumption.
Qed.

Lemma relay_close_all_ok (open : Relay.Socket -> bool)
  (registered : list (Relay.Socket * string)) (ws : Relay.Socket)
  (roomIds : list string) :
  forall (rooms : Relay.Rooms) (sent : list Relay.Sent),
    Relay.rooms_ok {| Relay.rooms := rooms; Relay.registered := registered |} ->
    Relay.rooms_ok
      {| Relay.rooms :=
           fst (fold_left
                  (fun acc roomId =>
                     let (rooms1, sent1) :=
                       Relay.on_close open (fst acc) ws roomId in
                     (rooms1, snd acc ++ sent1))
                  roomIds (rooms, sent));
         Relay.registered := registered |}.
Proof.
  induction roomIds as [|roomId roomIds IH]; intros rooms sent Hok;
    cbn [fold_left fst]; [exact Hok|].
  pose proof (relay_on_close_ok open rooms registered ws roomId Hok) as Hstep.
  destruct (Relay.on_close open rooms ws roomId) as [rooms1 sent1].
  apply IH. exact Hstep.
Qed.

Lemma relay_step_ok (st : Relay.State) (open : Relay.Socket -> bool)
  (ev : Relay.Event) :
  Relay.rooms_ok st -> Relay.rooms_ok (fst (Relay.step st open ev)).
Proof.
  intros Hok. destruct ev as [ws url|ws parsed|ws].
  - apply relay_connection_ok; exact Hok.
  - exact Hok.
  - cbn [Relay.step].
    pose proof (relay_close_all_ok open (Relay.registered st) ws
                  (Relay.rooms_of (Relay.registered st) ws)
                  (Relay.rooms st) []) as H.
    destruct (fold_left _ _ _) as [rooms' sent]. cbn [fst] in *.
    apply H. destruct st; exact Hok.
Qed.

Lemma relay_run_ok (events : list ((Relay.Socket -> bool) * Relay.Event)) :
  forall st, Relay.rooms_ok st -> Relay.rooms_ok (fst (Relay.run st events)).
Proof.
  induction events as [|[open ev] events IH]; intros st Hok; [exact Hok|].
  cbn [Relay.run].
  pose proof (relay_step_ok st open ev Hok) as Hstep.
  destruct (Relay.step st open ev) as [st' sent].
  specialize (IH st' Hstep).
  destruct (Relay.run st' events) as [final sent']. exact IH.
Qed.

(** X25.  Whatever connections, messages and closings arrive, in whatever
    order and whichever sockets are open, the server's map never holds a
    room without a socket, never holds a room id or a socket of a room
    twice, and holds a socket only in a room it connected to. *)
Theorem relay_rooms_stay_ok
  (events : list ((Relay.Socket -> bool) * Relay.Event)) :
  let st := fst (Relay.run Relay.start events) in
  NoDup (map fst (Relay.rooms st)) /\
  forall roomId clients,
    Relay.rooms_get (Relay.rooms st) roomId = Some clients ->
    clients <> [] /\ NoDup clients /\
    forall ws, In ws clients -> In (ws, roomId) (Relay.registered st).
Proof.
  apply (relay_run_ok events Relay.start).
  split; [constructor | intros roomId clients H; discriminate].
Qed.

Lemma relay_broadcast_in (open : Relay.Socket -> bool) (rooms : Relay.Rooms)
  (roomId : string) (data : Relay.Payload) (sender : Relay.Socket)
  (c : Relay.Socket) (p : Relay.Payload) :
  In (c, p) (Relay.broadcast open rooms roomId data (Some sender)) <->
  p = data /\ c <> sender /\ open c = true /\
  exists clients,
    Relay.rooms_get rooms roomId = Some clients /\ In c clients.
Proof.
  unfold Relay.broadcast.
  destruct (Relay.rooms_get rooms roomId) as [clients|].
  - rewrite in_map_iff. split.
    + intros (x & Heq & Hx). injection Heq as -> ->.
      apply filter_In in Hx as [Hx Hkeep].
      apply andb_true_iff in Hkeep as [Hns Hopen].
      apply negb_true_iff, Nat.eqb_neq in Hns.
      repeat split; try assumption. exists clients; auto.
    + intros (-> & Hns & Hopen & members & Hget & Hin).
      injection Hget as <-. exists c. split; [reflexivity|].
      apply filter_In. split; [exact Hin|].
      apply andb_true_iff. split; [|exact Hopen].
      apply negb_true_iff, Nat.eqb_neq; exact Hns.
  - split; [intros [] | intros (_ & _ & _ & clients & H & _); discriminate].
Qed.

Lemma relay_rooms_of_in (registered : list (Relay.Socket * string))
  (ws : Relay.Socket) (roomId : string) :
  In roomId (Relay.rooms_of registered ws) <-> In (ws, roomId) registered.
Proof.
  unfold Relay.rooms_of. rewrite in_map_iff. split.
  - intros ([w r] & Heq & Hin). cbn in Heq; subst r.
    apply filter_In in Hin as [Hin Hw]. cbn in Hw.
    apply Nat.eqb_eq in Hw; subst w. exact Hin.
  - intros Hin. exists (ws, roomId). split; [reflexivity|].
    apply filter_In. split; [exact Hin | apply Nat.eqb_refl].
Qed.

(** X26.  A message that parses is sent on, as parsed, to exactly the
    sockets that are open, are not the sender, and are in a room the sender
    connected to: never back to the sender, never to a closed socket, never
    to a socket of another room only, and whatever room the message itself
    names.  A message that does not parse is sent to no one.  The rooms are
    as before in both cases. *)
Theorem relay_message_reaches_room (st : Relay.State)
  (open : Relay.Socket -> bool) (ws : Relay.Socket) (parsed : option json) :
  fst (Relay.step st open (Relay.Message ws parsed)) = st /\
  (parsed = None -> snd (Relay.step st open (Relay.Message ws parsed)) = []) /\
  (forall c p,
     In (c, p) (snd (Relay.step st open (Relay.Message ws parsed))) <->
     (exists data, parsed = Some data /\ p = Relay.Relayed data) /\
     c <> ws /\ open c = true /\
     exists roomId clients,
       In (ws, roomId) (Relay.registered st) /\
       Relay.rooms_get (Relay.rooms st) roomId = Some clients /\
       In c clients).
Proof.
  cbn [Relay.step fst snd]. split; [reflexivity|]. split.
  - intros ->. induction (Relay.rooms_of (Relay.registered st) ws);
      [reflexivity | assumption].
  - intros c p. rewrite in_flat_map. split.
    + intros (roomId & Hroom & Hin).
      apply relay_rooms_of_in in Hroom.
      destruct parsed as [data|]; [|destruct Hin].
      cbn [Relay.on_message] in Hin.
      apply relay_broadcast_in in Hin
        as (-> & Hns & Hopen & clients & Hget & Hc).
      split; [exists data; auto|]. repeat split; try assumption.
      exists roomId, clients; auto.
    + intros ((data & -> & ->) & Hns & Hopen & roomId & clients
              & Hreg & Hget & Hc).
      exists roomId. split; [apply relay_rooms_of_in; exact Hreg|].
      cbn [Relay.on_message]. apply relay_broadcast_in.
      repeat split; try assumption. exists clients; auto.
Qed.

Lemma relay_broadcast_all (open : Relay.Socket -> bool) (rooms : Relay.Rooms)
  (roomId : string) (clients : list Relay.Socket) :
  Relay.rooms_get rooms roomId = Some clients ->
  Relay.broadcastUserCount open rooms roomId =
  map (fun c => (c, Relay.UserCount (length clients) roomId))
    (filter open clients).
Proof.
  intros Hget. unfold Relay.broadcastUserCount, Relay.broadcast.
  rewrite Hget. reflexivity.
Qed.

(** X27.  A connection puts the socket into the room of its URL, which is
    made if it is not there, and every open socket of that room, the new one
    included, is sent the number of sockets the room now has. *)
Theorem relay_connection_announces_count (st : Relay.State)
  (open : Relay.Socket -> bool) (ws : Relay.Socket) (url : option string) :
  let roomId := Relay.room_of url in
  let after := Relay.step st open (Relay.Connection ws url) in
  exists clients,
    Relay.rooms_get (Relay.rooms (fst after)) roomId = Some clients /\
    clients =
      Relay.set_add
        match Relay.rooms_get (Relay.rooms st) roomId with
        | Some old => old
        | None => []
        end ws /\
    In ws clients /\
    In (ws, roomId) (Relay.registered (fst after)) /\
    snd after =
      map (fun c => (c, Relay.UserCount (length clients) roomId))
        (filter open clients).
Proof.
  intros roomId after. unfold after.
  cbn [Relay.step Relay.connection fst snd Relay.rooms Relay.registered].
  fold roomId.
  set (old := match Relay.rooms_get (Relay.rooms st) roomId with
              | Some old => old
              | None => []
              end).
  assert (Relay.rooms_get
            match Relay.rooms_get (Relay.rooms st) roomId with
            | Some _ => Relay.rooms st
            | None => Relay.rooms_set (Relay.rooms st) roomId []
            end roomId = Some old) as Hget.
  { unfold old. destruct (Relay.rooms_get (Relay.rooms st) roomId) eqn:E;
      [exact E|]. rewrite relay_get_set, String.eqb_refl. reflexivity. }
  rewrite Hget.
  exists (Relay.set_add old ws).
  assert (Relay.rooms_get
            (Relay.rooms_set
               match Relay.rooms_get (Relay.rooms st) roomId with
               | Some _ => Relay.rooms st
               | None => Relay.rooms_set (Relay.rooms st) roomId []
               end roomId (Relay.set_add old ws)) roomId =
          Some (Relay.set_add old ws)) as Hnew
      by (rewrite relay_get_set, String.eqb_refl; reflexivity).
  split; [exact Hnew|]. split; [reflexivity|]. split.
  { unfold Relay.set_add.
    destruct (existsb (Nat.eqb ws) old) eqn:E.
    - apply existsb_exists in E as (c & Hc & Heq).
      apply Nat.eqb_eq in Heq; subst c; exact Hc.
    - apply in_or_app; right; left; reflexivity. }
  split; [apply in_or_app; right; left; reflexivity|].
  apply relay_broadcast_all. exact Hnew.
Qed.

(** X28.  When a socket that connected to one room closes, it leaves the
    room: if it was the last socket the room is removed from the map and
    nothing is sent, and otherwise every open socket left in the room is
    sent the number of sockets left. *)
Theorem relay_close_leaves_room (st : Relay.State)
  (open : Relay.Socket -> bool) (ws : Relay.Socket) (roomId : string)
  (clients : list Relay.Socket) :
  Relay.rooms_of (Relay.registered st) ws = [roomId] ->
  Relay.rooms_get (Relay.rooms st) roomId = Some clients ->
  let after := Relay.step st open (Relay.Close ws) in
  let left := Relay.set_delete clients ws in
  ~ In ws left /\
  (forall key, key <> roomId ->
     Relay.rooms_get (Relay.rooms (fst after)) key =
     Relay.rooms_get (Relay.rooms st) key) /\
  match left with
  | [] =>
      Relay.rooms_get (Relay.rooms (fst after)) roomId = None /\
      snd after = []
  | _ :: _ =>
      Relay.rooms_get (Relay.rooms (fst after)) roomId = Some left /\
      snd after =
        map (fun c => (c, Relay.UserCount (length left) roomId))
          (filter open left)
  end.
Proof.
  intros Hone Hget after left. unfold after.
  cbn [Relay.step]. rewrite Hone. cbn [fold_left fst snd app].
  unfold Relay.on_close. rewrite Hget, relay_get_set, String.eqb_refl.
  fold left.
  split.
  { unfold left, Relay.set_delete. intros Hin.
    apply filter_In in Hin as [_ Hin]. rewrite Nat.eqb_refl in Hin.
    discriminate. }
  destruct left as [|c rest] eqn:Hleft;
    cbn [fst snd Relay.rooms app].
  - split; [|split; [|reflexivity]].
    + intros key Hkey. rewrite relay_get_delete, relay_get_set.
      destruct (String.eqb_spec roomId key); [congruence | reflexivity].
    + rewrite relay_get_delete, String.eqb_refl. reflexivity.
  - split; [|split].
    + intros key Hkey. rewrite relay_get_set.
      destruct (String.eqb_spec roomId key); [congruence | reflexivity].
    + rewrite relay_get_set, String.eqb_refl. reflexivity.
    + apply relay_broadcast_all.
      rewrite relay_get_set, String.eqb_refl. reflexivity.
Qed.

Lemma relay_close_leaves_room_witness :
  let open := fun _ : Relay.Socket => true in
  let joined :=
    fst (Relay.run Relay.start
           [(open, Relay.Connection 1%nat (Some "/demo-room"%string));
            (open, Relay.Connection 2%nat (Some "/demo-room"%string))]) in
  Relay.rooms joined = [("demo-room"%string, [1%nat; 2%nat])] /\
  Relay.step joined open (Relay.Close 1%nat) =
    ({| Relay.rooms := [("demo-room"%string, [2%nat])];
        Relay.registered := Relay.registered joined |},
     [(2%nat, Relay.UserCount 1%nat "demo-room")]) /\
  Relay.rooms_get
    (Relay.rooms
       (fst (Relay.step (fst (Relay.step joined open (Relay.Close 1%nat))) open
               (Relay.Close 2%nat)))) "demo-room" = None.
Proof.
  intros open joined.
  split; [reflexivity|]. split; [reflexivity|].
  destruct (relay_close_leaves_room
              (fst (Relay.step joined open (Relay.Close 1%nat))) open 2%nat
              "demo-room" [2%nat] eq_refl eq_refl) as (_ & _ & [Hgone _]).
  exact Hgone.
Defined.
